(** * myipms-table-scrape: partition, extraction, chunk runs, consolidation

    A shallow embedding of the JavaScript sources
    - [url_generator.js]   (the Partitioner),
    - [worker_script.js]   (the Fetch Engine and the Chunk Runner),
    - [consolidate_data.js] (the Consolidator),
    - the first worker script and the URLs of [local_scraper.js],
    and the properties of the specification that concern them.

    Conventions of the embedding:
    - a JavaScript string is a [string]; every character stands for one
      UTF-16 code unit below 256, so the white space of [trim] and of the
      regular expression class [\s] is TAB, LF, VT, FF, CR, SPACE and NBSP;
    - JavaScript integers are [Z] (all values stay far below 2^53);
    - a thrown [Error] is [Throw msg], built by a small error monad;
    - a loop the source does not bound is run with fuel: [None] means that
      the loop is still running when the fuel is used up; where the limits
      of the engine decide how a loop ends, it is run turn by turn;
    - a directory is a finite map from file names to file contents; a CSV
      file is the list of its rows, each a finite map from column names to
      values. *)

From Stdlib Require Import ZArith List Ascii String DecimalString DecimalZ
  Lia Bool.
From stdpp Require Import base option list fin_maps gmap strings.

Local Open Scope string_scope.
Local Open Scope Z_scope.
Local Open Scope list_scope.

(** ** JavaScript primitives used by the sources *)

Module JS.

(** [WhiteSpace] and [LineTerminator] code units below 256. *)
Definition isSpace (c : ascii) : bool :=
  match c with
  | "009" | "010" | "011" | "012" | "013" | " " | "160" => true
  | _ => false
  end%char.

Definition isDigit (c : ascii) : bool :=
  match c with
  | "0" | "1" | "2" | "3" | "4" | "5" | "6" | "7" | "8" | "9" => true
  | _ => false
  end%char.

(** Truthiness of a string, and [a || b] on strings. *)
Definition truthy (s : string) : bool :=
  match s with EmptyString => false | String _ _ => true end.

Definition or_else (a b : string) : string := if truthy a then a else b.

(** [value || fallback] where [value] may be [undefined]. *)
Definition orElse (value : option string) (fallback : string) : string :=
  match value with
  | Some s => or_else s fallback
  | None => fallback
  end.

(** A template literal prints an absent property as [undefined]. *)
Definition template (o : option string) : string := default "undefined" o.

(** [String.prototype.trim]. *)
Fixpoint trimStart (s : string) : string :=
  match s with
  | EmptyString => EmptyString
  | String c s' => if isSpace c then trimStart s' else s
  end.

Fixpoint trimEnd (s : string) : string :=
  match s with
  | EmptyString => EmptyString
  | String c s' =>
      let t := trimEnd s' in
      if isSpace c && negb (truthy t) then EmptyString else String c t
  end.

Definition trim (s : string) : string := trimEnd (trimStart s).

(** [s.replace(/\s+/g, "-")]: every maximal run of white space becomes one
    hyphen.  [inRun] tells that the previous character was white space. *)
Fixpoint replaceSpaceRuns_from (inRun : bool) (s : string) : string :=
  match s with
  | EmptyString => EmptyString
  | String c s' =>
      if isSpace c
      then if inRun then replaceSpaceRuns_from true s'
           else String "-" (replaceSpaceRuns_from true s')
      else String c (replaceSpaceRuns_from false s')
  end.

Definition replaceSpaceRuns (s : string) : string :=
  replaceSpaceRuns_from false s.

Fixpoint dropS (n : nat) (s : string) : string :=
  match n, s with
  | O, _ => s
  | S n', String _ s' => dropS n' s'
  | S _, EmptyString => EmptyString
  end.

Definition startsWith (s pre : string) : bool := String.prefix pre s.

Definition endsWith (s suf : string) : bool :=
  String.prefix (String.rev suf) (String.rev s).

(** [s.includes(sub)]. *)
Fixpoint includes (s sub : string) : bool :=
  String.prefix sub s ||
  match s with
  | EmptyString => false
  | String _ s' => includes s' sub
  end.

(** [s.replace(pat, rep)] with a string pattern: the first occurrence. *)
Fixpoint replaceFirst (pat rep s : string) : string :=
  if String.prefix pat s then rep +:+ dropS (String.length pat) s
  else match s with
       | EmptyString => EmptyString
       | String c s' => String c (replaceFirst pat rep s')
       end.

(** [Number.prototype.toString] on an integer. *)
Definition toString (n : Z) : string := NilZero.string_of_int (Z.to_int n).

(** [String.prototype.padStart]. *)
Fixpoint fillTo (n : nat) (fill rest : string) : string :=
  match n with
  | O => EmptyString
  | S n' =>
      match rest with
      | String c r => String c (fillTo n' fill r)
      | EmptyString =>
          match fill with
          | String c r => String c (fillTo n' fill r)
          | EmptyString => EmptyString
          end
      end
  end.

Definition padStart (target : nat) (fill s : string) : string :=
  if (target <=? String.length s)%nat then s
  else fillTo (target - String.length s) fill fill +:+ s.

(** [s.split(sep)] for a one-character separator, [l.join(sep)]. *)
Fixpoint split (sep : ascii) (s : string) : list string :=
  match s with
  | EmptyString => [EmptyString]
  | String c s' =>
      if Ascii.eqb c sep then EmptyString :: split sep s'
      else match split sep s' with
           | w :: ws => String c w :: ws
           | [] => [String c EmptyString]
           end
  end.

Fixpoint join (sep : string) (l : list string) : string :=
  match l with
  | [] => EmptyString
  | [x] => x
  | x :: rest => x +:+ sep +:+ join sep rest
  end.

(** [a > b] on strings: code units compared from left to right. *)
Definition gt (a b : string) : bool :=
  match String.compare a b with Gt => true | _ => false end.

(** [Array.prototype.slice(start, end)]. *)
Definition slice {A} (l : list A) (start end_ : Z) : list A :=
  let len := Z.of_nat (length l) in
  let k := if start <? 0 then Z.max (len + start) 0 else Z.min start len in
  let final := if end_ <? 0 then Z.max (len + end_) 0 else Z.min end_ len in
  take (Z.to_nat (final - k)) (drop (Z.to_nat k) l).

End JS.

(** A value or a thrown [Error] carrying its message. *)
Inductive result (A : Type) : Type :=
| Ok (a : A)
| Throw (msg : string).
Arguments Ok {A} a.
Arguments Throw {A} msg.

#[global] Instance result_ret : MRet result := fun A a => Ok a.

#[global] Instance result_bind : MBind result := fun A B k r =>
  match r with
  | Ok a => k a
  | Throw msg => Throw msg
  end.

(** [try { body } catch (error) { handler(error.message) }]. *)
Definition try_catch {A} (body : result A) (handler : string -> result A)
  : result A :=
  match body with
  | Ok a => Ok a
  | Throw msg => handler msg
  end.

(** A directory: file name to file content. *)
Abbreviation directory := (gmap string string).

(** ** url_generator.js *)

Module url_generator.

Definition BASE_URL : string :=
  "https://myip.ms/browse/sites/{page}/rankii/15000000/ipID/23.227.38.0/ipIDii/23.227.38.255".
Definition TOTAL_PAGES : Z := 15000.
Definition CHUNK_SIZE : Z := 50.

(** [BASE_URL.replace('{page}', page)]. *)
Definition pageUrl (page : Z) : string :=
  JS.replaceFirst "{page}" (JS.toString page) BASE_URL.

(** [for (let page = 1; page <= TOTAL_PAGES; page++) urls.push(...)];
    the page count is a parameter here. *)
Fixpoint generateUrlList_loop (fuel : nat) (totalPages page : Z)
    (urls : list string) : list string :=
  match fuel with
  | O => urls
  | S fuel' =>
      if page <=? totalPages
      then generateUrlList_loop fuel' totalPages (page + 1)
             (urls ++ [pageUrl page])
      else urls
  end.

(** The loop takes [totalPages] turns (none when [totalPages < 1]); with
    more fuel it returns the same list. *)
Definition generateUrlList (totalPages : Z) : list string :=
  generateUrlList_loop (Z.to_nat totalPages) totalPages 1 [].

(** [for (let i = 0; i < urls.length; i += chunkSize)
       chunks.push(urls.slice(i, i + chunkSize))]. *)
Fixpoint chunkUrls_loop (fuel : nat) (urls : list string) (chunkSize i : Z)
    (chunks : list (list string)) : option (list (list string)) :=
  match fuel with
  | O => None
  | S fuel' =>
      if i <? Z.of_nat (length urls)
      then chunkUrls_loop fuel' urls chunkSize (i + chunkSize)
             (chunks ++ [JS.slice urls i (i + chunkSize)])
      else Some chunks
  end.

Definition chunkUrls (fuel : nat) (urls : list string) (chunkSize : Z)
  : option (list (list string)) :=
  chunkUrls_loop fuel urls chunkSize 0 [].

(** The same loop turn by turn, with the limit the engine puts on the
    array [chunks]: [capacity] is the number of elements the array can grow
    to, [2^32 - 1] at most (one more [push] throws [RangeError: Invalid
    array length]) and fewer when the heap is exhausted before.  With a
    chunk size of at least 1 the array never gets there. *)
Inductive loopState : Type :=
| Looping (i : Z) (chunks : list (list string))
| Returned (chunks : list (list string))
| EngineFailure.

Definition chunkUrls_turn (capacity : nat) (urls : list string)
    (chunkSize : Z) (s : loopState) : loopState :=
  match s with
  | Looping i chunks =>
      if i <? Z.of_nat (length urls)
      then if (length chunks <? capacity)%nat
           then Looping (i + chunkSize)
                  (chunks ++ [JS.slice urls i (i + chunkSize)])
           else EngineFailure
      else Returned chunks
  | Returned chunks => Returned chunks
  | EngineFailure => EngineFailure
  end.

(** The state of the loop after [turns] turns. *)
Definition chunkUrls_turns (capacity turns : nat) (urls : list string)
    (chunkSize : Z) : loopState :=
  Nat.iter turns (chunkUrls_turn capacity urls chunkSize) (Looping 0 []).

(** [main]: the list of URLs, then its chunks.  Nothing is checked and
    nothing is thrown before the loops run. *)
Definition partition (fuel : nat) (totalPages quota : Z)
  : option (list (list string)) :=
  chunkUrls fuel (generateUrlList totalPages) quota.

(** [`chunk_${chunkNum.toString().padStart(4, '0')}.txt`]. *)
Definition chunkFileName (chunkNum : Z) : string :=
  "chunk_" +:+ JS.padStart 4 "0" (JS.toString chunkNum) +:+ ".txt".

Definition isChunkFile (file : string) : bool :=
  JS.startsWith file "chunk_" && JS.endsWith file ".txt".

(** [chunks.forEach((chunk, index) => writeFileSync(...))]. *)
Fixpoint writeChunks (index : Z) (chunks : list (list string))
    (dir : directory) : directory :=
  match chunks with
  | [] => dir
  | chunk :: rest =>
      writeChunks (index + 1) rest
        (<[chunkFileName (index + 1) := JS.join (String "010" "") chunk]> dir)
  end.

(** [saveChunks], on the [chunks] directory; [manifest] is the rendered
    manifest, which depends on the clock. *)
Definition saveChunks (chunks : list (list string)) (manifest : string)
    (dir : directory) : directory :=
  let cleared := filter (fun kv => isChunkFile kv.1 = false) dir in
  <["manifest.json" := manifest]> (writeChunks 0 chunks cleared).

End url_generator.

(** ** The document a page driver evaluates the extraction on *)

#[local] Set Warnings "-register-all".

(** A DOM node: a text node, or an element with its tag, its [id], the
    [href] it resolves to (empty when it has none) and its children. *)
Inductive node : Type :=
| Text (data : string)
| Element (tag id href : string) (children : list node).

(** [Node.textContent]: the text of all descendants, in document order. *)
Fixpoint textContent (n : node) : string :=
  match n with
  | Text data => data
  | Element _ _ _ children =>
      (fix texts (l : list node) : string :=
         match l with
         | [] => EmptyString
         | k :: l' => textContent k +:+ texts l'
         end) children
  end.

(** A node and its descendants, in document order. *)
Fixpoint subtree (n : node) : list node :=
  n :: match n with
       | Text _ => []
       | Element _ _ _ children =>
           (fix subtrees (l : list node) : list node :=
              match l with
              | [] => []
              | k :: l' => subtree k ++ subtrees l'
              end) children
       end.

Definition descendants (n : node) : list node := drop 1 (subtree n).

Definition hasTag (t : string) (n : node) : bool :=
  match n with
  | Text _ => false
  | Element tag _ _ _ => String.eqb tag t
  end.

Definition hasId (i : string) (n : node) : bool :=
  match n with
  | Text _ => false
  | Element _ id _ _ => String.eqb id i
  end.

Definition href (n : node) : string :=
  match n with
  | Text _ => EmptyString
  | Element _ _ h _ => h
  end.

(** [n.querySelectorAll(sel)] and [n.querySelector(sel)], the selector
    given as a test on elements. *)
Definition querySelectorAll (sel : node -> bool) (n : node) : list node :=
  filter (fun d => sel d = true) (descendants n).

Definition querySelector (sel : node -> bool) (n : node) : option node :=
  head (querySelectorAll sel n).

(** ** worker_script.js *)

Module worker_script.

Definition COOKIES_ENV_VAR : string := "SESSION_DATA".

Record Row : Type := {
  rank : string;
  domain : string;
  domainUrl : string;
  ipAddress : string;
  ipAddressUrl : string;
  location : string;
  owner : string;
  ownerUrl : string;
  lastUpdate : string;
  sourceUrl : string;
  scrapedAt : string;
  uniqueId : string
}.

(** [loadCookiesFromEnv]; decoding base64 and [JSON.parse] are the
    parameter [parse].  The parsed value is kept abstract: [None] is the
    JSON value [null], [Some session] any other value. *)
Definition loadCookiesFromEnv {session : Type} (env : option string)
    (parse : string -> result (option session)) : result (option session) :=
  match env with
  | None => Throw (COOKIES_ENV_VAR +:+ " environment variable not found")
  | Some base64Cookies =>
      if JS.truthy base64Cookies
      then try_catch (parse base64Cookies)
             (fun msg => Throw ("Failed to parse cookies: " +:+ msg))
      else Throw (COOKIES_ENV_VAR +:+ " environment variable not found")
  end.

(** [loadUrlsFromChunk], on the [chunks] directory, for a chunk number
    that holds no path separator; paths are written from the directory of
    the script. *)
Definition loadUrlsFromChunk (chunks : directory) (chunkNumber : string)
  : result (list string) :=
  let chunkFile := "chunk_" +:+ chunkNumber +:+ ".txt" in
  match chunks !! chunkFile with
  | None => Throw ("Chunk file not found: chunks/" +:+ chunkFile)
  | Some content =>
      let urls :=
        filter (fun url => JS.trim url <> EmptyString)
               (JS.split "010" content) in
      if (length urls =? 0)%nat
      then Throw ("No URLs found in chunk file: chunks/" +:+ chunkFile)
      else Ok urls
  end.

(** [cells[i]?.textContent?.trim()] and [link?.textContent?.trim()]:
    [None] is [undefined]. *)
Definition trimmedText (o : option node) : option string :=
  (fun n => JS.trim (textContent n)) <$> o.

Definition isCell (n : node) : bool := hasTag "td" n || hasTag "th" n.

(** The body of [dataRows.map((row, index) => ...)]. *)
Definition extractRow (locationHref now : string) (index : nat) (row : node)
  : Row :=
  let cells := querySelectorAll isCell row in
  let rank :=
    JS.orElse (trimmedText (cells !! 0%nat))
           ("row-" +:+ JS.toString (Z.of_nat index + 1)) in
  let domainLink := cells !! 1%nat ≫= querySelector (hasTag "a") in
  let ipLink := cells !! 2%nat ≫= querySelector (hasTag "a") in
  let ownerLink := cells !! 4%nat ≫= querySelector (hasTag "a") in
  {| rank := rank;
     domain :=
       JS.orElse (trimmedText (cells !! 1%nat))
              (JS.orElse (trimmedText domainLink) EmptyString);
     domainUrl := JS.orElse (href <$> domainLink) EmptyString;
     ipAddress :=
       JS.orElse (trimmedText (cells !! 2%nat))
              (JS.orElse (trimmedText ipLink) EmptyString);
     ipAddressUrl := JS.orElse (href <$> ipLink) EmptyString;
     location := JS.orElse (trimmedText (cells !! 3%nat)) EmptyString;
     owner :=
       JS.orElse (trimmedText (cells !! 4%nat))
              (JS.orElse (trimmedText ownerLink) EmptyString);
     ownerUrl := JS.orElse (href <$> ownerLink) EmptyString;
     lastUpdate := JS.orElse (trimmedText (cells !! 5%nat)) EmptyString;
     sourceUrl := locationHref;
     scrapedAt := now;
     uniqueId :=
       JS.replaceSpaceRuns
         (rank +:+ "-" +:+ JS.orElse (trimmedText (cells !! 1%nat)) EmptyString)
  |}.

(** [.filter((row) => row.domain || row.ipAddress)]. *)
Definition keepRow (row : Row) : bool :=
  JS.truthy (domain row) || JS.truthy (ipAddress row).

(** The function [scrapePage] evaluates in the page: [document] is the
    loaded document, [locationHref] is [window.location.href] and [clock i]
    is what [new Date().toISOString()] gives for data row [i]. *)
Definition extractTable (locationHref : string) (clock : nat -> string)
    (document : node) : list Row :=
  match querySelector (hasId "sites_tbl") document with
  | None => []
  | Some table =>
      let rows := querySelectorAll (hasTag "tr") table in
      let dataRows := drop 1 rows in
      filter (fun row => keepRow row = true)
        (imap (fun index row => extractRow locationHref (clock index) index row)
              dataRows)
  end.

(** What the page driver does during one call of [scrapePage]: the outcome
    of every awaited driver call, in the order of the calls.  The random
    delays and coordinates only change the timing. *)
Record pageVisit : Type := {
  goto : result unit;
  mouseMove : result unit;
  scrollTo : result unit;
  title : result string;
  pageUrl : result string;
  waitForSelector : result unit;
  document : result node;
  locationHref : string;
  clock : nat -> string
}.

Definition isChallenge (pageTitle pageUrl : string) : bool :=
  JS.includes pageTitle "Verification" ||
  JS.includes pageTitle "CAPTCHA" ||
  JS.includes pageUrl "verify" ||
  JS.includes pageTitle "Bot" ||
  JS.includes pageTitle "Security Check".

Definition isLogin (pageTitle pageUrl : string) : bool :=
  JS.includes pageUrl "login" ||
  JS.includes pageTitle "Login" ||
  JS.includes pageTitle "Sign In".

(** [scrapePage]: [Ok None] is [return null], [Ok (Some rows)] is
    [return tableData]. *)
Definition scrapePage (v : pageVisit) : result (option (list Row)) :=
  try_catch
    (goto v ;;
     mouseMove v ;;
     scrollTo v ;;
     pageTitle ← title v;
     pageUrl ← pageUrl v;
     if isChallenge pageTitle pageUrl then Ok None
     else if isLogin pageTitle pageUrl then Ok None
     else
       match waitForSelector v with
       | Throw _ => Ok None
       | Ok _ =>
           doc ← document v;
           Ok (Some (extractTable (locationHref v) (clock v) doc))
       end)
    (fun _ => Ok None).

(** The accumulator and the counters of [main]. *)
Record runState : Type := {
  allData : list Row;
  successCount : nat;
  failCount : nat
}.

Definition initialState : runState :=
  {| allData := []; successCount := 0; failCount := 0 |}.

(** One turn of the loop body after [scrapePage] returned [data]:
    [if (data && data.length > 0) ... else failCount++]. *)
Definition count (data : option (list Row)) (st : runState) : runState :=
  match data with
  | Some rows =>
      if (0 <? length rows)%nat
      then {| allData := allData st ++ rows;
              successCount := S (successCount st);
              failCount := failCount st |}
      else {| allData := allData st;
              successCount := successCount st;
              failCount := S (failCount st) |}
  | None =>
      {| allData := allData st;
         successCount := successCount st;
         failCount := S (failCount st) |}
  end.

(** [for (let i = 0; i < urls.length; i++)]: [visit i url] is what the
    driver does on turn [i]. *)
Fixpoint scrapeAll (visit : nat -> string -> pageVisit) (i : nat)
    (urls : list string) (st : runState) : result runState :=
  match urls with
  | [] => Ok st
  | url :: rest =>
      data ← scrapePage (visit i url);
      scrapeAll visit (S i) rest (count data st)
  end.

(** The header of [saveToCSV]: the columns of a persisted row. *)
Definition toRecord (r : Row) : gmap string string :=
  list_to_map
    [("Rank", rank r); ("Domain", domain r); ("Domain_URL", domainUrl r);
     ("IP_Address", ipAddress r); ("IP_Address_URL", ipAddressUrl r);
     ("Location", location r); ("Owner", owner r); ("Owner_URL", ownerUrl r);
     ("Last_Update", lastUpdate r); ("Source_URL", sourceUrl r);
     ("Scraped_At", scrapedAt r); ("Unique_ID", uniqueId r)].

Definition outputFileName (chunkNumber timestamp : string) : string :=
  "data_chunk_" +:+ chunkNumber +:+ "_" +:+ timestamp +:+ ".csv".

(** The [data] directory: file name to the rows of the CSV file. *)
Abbreviation dataDirectory := (gmap string (list (gmap string string))).

(** The save block of [main]: a file is written only when rows were
    collected.  [write] is the outcome of [csvWriter.writeRecords]. *)
Definition saveBlock (chunkNumber timestamp : string) (write : result unit)
    (st : runState) (data : dataDirectory) : result dataDirectory :=
  if (0 <? length (allData st))%nat
  then write ;;
       Ok (<[outputFileName chunkNumber timestamp := toRecord <$> allData st]>
             data)
  else Ok data.

(** What a run of the script leaves behind: the exit status, the [data]
    directory and the counters of the logged summary (they are logged in
    the branch that saves, after the write and before the browser is
    closed). *)
Record report : Type := {
  exitCode : Z;
  dataDir : dataDirectory;
  summary : option runState
}.

(** [main].  [argv2] is [process.argv[2]], [env] the session variable,
    [launch] the outcome of [setupBrowser], [close] that of
    [browser.close()] in the [finally] block, [timestamp] the stamp taken
    in the save block.  Reading [cookies.length] throws when the session
    variable holds the JSON value [null].  An error that reaches the outer
    [catch] ends the process with status 1; the summary is logged by then
    when the error comes from [browser.close()]. *)
Definition main {session : Type} (argv2 : option string) (env : option string)
    (parse : string -> result (option session)) (chunks : directory)
    (launch : session -> result unit)
    (visit : nat -> string -> pageVisit) (timestamp : string)
    (write close : result unit) (data : dataDirectory) : report :=
  let failed d logged :=
    {| exitCode := 1; dataDir := d; summary := logged |} in
  match argv2 with
  | None => failed data None
  | Some chunkNumber =>
      if negb (JS.truthy chunkNumber) then failed data None
      else
        let setup :=
          cookies ← loadCookiesFromEnv env parse;
          urls ← loadUrlsFromChunk chunks chunkNumber;
          match cookies with
          | None => Throw "Cannot read properties of null (reading 'length')"
          | Some session => launch session
          end ;;
          Ok urls in
        match setup with
        | Throw _ => failed data None
        | Ok urls =>
            match
              st ← scrapeAll visit 0 urls initialState;
              data' ← saveBlock chunkNumber timestamp write st data;
              Ok (st, data')
            with
            | Throw _ => failed data None
            | Ok (st, data') =>
                let logged :=
                  if (0 <? length (allData st))%nat then Some st else None in
                match close with
                | Throw _ => failed data' logged
                | Ok _ =>
                    {| exitCode := 0; dataDir := data'; summary := logged |}
                end
            end
        end
  end.

End worker_script.

(** ** The stamp in the name of an output file *)

(** A [Date] in UTC, years 0 to 9999. *)
Record date : Type := {
  year : Z;
  month : Z;
  day : Z;
  hours : Z;
  minutes : Z;
  seconds : Z;
  milliseconds : Z
}.

Definition digits (width : nat) (n : Z) : string :=
  JS.padStart width "0" (JS.toString n).

(** [Date.prototype.toISOString]. *)
Definition toISOString (d : date) : string :=
  digits 4 (year d) +:+ "-" +:+ digits 2 (month d) +:+ "-" +:+
  digits 2 (day d) +:+ "T" +:+ digits 2 (hours d) +:+ ":" +:+
  digits 2 (minutes d) +:+ ":" +:+ digits 2 (seconds d) +:+ "." +:+
  digits 3 (milliseconds d) +:+ "Z".

(** [s.replace(/[:.]/g, "-")]. *)
Fixpoint replaceColonDot (s : string) : string :=
  match s with
  | EmptyString => EmptyString
  | String c s' =>
      String (if Ascii.eqb c ":" || Ascii.eqb c "." then "-"%char else c)
             (replaceColonDot s')
  end.

(** [new Date().toISOString().replace(/[:.]/g, "-")] at instant [d]. *)
Definition fileStamp (d : date) : string := replaceColonDot (toISOString d).

(** ** consolidate_data.js *)

Module consolidate_data.

(** A parsed CSV record: its columns, and the two properties [main] adds. *)
Record record : Type := {
  columns : gmap string string;
  _source_file : option string;
  _source_timestamp : option string
}.

(** The pattern of [extractTimestamp]:
    [\d{4}-\d{2}-\d{2}T\d{2}-\d{2}-\d{2}]. *)
Inductive atom : Type :=
| Digit
| Lit (c : ascii).

Definition timestampPattern : list atom :=
  [Digit; Digit; Digit; Digit; Lit "-"; Digit; Digit; Lit "-"; Digit; Digit;
   Lit "T"; Digit; Digit; Lit "-"; Digit; Digit; Lit "-"; Digit; Digit].

Definition accepts (a : atom) (c : ascii) : bool :=
  match a with
  | Digit => JS.isDigit c
  | Lit l => Ascii.eqb c l
  end.

(** The text matched by [pat] at the start of [s]. *)
Fixpoint matchHere (pat : list atom) (s : string) : option string :=
  match pat with
  | [] => Some EmptyString
  | a :: pat' =>
      match s with
      | EmptyString => None
      | String c s' =>
          if accepts a c then String c <$> matchHere pat' s' else None
      end
  end.

(** [s.match(pat)]: the leftmost match. *)
Fixpoint firstMatch (pat : list atom) (s : string) : option string :=
  match matchHere pat s with
  | Some m => Some m
  | None =>
      match s with
      | EmptyString => None
      | String _ s' => firstMatch pat s'
      end
  end.

Definition extractTimestamp (filename : string) : option string :=
  firstMatch timestampPattern filename.

(** [record.UniqueID || `${record.Rank}-${record.Domain}`]. *)
Definition keyOf (r : record) : string :=
  JS.orElse (columns r !! "UniqueID")
    (JS.template (columns r !! "Rank") +:+ "-" +:+
     JS.template (columns r !! "Domain")).

(** The [Map] of [deduplicateData]: keys in insertion order; setting a key
    that is present keeps its place. *)
Fixpoint mapGet (k : string) (m : list (string * record)) : option record :=
  match m with
  | [] => None
  | (k', v) :: m' => if String.eqb k' k then Some v else mapGet k m'
  end.

Fixpoint mapSet (k : string) (v : record) (m : list (string * record))
  : list (string * record) :=
  match m with
  | [] => [(k, v)]
  | (k', v') :: m' =>
      if String.eqb k' k then (k, v) :: m' else (k', v') :: mapSet k v m'
  end.

Definition stamped (o : option string) : bool :=
  match o with
  | Some t => JS.truthy t
  | None => false
  end.

(** [a > b] on two stamps; it is only evaluated when both are strings. *)
Definition newer (a b : option string) : bool :=
  match a, b with
  | Some x, Some y => JS.gt x y
  | _, _ => false
  end.

(** The condition under which [deduplicateData] stores [r]. *)
Definition replaces (r : record) (present : option record) : bool :=
  match present with
  | None => true
  | Some old =>
      stamped (_source_timestamp r) &&
      (negb (stamped (_source_timestamp old)) ||
       newer (_source_timestamp r) (_source_timestamp old))
  end.

Definition dedupStep (uniqueMap : list (string * record)) (r : record)
  : list (string * record) :=
  let uniqueId := keyOf r in
  if replaces r (mapGet uniqueId uniqueMap) then mapSet uniqueId r uniqueMap
  else uniqueMap.

Definition deduplicateData (data : list record) : list record :=
  (fold_left dedupStep data []).*2.

(** The records of one file, with the properties [main] adds. *)
Definition readFile (file : string) (rows : list (gmap string string))
  : list record :=
  (fun cols => {| columns := cols;
                  _source_file := Some file;
                  _source_timestamp := extractTimestamp file |}) <$> rows.

(** [saveToCSV], as the rows of the file it writes.  A CSV file is the
    list of its rows, each a map from the name of a column to a value; the
    order of the columns is not modelled.  The header is made of the
    column names of all the records that do not start with [_]; every
    record is written under every column of the header, a column it lacks
    as the empty string.  (The names are taken not to be names of
    properties that every object inherits.) *)
Definition allHeaders (data : list record) : gset string :=
  ⋃ ((fun r =>
        filter (fun key => JS.startsWith key "_" = false) (dom (columns r)))
       <$> data).

Definition writeRecord (header : gset string) (r : record)
  : gmap string string :=
  set_to_map (fun id => (id, default EmptyString (columns r !! id))) header.

Definition saveToCSV (data : list record) : list (gmap string string) :=
  writeRecord (allHeaders data) <$> data.

(** [main], on the listing of the [data] directory (file names with the
    rows of each file, in the order [readdir] gives them).  [None]: no
    file is written; [Some rows]: the rows of [master_data.csv].  The two
    properties [main] adds are deleted before the records are saved; here
    they are not among the columns. *)
Definition main (listing : list (string * list (gmap string string)))
  : option (list (gmap string string)) :=
  let files := filter (fun f => JS.endsWith f.1 ".csv" = true) listing in
  if (length files =? 0)%nat then None
  else
    let allData := flat_map (fun f => readFile f.1 f.2) files in
    Some (saveToCSV (deduplicateData allData)).

End consolidate_data.

(** ** The first worker script (the second document of url_generator.js) *)

Module first_worker.

Record Row : Type := {
  rank : string;
  domain : string;
  domainUrl : string;
  ipAddress : string;
  ipAddressUrl : string;
  location : string;
  owner : string;
  ownerUrl : string;
  lastUpdate : string;
  uniqueId : string
}.

(** The body of [dataRows.map(row => ...)]. *)
Definition extractRow (row : node) : Row :=
  let cells := querySelectorAll (hasTag "td") row in
  let text (i : nat) :=
    JS.orElse (worker_script.trimmedText (cells !! i)) EmptyString in
  let link (i : nat) := cells !! i ≫= querySelector (hasTag "a") in
  {| rank := text 0%nat;
     domain := JS.orElse (worker_script.trimmedText (link 1%nat)) EmptyString;
     domainUrl := JS.orElse (href <$> link 1%nat) EmptyString;
     ipAddress := text 2%nat;
     ipAddressUrl := JS.orElse (href <$> link 2%nat) EmptyString;
     location := text 3%nat;
     owner := text 4%nat;
     ownerUrl := JS.orElse (href <$> link 4%nat) EmptyString;
     lastUpdate := text 5%nat;
     uniqueId :=
       text 0%nat +:+ "-" +:+
       JS.orElse (worker_script.trimmedText (link 1%nat)) EmptyString |}.

(** The function [scrapePage] evaluates in the page. *)
Definition extractTable (document : node) : list Row :=
  match querySelector (hasId "sites_tbl") document with
  | None => []
  | Some table => extractRow <$> drop 1 (querySelectorAll (hasTag "tr") table)
  end.

(** [scrapePage], on the outcomes of the driver calls it awaits: [goto],
    [title], [waitForSelector] and the evaluation in the page. *)
Definition scrapePage (v : worker_script.pageVisit)
  : result (option (list Row)) :=
  try_catch
    (worker_script.goto v ;;
     pageTitle ← worker_script.title v;
     if JS.includes pageTitle "Verification" || JS.includes pageTitle "CAPTCHA"
     then Ok None
     else
       worker_script.waitForSelector v ;;
       doc ← worker_script.document v;
       Ok (Some (extractTable doc)))
    (fun _ => Ok None).

Record runState : Type := {
  allData : list Row;
  successCount : nat;
  failCount : nat
}.

Definition initialState : runState :=
  {| allData := []; successCount := 0; failCount := 0 |}.

(** One turn of the loop body after [scrapePage] returned [data]:
    [if (data) ... else failCount++]; an array is truthy, also when it is
    empty. *)
Definition count (data : option (list Row)) (st : runState) : runState :=
  match data with
  | Some rows =>
      {| allData := allData st ++ rows;
         successCount := S (successCount st);
         failCount := failCount st |}
  | None =>
      {| allData := allData st;
         successCount := successCount st;
         failCount := S (failCount st) |}
  end.

Fixpoint scrapeAll (visit : nat -> string -> worker_script.pageVisit)
    (i : nat) (urls : list string) (st : runState) : result runState :=
  match urls with
  | [] => Ok st
  | url :: rest =>
      data ← scrapePage (visit i url);
      scrapeAll visit (S i) rest (count data st)
  end.

(** The header of [saveToCSV]: the columns of a persisted row. *)
Definition toRecord (r : Row) : gmap string string :=
  list_to_map
    [("Rank", rank r); ("Domain", domain r); ("Domain URL", domainUrl r);
     ("IP Address", ipAddress r); ("IP Address URL", ipAddressUrl r);
     ("Location", location r); ("Owner", owner r); ("Owner URL", ownerUrl r);
     ("Last Update", lastUpdate r); ("UniqueID", uniqueId r)].

End first_worker.

(** ** local_scraper.js *)

Module local_scraper.

Definition BASE_URL : string :=
  "https://myip.ms/browse/sites/2/rankii/15000000/ipID/23.227.38.0/ipIDii/23.227.38.255".

(** [BASE_URL.replace('/sites/2/', `/sites/${pageNum}/`)]. *)
Definition pageUrl (pageNum : Z) : string :=
  JS.replaceFirst "/sites/2/" ("/sites/" +:+ JS.toString pageNum +:+ "/")
    BASE_URL.

End local_scraper.

(** ** Definitions used to state the properties *)

(** The chunks of a list, by repeated [take] and [drop]: what the
    specification calls the partition of [l] into units of [q]. *)
Fixpoint chunksOf {A} (fuel q : nat) (l : list A) : list (list A) :=
  match fuel with
  | O => []
  | S fuel' =>
      match l with
      | [] => []
      | _ :: _ => take q l :: chunksOf fuel' q (drop q l)
      end
  end.

(** White space only, some white space, no white space at either end. *)
Fixpoint allSpace (s : string) : bool :=
  match s with
  | EmptyString => true
  | String c s' => JS.isSpace c && allSpace s'
  end.

Fixpoint hasSpace (s : string) : bool :=
  match s with
  | EmptyString => false
  | String c s' => JS.isSpace c || hasSpace s'
  end.

Definition startsClean (s : string) : bool :=
  match s with
  | EmptyString => true
  | String c _ => negb (JS.isSpace c)
  end.

Fixpoint endsClean (s : string) : bool :=
  match s with
  | EmptyString => true
  | String c s' =>
      match s' with
      | EmptyString => negb (JS.isSpace c)
      | String _ _ => endsClean s'
      end
  end.

Fixpoint hasChar (c : ascii) (s : string) : bool :=
  match s with
  | EmptyString => false
  | String c' s' => Ascii.eqb c' c || hasChar c s'
  end.

(** A line of a chunk file that [loadUrlsFromChunk] reads back as it was
    written: no line feed in it, and not blank. *)
Definition isLine (url : string) : Prop :=
  hasChar "010" url = false ∧ JS.trim url ≠ EmptyString.

(** The number a string of decimal digits stands for. *)
Definition numberOf (s : string) : option Z :=
  Z.of_uint <$> NilEmpty.uint_of_string s.

(** The words of a string: its maximal runs of characters that are not
    white space. *)
Fixpoint wordsOf (s : string) : list string :=
  match s with
  | EmptyString => []
  | String c s' =>
      if JS.isSpace c then wordsOf s'
      else
        match s' with
        | EmptyString => [String c EmptyString]
        | String c' _ =>
            if JS.isSpace c' then String c EmptyString :: wordsOf s'
            else match wordsOf s' with
                 | w :: ws => String c w :: ws
                 | [] => [String c EmptyString]
                 end
        end
  end.

(** The identity of a row in the words of the specification: the words
    of [rank-domain], every run of white space between two words written
    as one hyphen. *)
Definition hyphenated (s : string) : string := JS.join "-" (wordsOf s).

(** What [scrapePage] hands to the loop of [main]. *)
Definition fetched (v : worker_script.pageVisit)
  : option (list worker_script.Row) :=
  match worker_script.scrapePage v with
  | Ok data => data
  | Throw _ => None
  end.

(** A fetch that brought rows back. *)
Definition broughtRows (data : option (list worker_script.Row)) : bool :=
  match data with
  | Some (_ :: _) => true
  | _ => false
  end.

(** What the fetches of a chunk return, in the order of the URLs, and the
    URLs whose fetch brought nothing. *)
Fixpoint outcomes (visit : nat → string → worker_script.pageVisit) (i : nat)
    (urls : list string) : list (option (list worker_script.Row)) :=
  match urls with
  | [] => []
  | url :: rest => fetched (visit i url) :: outcomes visit (S i) rest
  end.

Fixpoint failedUrls (visit : nat → string → worker_script.pageVisit)
    (i : nat) (urls : list string) : list string :=
  match urls with
  | [] => []
  | url :: rest =>
      if broughtRows (fetched (visit i url))
      then failedUrls visit (S i) rest
      else url :: failedUrls visit (S i) rest
  end.

(** The counters after the fetches returned [os], in this order. *)
Definition tally (st : worker_script.runState)
    (os : list (option (list worker_script.Row))) : worker_script.runState :=
  foldl (λ st data, worker_script.count data st) st os.

(** Some call of the page driver throws during the visit. *)
Definition throws {A} (r : result A) : bool :=
  match r with
  | Ok _ => false
  | Throw _ => true
  end.

Definition driverThrows (v : worker_script.pageVisit) : bool :=
  throws (worker_script.goto v) || throws (worker_script.mouseMove v) ||
  throws (worker_script.scrollTo v) || throws (worker_script.title v) ||
  throws (worker_script.pageUrl v) ||
  throws (worker_script.waitForSelector v) ||
  throws (worker_script.document v).

(** The key of a record, from its columns alone. *)
Definition columnsKey (cols : gmap string string) : string :=
  consolidate_data.keyOf
    {| consolidate_data.columns := cols;
       consolidate_data._source_file := None;
       consolidate_data._source_timestamp := None |}.

(** The first row of a file that has the key [k]. *)
Definition firstWith (k : string) (rows : list (gmap string string))
  : option (gmap string string) :=
  head (filter (λ cols, columnsKey cols = k) rows).

(** What the [Map] of [deduplicateData] holds for the key [k] after one
    more record. *)
Definition pick (k : string) (present : option consolidate_data.record)
    (r : consolidate_data.record) : option consolidate_data.record :=
  if decide (consolidate_data.keyOf r = k)
  then if consolidate_data.replaces r present then Some r else present
  else present.

(** The [Map] holds each key once, and under each key a record that has
    this key. *)
Definition keyed (m : list (string * consolidate_data.record)) : Prop :=
  NoDup m.*1 ∧ Forall (λ kv, consolidate_data.keyOf kv.2 = kv.1) m.

(** The instant of a date, as a number that grows with time. *)
Definition instant (d : date) : Z :=
  ((((((year d * 12 + month d) * 31 + day d) * 24 + hours d) * 60
      + minutes d) * 60 + seconds d) * 1000 + milliseconds d).

Definition earlier (d1 d2 : date) : Prop := instant d1 < instant d2.

(** The text [t] has the shape of the pattern: as many characters as the
    pattern has atoms, each accepted by its atom. *)
Definition shapedLike (pat : list consolidate_data.atom) (t : string) : Prop :=
  Forall2 (λ a c, consolidate_data.accepts a c = true)
          pat (list_ascii_of_string t).

Fixpoint allDigits (s : string) : bool :=
  match s with
  | EmptyString => true
  | String c s' => JS.isDigit c && allDigits s'
  end.

(** The dates [toISOString] prints with a four-digit year. *)
Definition inRange (d : date) : Prop :=
  0 ≤ year d < 10000 ∧ 1 ≤ month d ≤ 12 ∧ 1 ≤ day d ≤ 31 ∧
  0 ≤ hours d < 24 ∧ 0 ≤ minutes d < 60 ∧ 0 ≤ seconds d < 60 ∧
  0 ≤ milliseconds d < 1000.

(** The stamp of a date down to the second, as it stands in a file name. *)
Definition secondStamp (d : date) : string :=
  digits 4 (year d) +:+ "-" +:+ digits 2 (month d) +:+ "-" +:+
  digits 2 (day d) +:+ "T" +:+ digits 2 (hours d) +:+ "-" +:+
  digits 2 (minutes d) +:+ "-" +:+ digits 2 (seconds d).

(** What the fetches of the first worker return, in the order of the
    URLs. *)
Fixpoint firstOutcomes (visit : nat → string → worker_script.pageVisit)
    (i : nat) (urls : list string) : list (option (list first_worker.Row)) :=
  match urls with
  | [] => []
  | url :: rest =>
      match first_worker.scrapePage (visit i url) with
      | Ok data => data
      | Throw _ => None
      end :: firstOutcomes visit (S i) rest
  end.

(** ** Sample pages and directories *)

Definition cell (text : string) : node :=
  Element "td" EmptyString EmptyString [Text text].

Definition linkCell (text target : string) : node :=
  Element "td" EmptyString EmptyString
    [Element "a" EmptyString target [Text text]].

Definition tableRow (cells : list node) : node :=
  Element "tr" EmptyString EmptyString cells.

Definition headerRow : node :=
  tableRow [Element "th" EmptyString EmptyString [Text "Rank"];
            Element "th" EmptyString EmptyString [Text "Site"]].

Definition page (rows : list node) : node :=
  Element "html" EmptyString EmptyString
    [Element "body" EmptyString EmptyString
       [Element "table" "sites_tbl" EmptyString (headerRow :: rows)]].

(** A visit on which every driver call succeeds and the document is
    [doc]. *)
Definition visitOf (pageTitle address : string) (doc : node)
  : worker_script.pageVisit :=
  {| worker_script.goto := Ok ();
     worker_script.mouseMove := Ok ();
     worker_script.scrollTo := Ok ();
     worker_script.title := Ok pageTitle;
     worker_script.pageUrl := Ok address;
     worker_script.waitForSelector := Ok ();
     worker_script.document := Ok doc;
     worker_script.locationHref := address;
     worker_script.clock := λ _, "2024-01-01T00:00:00.000Z" |}.

Definition exampleRow : node :=
  tableRow [cell "12"; linkCell "example.com" "https://example.com/";
            linkCell "23.227.38.1" "https://myip.ms/info/1"; cell "Canada";
            linkCell "Shopify, Inc" "https://myip.ms/owner/1";
            cell "02 Jan 2024"].

Definition ipOnlyRow : node :=
  tableRow [cell "13"; cell "  "; cell "23.227.38.2"].

Definition blankRow : node := tableRow [cell "14"; cell " "; cell EmptyString].

Definition challengeVisit : worker_script.pageVisit :=
  visitOf "Security Check" "https://myip.ms/verify" (page []).

Definition emptyTableVisit : worker_script.pageVisit :=
  visitOf "Sites" "https://myip.ms/browse/sites/1" (page []).

Definition goodVisit : worker_script.pageVisit :=
  visitOf "Sites" "https://myip.ms/browse/sites/1"
    (page [exampleRow; ipOnlyRow; blankRow]).

Definition sampleChunks : directory :=
  {[ "chunk_0001.txt" :=
       "https://myip.ms/browse/sites/1" +:+ String "010" EmptyString +:+
       "https://myip.ms/browse/sites/2" ]}.

(** A row of the domain [foo.com] at rank 5, and what is persisted for
    it. *)
Definition exampleData (ownerName : string) : worker_script.Row :=
  {| worker_script.rank := "5";
     worker_script.domain := "foo.com";
     worker_script.domainUrl := "https://foo.com/";
     worker_script.ipAddress := "23.227.38.5";
     worker_script.ipAddressUrl := "https://myip.ms/info/5";
     worker_script.location := "Canada";
     worker_script.owner := ownerName;
     worker_script.ownerUrl := "https://myip.ms/owner/5";
     worker_script.lastUpdate := "02 Jan 2024";
     worker_script.sourceUrl := "https://myip.ms/browse/sites/1";
     worker_script.scrapedAt := "2024-01-01T00:00:00.000Z";
     worker_script.uniqueId := "5-foo.com" |}.

Definition fooRow (ownerName : string) : gmap string string :=
  worker_script.toRecord (exampleData ownerName).

(** Three runs of chunk 1: two in the same second, one a second later. *)
Definition earlyRun : date :=
  {| year := 2024; month := 1; day := 1; hours := 0; minutes := 0;
     seconds := 0; milliseconds := 100 |}.

Definition lateRun : date :=
  {| year := 2024; month := 1; day := 1; hours := 0; minutes := 0;
     seconds := 0; milliseconds := 900 |}.

Definition nextSecondRun : date :=
  {| year := 2024; month := 1; day := 1; hours := 0; minutes := 0;
     seconds := 1; milliseconds := 0 |}.

Definition outputOf (run : date) : string :=
  worker_script.outputFileName "0001" (fileStamp run).

Definition spacedRow : node :=
  tableRow [cell "5"; cell "foo  bar.com"; cell "23.227.38.5"].

(** * Properties *)

(** ** Facts about the string primitives *)

Section Strings.

Lemma length_append (a b : string) :
  String.length (a +:+ b) = (String.length a + String.length b)%nat.
Proof. induction a as [|c a IH]; simpl; [done|]. by rewrite IH. Qed.

Lemma length_fillTo (n : nat) (c : ascii) (fill rest : string) :
  String.length (JS.fillTo n (String c fill) rest) = n.
Proof.
  revert rest. induction n as [|n IH]; intros rest; [done|].
  destruct rest; simpl; by rewrite IH.
Qed.

Lemma length_padStart (target : nat) (c : ascii) (fill s : string) :
  String.length (JS.padStart target (String c fill) s)
  = (target `max` String.length s)%nat.
Proof.
  unfold JS.padStart.
  destruct (Nat.leb_spec target (String.length s)); [lia|].
  rewrite length_append, length_fillTo. lia.
Qed.

Lemma allSpace_append (a b : string) :
  allSpace (a +:+ b) = allSpace a && allSpace b.
Proof.
  induction a as [|c a IH]; simpl; [done|].
  by rewrite IH, andb_assoc.
Qed.

Lemma hasSpace_append (a b : string) :
  hasSpace (a +:+ b) = hasSpace a || hasSpace b.
Proof.
  induction a as [|c a IH]; simpl; [done|].
  by rewrite IH, orb_assoc.
Qed.

Lemma trimStart_empty (s : string) :
  JS.trimStart s = EmptyString ↔ allSpace s = true.
Proof.
  induction s as [|c s IH]; simpl; [done|].
  destruct (JS.isSpace c); simpl; [done|]. split; discriminate.
Qed.

Lemma startsClean_trimStart (s : string) :
  startsClean (JS.trimStart s) = true.
Proof.
  induction s as [|c s IH]; simpl; [done|].
  destruct (JS.isSpace c) eqn:Hc; [done|]. simpl. by rewrite Hc.
Qed.

Lemma trimEnd_empty (s : string) :
  startsClean s = true → JS.trimEnd s = EmptyString → s = EmptyString.
Proof.
  destruct s as [|c s]; [done|]. simpl.
  destruct (JS.isSpace c); [done|]. discriminate.
Qed.

Lemma startsClean_trimEnd (s : string) :
  startsClean s = true → startsClean (JS.trimEnd s) = true.
Proof.
  destruct s as [|c s]; [done|]. simpl.
  destruct (JS.isSpace c) eqn:Hc; [done|]. intros _. simpl. by rewrite Hc.
Qed.

Lemma endsClean_trimEnd (s : string) : endsClean (JS.trimEnd s) = true.
Proof.
  induction s as [|c s IH]; [done|].
  cbn [JS.trimEnd].
  destruct (JS.trimEnd s) as [|c' t] eqn:Ht; simpl.
  - destruct (JS.isSpace c) eqn:Hc; simpl; [done|]. by rewrite Hc.
  - rewrite andb_false_r. exact IH.
Qed.

(** [trim] gives the empty string exactly on white space, and otherwise
    a string with no white space at either end. *)
Lemma trim_empty (s : string) :
  JS.trim s = EmptyString ↔ allSpace s = true.
Proof.
  unfold JS.trim. rewrite <- trimStart_empty. split.
  - apply trimEnd_empty, startsClean_trimStart.
  - by intros ->.
Qed.

Lemma startsClean_trim (s : string) : startsClean (JS.trim s) = true.
Proof. apply startsClean_trimEnd, startsClean_trimStart. Qed.

Lemma endsClean_trim (s : string) : endsClean (JS.trim s) = true.
Proof. apply endsClean_trimEnd. Qed.

Lemma truthy_false (s : string) : JS.truthy s = false ↔ s = EmptyString.
Proof. by destruct s. Qed.

Lemma truthy_true (s : string) : JS.truthy s = true ↔ s ≠ EmptyString.
Proof. by destruct s. Qed.

Lemma startsClean_append (a b : string) :
  a ≠ EmptyString → startsClean (a +:+ b) = startsClean a.
Proof. by destruct a. Qed.

Lemma endsClean_append (a b : string) :
  b ≠ EmptyString → endsClean (a +:+ b) = endsClean b.
Proof.
  intros Hb. induction a as [|c a IH]; [done|].
  change (String c a +:+ b) with (String c (a +:+ b)).
  cbn [endsClean]. destruct (a +:+ b) eqn:Hab; [|done].
  destruct a; [by subst|done].
Qed.

(** The replacement leaves no white space. *)
Lemma hasSpace_replaceSpaceRuns_from (inRun : bool) (s : string) :
  hasSpace (JS.replaceSpaceRuns_from inRun s) = false.
Proof.
  revert inRun. induction s as [|c s IH]; intros inRun; [done|].
  cbn [JS.replaceSpaceRuns_from].
  destruct (JS.isSpace c) eqn:Hc.
  - destruct inRun; [apply IH|]. simpl. apply IH.
  - simpl. by rewrite Hc, IH.
Qed.

(** Without white space there is nothing to replace. *)
Lemma replaceSpaceRuns_from_clean (inRun : bool) (s : string) :
  hasSpace s = false → JS.replaceSpaceRuns_from inRun s = s.
Proof.
  revert inRun. induction s as [|c s IH]; intros inRun; [done|].
  simpl. destruct (JS.isSpace c); [done|]. simpl.
  intros Hs. by rewrite IH.
Qed.

Lemma wordsOf_nonempty (s : string) :
  s ≠ EmptyString → endsClean s = true → wordsOf s ≠ [].
Proof.
  induction s as [|c s IH]; [done|]. intros _.
  cbn [endsClean wordsOf].
  destruct s as [|c' s'].
  - intros Hc. apply negb_true_iff in Hc. by rewrite Hc.
  - intros Hends. destruct (JS.isSpace c); [by apply IH|].
    destruct (JS.isSpace c'); [done|].
    by destruct (wordsOf (String c' s')).
Qed.

Lemma wordsOf_starts (c : ascii) (s : string) :
  JS.isSpace c = false → wordsOf (String c s) ≠ [].
Proof.
  intros Hc. cbn [wordsOf]. rewrite Hc.
  destruct s as [|c' s']; [done|].
  destruct (JS.isSpace c'); [done|].
  generalize (wordsOf (String c' s')). by intros [|w ws].
Qed.

Lemma join_cons_char (c : ascii) (w : string) (ws : list string) :
  JS.join "-" (String c w :: ws) = String c (JS.join "-" (w :: ws)).
Proof. by destruct ws. Qed.

(** After white space, the replacement writes the words with one hyphen
    between two of them. *)
Lemma replaceSpaceRuns_from_words (s : string) :
  endsClean s = true →
  JS.replaceSpaceRuns_from true s = hyphenated s.
Proof.
  unfold hyphenated.
  induction s as [|c s IH]; [done|]. intros Hends.
  cbn [JS.replaceSpaceRuns_from wordsOf].
  destruct (JS.isSpace c) eqn:Hc.
  - apply IH. destruct s; [|done]. simpl in Hends. by rewrite Hc in Hends.
  - destruct s as [|c' s']; [done|].
    assert (Hends' : endsClean (String c' s') = true) by done.
    specialize (IH Hends').
    cbn [JS.replaceSpaceRuns_from] in IH |- *.
    destruct (JS.isSpace c') eqn:Hc'.
    + rewrite IH.
      pose proof (wordsOf_nonempty (String c' s') ltac:(done) Hends').
      by destruct (wordsOf (String c' s')).
    + rewrite IH.
      pose proof (wordsOf_starts c' s' Hc') as Hne.
      destruct (wordsOf (String c' s')) as [|w ws]; [done|].
      by rewrite join_cons_char.
Qed.

(** The replacement on a string with no white space at either end is the
    hyphenation of its words. *)
Lemma replaceSpaceRuns_hyphenated (s : string) :
  startsClean s = true → endsClean s = true →
  JS.replaceSpaceRuns s = hyphenated s.
Proof.
  intros Hstart Hends. rewrite <- replaceSpaceRuns_from_words by done.
  unfold JS.replaceSpaceRuns. destruct s as [|c s]; [done|].
  simpl in Hstart. apply negb_true_iff in Hstart.
  cbn [JS.replaceSpaceRuns_from]. by rewrite Hstart.
Qed.

(** *** Numbers and padding *)

Lemma numberOf_toString (n : Z) : 0 ≤ n → numberOf (JS.toString n) = Some n.
Proof.
  intros Hn. unfold numberOf, JS.toString.
  pose proof (DecimalZ.of_to n) as Hback.
  destruct n as [|p|p]; [done| |lia].
  simpl in *. unfold NilZero.string_of_uint.
  remember (Pos.to_uint p) as d eqn:Hd. clear Hd.
  assert (Hdigits : match d with
                    | Decimal.Nil => "0"
                    | _ => NilEmpty.string_of_uint d
                    end = NilEmpty.string_of_uint d).
  { destruct d; [discriminate Hback|done..]. }
  rewrite Hdigits, NilEmpty.usu. simpl. by rewrite Hback.
Qed.

Lemma numberOf_zero (s : string) :
  numberOf (String "0" s) = numberOf s.
Proof.
  unfold numberOf. simpl.
  by destruct (NilEmpty.uint_of_string s).
Qed.

Lemma fillTo_zeros (n : nat) (rest s : string) :
  rest = EmptyString ∨ rest = "0" →
  numberOf (JS.fillTo n "0" rest +:+ s) = numberOf s.
Proof.
  revert rest. induction n as [|n IH]; intros rest Hrest; [done|].
  destruct Hrest as [-> | ->]; cbn [JS.fillTo];
    change (String "0" ?a +:+ s) with (String "0" (a +:+ s));
    rewrite numberOf_zero; apply IH; by left.
Qed.

(** Padding with zeros does not change the number. *)
Lemma numberOf_padStart (target : nat) (n : Z) :
  0 ≤ n → numberOf (JS.padStart target "0" (JS.toString n)) = Some n.
Proof.
  intros Hn. unfold JS.padStart.
  destruct (target <=? _)%nat; [by apply numberOf_toString|].
  rewrite fillTo_zeros by (by right). by apply numberOf_toString.
Qed.

Lemma append_inj_r (a b s : string) : a +:+ s = b +:+ s → a = b.
Proof.
  revert b. induction a as [|c a IH]; intros [|c' b] Heq; [done| | |].
  - apply (f_equal String.length) in Heq.
    rewrite !length_append in Heq. simpl in Heq. lia.
  - apply (f_equal String.length) in Heq.
    rewrite !length_append in Heq. simpl in Heq. lia.
  - change (String c (a +:+ s) = String c' (b +:+ s)) in Heq.
    injection Heq as -> Heq. f_equal. by apply IH.
Qed.

Lemma rev_app_append (a b acc : string) :
  String.rev_app (a +:+ b) acc = String.rev_app b (String.rev_app a acc).
Proof.
  revert acc. induction a as [|c a IH]; intros acc; [done|]. apply IH.
Qed.

Lemma rev_app_acc (a acc : string) :
  String.rev_app a acc = String.rev_app a EmptyString +:+ acc.
Proof.
  revert acc. induction a as [|c a IH]; intros acc; [done|].
  simpl. rewrite IH, (IH (String c EmptyString)).
  clear IH. induction (String.rev_app a EmptyString) as [|c' t IHt]; [done|].
  change (String c' t +:+ ?x) with (String c' (t +:+ x)).
  by rewrite IHt.
Qed.

Lemma prefix_append (a b : string) : String.prefix a (a +:+ b) = true.
Proof.
  induction a as [|c a IH]; [by destruct b|].
  change (String c a +:+ b) with (String c (a +:+ b)). simpl.
  by destruct (ascii_dec c c).
Qed.

Lemma endsWith_append (a suffix : string) :
  JS.endsWith (a +:+ suffix) suffix = true.
Proof.
  unfold JS.endsWith, String.rev.
  rewrite rev_app_append, (rev_app_acc suffix (String.rev_app a _)).
  apply prefix_append.
Qed.

(** *** Lines *)

Lemma hasChar_append (c : ascii) (a b : string) :
  hasChar c (a +:+ b) = hasChar c a || hasChar c b.
Proof.
  induction a as [|c' a IH]; [done|].
  change (String c' a +:+ b) with (String c' (a +:+ b)).
  simpl. by rewrite IH, orb_assoc.
Qed.

Lemma split_line (sep : ascii) (s : string) :
  hasChar sep s = false → JS.split sep s = [s].
Proof.
  induction s as [|c s IH]; [done|]. simpl.
  intros [Hc Hs]%orb_false_iff. by rewrite Hc, IH.
Qed.

Lemma split_append (sep : ascii) (a rest : string) :
  hasChar sep a = false →
  JS.split sep (a +:+ String sep rest) = a :: JS.split sep rest.
Proof.
  induction a as [|c a IH]; simpl.
  - intros _. change (EmptyString +:+ ?x) with x. simpl.
    by rewrite Ascii.eqb_refl.
  - intros [Hc Ha]%orb_false_iff.
    change (String c a +:+ ?x) with (String c (a +:+ x)). simpl.
    by rewrite Hc, IH.
Qed.

(** Lines joined with line feeds are split back into the same lines. *)
Lemma split_join (lines : list string) :
  lines ≠ [] → Forall (λ url, hasChar "010" url = false) lines →
  JS.split "010" (JS.join (String "010" EmptyString) lines) = lines.
Proof.
  intros Hne Hlines.
  induction Hlines as [|url lines Hurl Hlines IH]; [done|].
  destruct lines as [|url' lines]; [by apply split_line|].
  change (JS.join (String "010" "") (url :: url' :: lines))
    with (url +:+ String "010" "" +:+
          JS.join (String "010" "") (url' :: lines)).
  change (String "010" "" +:+ ?x) with (String "010" x).
  rewrite split_append by done. f_equal. by apply IH.
Qed.

End Strings.

(** ** The Partitioner *)

Section Partitioner.

Import url_generator.

(** The loop of [generateUrlList] ends after [totalPages + 1 - page]
    turns; more fuel changes nothing. *)
Lemma generateUrlList_loop_spec (fuel : nat) (totalPages page : Z)
    (urls : list string) :
  (Z.to_nat (totalPages + 1 - page) ≤ fuel)%nat →
  generateUrlList_loop fuel totalPages page urls
  = urls ++ (pageUrl <$> seqZ page (totalPages + 1 - page)).
Proof.
  revert page urls.
  induction fuel as [|fuel IH]; intros page urls Hfuel;
    cbn [generateUrlList_loop].
  - by rewrite seqZ_nil, app_nil_r by lia.
  - destruct (Z.leb_spec page totalPages) as [Hpage|Hpage].
    + rewrite IH by lia.
      rewrite (seqZ_cons page) by lia.
      rewrite <- app_assoc, fmap_cons. simpl.
      replace (Z.succ page) with (page + 1) by lia.
      by replace (Z.pred (totalPages + 1 - page))
        with (totalPages + 1 - (page + 1)) by lia.
    + by rewrite seqZ_nil, app_nil_r by lia.
Qed.

(** The URL list is the list of the page URLs 1, 2, ..., [totalPages]. *)
Lemma generateUrlList_spec (totalPages : Z) :
  generateUrlList totalPages = pageUrl <$> seqZ 1 totalPages.
Proof.
  unfold generateUrlList.
  rewrite generateUrlList_loop_spec by lia.
  simpl. f_equal. f_equal. lia.
Qed.

Lemma length_generateUrlList (totalPages : Z) :
  length (generateUrlList totalPages) = Z.to_nat totalPages.
Proof. by rewrite generateUrlList_spec, length_fmap, length_seqZ. Qed.

(** [slice] inside the bounds of the list. *)
Lemma slice_take_drop {A} (l : list A) (i q : nat) :
  (i ≤ length l)%nat →
  JS.slice l (Z.of_nat i) (Z.of_nat i + Z.of_nat q) = take q (drop i l).
Proof.
  intros Hi. unfold JS.slice.
  destruct (Z.ltb_spec (Z.of_nat i) 0); [lia|].
  destruct (Z.ltb_spec (Z.of_nat i + Z.of_nat q) 0); [lia|].
  rewrite (Z.min_l (Z.of_nat i)) by lia. rewrite Nat2Z.id.
  destruct (Z.le_gt_cases (Z.of_nat i + Z.of_nat q) (Z.of_nat (length l))).
  - rewrite Z.min_l by lia. f_equal. lia.
  - rewrite Z.min_r by lia.
    rewrite !take_ge; [done|rewrite length_drop; lia..].
Qed.

Lemma chunksOf_fuel {A} (fuel fuel' q : nat) (l : list A) :
  (1 ≤ q)%nat → (length l ≤ fuel)%nat → (length l ≤ fuel')%nat →
  chunksOf fuel q l = chunksOf fuel' q l.
Proof.
  intros Hq. revert fuel' l.
  induction fuel as [|fuel IH]; intros fuel' l Hl Hl'.
  - destruct l; [|simpl in Hl; lia]. by destruct fuel'.
  - destruct l as [|x l]; [by destruct fuel'|].
    destruct fuel' as [|fuel']; [simpl in Hl'; lia|].
    simpl. f_equal. destruct q as [|q]; [lia|]. simpl.
    apply IH; rewrite length_drop; simpl in *; lia.
Qed.

(** The loop of [chunkUrls] with a positive chunk size ends, and appends
    the chunks of the rest of the list. *)
Lemma chunkUrls_loop_spec (fuel : nat) (urls : list string) (q i : nat)
    (chunks : list (list string)) :
  (1 ≤ q)%nat → (length urls - i < fuel)%nat →
  chunkUrls_loop fuel urls (Z.of_nat q) (Z.of_nat i) chunks
  = Some (chunks ++ chunksOf (length urls - i) q (drop i urls)).
Proof.
  intros Hq. revert i chunks.
  induction fuel as [|fuel IH]; intros i chunks Hfuel; [lia|].
  simpl.
  destruct (Z.ltb_spec (Z.of_nat i) (Z.of_nat (length urls))) as [Hi|Hi].
  - rewrite slice_take_drop by lia.
    replace (Z.of_nat i + Z.of_nat q) with (Z.of_nat (i + q)) by lia.
    rewrite IH by lia.
    rewrite <- app_assoc. do 2 f_equal. simpl.
    destruct (length urls - i)%nat as [|n] eqn:Hn; [lia|].
    destruct (drop i urls) as [|x rest] eqn:Hd.
    { apply (f_equal length) in Hd. rewrite length_drop in Hd.
      simpl in Hd. lia. }
    simpl. f_equal. rewrite <- Hd, drop_drop.
    apply chunksOf_fuel; [done|rewrite length_drop; lia..].
  - rewrite drop_ge by lia.
    replace (length urls - i)%nat with 0%nat by lia.
    by rewrite app_nil_r.
Qed.

Lemma concat_chunksOf {A} (fuel q : nat) (l : list A) :
  (1 ≤ q)%nat → (length l ≤ fuel)%nat → concat (chunksOf fuel q l) = l.
Proof.
  intros Hq. revert l.
  induction fuel as [|fuel IH]; intros l Hl.
  - by destruct l; [|simpl in Hl; lia].
  - destruct l as [|x l]; [done|].
    change (chunksOf (S fuel) q (x :: l))
      with (take q (x :: l) :: chunksOf fuel q (drop q (x :: l))).
    rewrite concat_cons, IH, take_drop; [done|].
    rewrite length_drop. simpl in *. lia.
Qed.

(** Chunk [k] is the [k]-th window of width [q]; it is not empty. *)
Lemma lookup_chunksOf {A} (fuel q : nat) (l : list A) (k : nat)
    (chunk : list A) :
  (1 ≤ q)%nat → (length l ≤ fuel)%nat →
  chunksOf fuel q l !! k = Some chunk →
  chunk = take q (drop (k * q) l) ∧ (k * q < length l)%nat.
Proof.
  intros Hq. revert l k.
  induction fuel as [|fuel IH]; intros l k Hl Hk; [done|].
  destruct l as [|x l]; [done|].
  change (chunksOf (S fuel) q (x :: l))
    with (take q (x :: l) :: chunksOf fuel q (drop q (x :: l))) in Hk.
  destruct k as [|k].
  - simpl in Hk. injection Hk as <-. simpl. split; [done|lia].
  - simpl in Hk. apply IH in Hk as [-> Hlt].
    + rewrite drop_drop. rewrite length_drop in Hlt.
      split; [f_equal; f_equal; lia|lia].
    + rewrite length_drop. simpl in *. lia.
Qed.

Lemma length_chunksOf {A} (fuel q : nat) (l : list A) :
  (1 ≤ q)%nat → (length l ≤ fuel)%nat →
  (length (chunksOf fuel q l) * q < length l + q)%nat ∧
  (length l ≤ length (chunksOf fuel q l) * q)%nat.
Proof.
  intros Hq. revert l.
  induction fuel as [|fuel IH]; intros l Hl.
  - destruct l; simpl in *; lia.
  - destruct l as [|x l]; [simpl; lia|].
    change (chunksOf (S fuel) q (x :: l))
      with (take q (x :: l) :: chunksOf fuel q (drop q (x :: l))).
    specialize (IH (drop q (x :: l))).
    rewrite length_drop in IH. rewrite length_cons, Nat.mul_succ_l.
    remember (length (chunksOf fuel q (drop q (x :: l)))) as k.
    remember (length (x :: l)) as n. simpl in Heqn.
    destruct (Nat.le_gt_cases q n).
    + lia.
    + destruct k as [|k]; [lia|]. rewrite Nat.mul_succ_l in IH. lia.
Qed.

Lemma take_drop_seqZ (m n : Z) (a b : nat) :
  take a (drop b (seqZ m n))
  = seqZ (m + Z.of_nat b) (Z.min (Z.of_nat a) (n - Z.of_nat b)).
Proof.
  apply list_eq; intros i.
  destruct (decide (i < a)%nat).
  - rewrite lookup_take_lt, lookup_drop by done.
    destruct (decide (Z.of_nat (b + i) < n)).
    + rewrite !lookup_seqZ_lt by lia. f_equal. lia.
    + by rewrite !lookup_seqZ_ge by lia.
  - rewrite lookup_take_ge by lia. by rewrite lookup_seqZ_ge by lia.
Qed.

(** C1. For [totalPages >= 1] and [quota >= 1] the Partitioner returns (any
    fuel above [totalPages] is enough, and the result does not depend on
    it) a list of chunks such that: the lengths of the chunks add up to
    [totalPages]; every chunk but the last holds exactly [quota] URLs and
    the last holds between 1 and [quota]; the chunks put end to end are
    the URL list in its global order; and chunk number [k+1] holds the
    URLs of the pages [k*quota + 1 .. min ((k+1)*quota, totalPages)], in
    that order. *)
Theorem partition_chunks (totalPages quota : Z) :
  1 ≤ totalPages → 1 ≤ quota →
  ∃ chunks : list (list string),
    (∀ fuel, (Z.to_nat totalPages < fuel)%nat →
             partition fuel totalPages quota = Some chunks) ∧
    sum_list (length <$> chunks) = Z.to_nat totalPages ∧
    (∀ k chunk, chunks !! k = Some chunk → (S k < length chunks)%nat →
                length chunk = Z.to_nat quota) ∧
    (∀ chunk, last chunks = Some chunk →
              (1 ≤ length chunk ≤ Z.to_nat quota)%nat) ∧
    concat chunks = generateUrlList totalPages ∧
    (∀ k chunk, chunks !! k = Some chunk →
       chunk = pageUrl <$> seqZ (Z.of_nat k * quota + 1)
                 (Z.min quota (totalPages - Z.of_nat k * quota))).
Proof.
  intros Hp Hq.
  set (n := Z.to_nat totalPages). set (q := Z.to_nat quota).
  set (urls := generateUrlList totalPages).
  assert (Hlen : length urls = n) by apply length_generateUrlList.
  assert (Hq' : (1 ≤ q)%nat) by (unfold q; lia).
  assert (Hwindow : ∀ k chunk, chunksOf n q urls !! k = Some chunk →
            chunk = take q (drop (k * q) urls) ∧ (k * q < n)%nat).
  { intros k chunk Hk. rewrite <- Hlen.
    apply (lookup_chunksOf n); [done|lia|done]. }
  pose proof (length_chunksOf n q urls Hq' ltac:(lia)) as [Hcount _].
  rewrite Hlen in Hcount.
  exists (chunksOf n q urls). repeat split.
  - intros fuel Hfuel. unfold partition, chunkUrls. fold urls.
    replace quota with (Z.of_nat q) by (unfold q; lia).
    change 0 with (Z.of_nat 0).
    rewrite chunkUrls_loop_spec by lia.
    by rewrite drop_0, Nat.sub_0_r, Hlen.
  - rewrite <- length_concat, concat_chunksOf by lia. done.
  - intros k chunk Hk Hnotlast.
    apply Hwindow in Hk as [-> _].
    rewrite length_take, length_drop, Hlen. nia.
  - apply last_Some in H as [front Hfront].
    assert (Hk : chunksOf n q urls !! length front = Some chunk).
    { rewrite Hfront. by rewrite list_lookup_middle. }
    apply Hwindow in Hk as [-> Hlt].
    rewrite length_take, length_drop, Hlen. lia.
  - apply last_Some in H as [front Hfront].
    assert (Hk : chunksOf n q urls !! length front = Some chunk).
    { rewrite Hfront. by rewrite list_lookup_middle. }
    apply Hwindow in Hk as [-> Hlt].
    rewrite length_take. lia.
  - apply concat_chunksOf; lia.
  - intros k chunk Hk.
    apply Hwindow in Hk as [-> Hlt].
    unfold urls. rewrite generateUrlList_spec.
    rewrite <- fmap_drop, <- fmap_take, take_drop_seqZ.
    f_equal. f_equal; unfold q, n in *; nia.
Qed.

(** The run of C1 on 7 pages with a quota of 3. *)
Lemma partition_chunks_witness :
  ∃ chunks : list (list string),
    partition 8 7 3 = Some chunks ∧
    (length <$> chunks) = [3; 3; 1]%nat ∧
    concat chunks = generateUrlList 7.
Proof.
  destruct (partition_chunks 7 3 ltac:(lia) ltac:(lia))
    as (chunks & Hrun & _ & _ & _ & Hconcat & _).
  exists chunks. split; [apply Hrun; lia|]. split; [|done].
  specialize (Hrun 8%nat ltac:(lia)).
  vm_compute in Hrun. injection Hrun as <-. reflexivity.
Defined.

(** With a chunk size below 1 the index never passes the end of a list
    that is not empty: the loop does not leave by its exit, whatever the
    number of turns. *)
Lemma chunkUrls_loop_runs_on (fuel : nat) (urls : list string)
    (chunkSize i : Z) (chunks : list (list string)) :
  urls ≠ [] → chunkSize ≤ 0 → i ≤ 0 →
  chunkUrls_loop fuel urls chunkSize i chunks = None.
Proof.
  intros Hurls Hsize. revert i chunks.
  induction fuel as [|fuel IH]; intros i chunks Hi; [done|].
  cbn [chunkUrls_loop].
  destruct (Z.ltb_spec i (Z.of_nat (length urls))) as [_|Hge].
  - apply IH. lia.
  - destruct urls; [done|]. simpl in Hge. lia.
Qed.

Lemma partition_no_pages (fuel : nat) (totalPages quota : Z) :
  totalPages < 1 → partition (S fuel) totalPages quota = Some [].
Proof.
  intros Hp. unfold partition, chunkUrls.
  rewrite generateUrlList_spec, seqZ_nil by lia. done.
Qed.

Lemma partition_no_quota (fuel : nat) (totalPages quota : Z) :
  1 ≤ totalPages → quota < 1 → partition fuel totalPages quota = None.
Proof.
  intros Hp Hq. apply chunkUrls_loop_runs_on; [|lia..].
  intros Hnil. apply (f_equal length) in Hnil.
  rewrite length_generateUrlList in Hnil. simpl in Hnil. lia.
Qed.

(** On the empty list the loop returns on its first test. *)
Lemma chunkUrls_turns_nil (capacity turns : nat) (chunkSize : Z) :
  chunkUrls_turns capacity (S turns) [] chunkSize = Returned [].
Proof.
  unfold chunkUrls_turns. induction turns as [|turns IH]; [done|].
  rewrite Nat.iter_succ, IH. done.
Qed.

(** With a chunk size below 1, and a list that is not empty, every turn
    appends a chunk, as long as the array can grow. *)
Lemma chunkUrls_turns_grow (capacity : nat) (urls : list string)
    (chunkSize : Z) (n : nat) :
  urls ≠ [] → chunkSize ≤ 0 → (n ≤ capacity)%nat →
  ∃ chunks, chunkUrls_turns capacity n urls chunkSize
            = Looping (Z.of_nat n * chunkSize) chunks ∧
            length chunks = n.
Proof.
  intros Hurls Hsize. unfold chunkUrls_turns.
  induction n as [|n IH]; intros Hn; [by exists []|].
  destruct IH as (chunks & Hturns & Hlen); [lia|].
  rewrite Nat.iter_succ, Hturns. cbn [chunkUrls_turn].
  destruct (Z.ltb_spec (Z.of_nat n * chunkSize) (Z.of_nat (length urls)))
    as [_|Hge].
  - destruct (Nat.ltb_spec (length chunks) capacity) as [_|Hfull]; [|lia].
    eexists. split.
    + f_equal. lia.
    + rewrite length_app. simpl. lia.
  - destruct urls; [done|]. simpl in Hge. nia.
Qed.

(** Once the array is full, the next turn fails. *)
Lemma chunkUrls_turns_fail (capacity : nat) (urls : list string)
    (chunkSize : Z) (n : nat) :
  urls ≠ [] → chunkSize ≤ 0 → (capacity < n)%nat →
  chunkUrls_turns capacity n urls chunkSize = EngineFailure.
Proof.
  intros Hurls Hsize Hn.
  replace n with (n - S capacity + S capacity)%nat by lia.
  generalize (n - S capacity)%nat as m. clear n Hn. intros m.
  unfold chunkUrls_turns. induction m as [|m IH].
  - destruct (chunkUrls_turns_grow capacity urls chunkSize capacity)
      as (chunks & Hturns & Hlen); [done..|].
    unfold chunkUrls_turns in Hturns.
    cbn [Nat.add]. rewrite Nat.iter_succ, Hturns. cbn [chunkUrls_turn].
    destruct (Z.ltb_spec (Z.of_nat capacity * chunkSize)
                (Z.of_nat (length urls))) as [_|Hge].
    + destruct (Nat.ltb_spec (length chunks) capacity); [lia|done].
    + destruct urls; [done|]. simpl in Hge. nia.
  - cbn [Nat.add]. by rewrite Nat.iter_succ, IH.
Qed.

Lemma generateUrlList_nonempty (totalPages : Z) :
  1 ≤ totalPages → generateUrlList totalPages ≠ [].
Proof.
  intros Hp Hnil. apply (f_equal length) in Hnil.
  rewrite length_generateUrlList in Hnil. simpl in Hnil. lia.
Qed.

(** C6, as the specification states it, does not hold: the Partitioner
    checks nothing.  [partition(0, 50)] and [partition(-3, 50)] return the
    empty list of chunks, an ordinary result.  [partition(1, 0)] does not
    fail for its configuration either: its loop appends an empty chunk on
    every turn, and the run ends when the engine can no longer grow the
    array, whatever the size it can grow to. *)
Lemma partition_raises_nothing :
  partition 1 0 50 = Some [] ∧
  partition 1 (-3) 50 = Some [] ∧
  (∀ capacity n, (n ≤ capacity)%nat →
     ∃ chunks, chunkUrls_turns capacity n (generateUrlList 1) 0
               = Looping 0 chunks ∧ length chunks = n) ∧
  (∀ capacity,
     chunkUrls_turns capacity (S capacity) (generateUrlList 1) 0
     = EngineFailure).
Proof.
  split; [by apply partition_no_pages|].
  split; [by apply partition_no_pages|]. split.
  - intros capacity n Hn.
    destruct (chunkUrls_turns_grow capacity (generateUrlList 1) 0 n)
      as (chunks & Hturns & Hlen); [done|lia|done|].
    exists chunks. split; [|done]. rewrite Hturns. f_equal. lia.
  - intros capacity. apply chunkUrls_turns_fail; [done|lia|lia].
Qed.

(** C6, amended. The Partitioner checks nothing and raises no error of
    its own.  With [totalPages < 1] it returns the empty list of chunks,
    whatever the quota.  With [totalPages >= 1] and [quota < 1] its loop
    never leaves by its exit and returns nothing: every turn appends one
    more chunk, for as long as the engine can grow the array (to
    [capacity] elements), and the turn after that the run ends with the
    failure of the engine ([RangeError: Invalid array length], or the
    heap exhausted before), not with a result. *)
Theorem partition_unchecked (totalPages quota : Z) (fuel capacity : nat) :
  (totalPages < 1 →
   partition (S fuel) totalPages quota = Some [] ∧
   chunkUrls_turns capacity (S fuel) (generateUrlList totalPages) quota
   = Returned []) ∧
  (1 ≤ totalPages → quota < 1 →
   (∀ n, (n ≤ capacity)%nat →
      ∃ chunks,
        chunkUrls_turns capacity n (generateUrlList totalPages) quota
        = Looping (Z.of_nat n * quota) chunks ∧
        length chunks = n) ∧
   (∀ n, (capacity < n)%nat →
      chunkUrls_turns capacity n (generateUrlList totalPages) quota
      = EngineFailure)).
Proof.
  split.
  - intros Hp. split; [by apply partition_no_pages|].
    rewrite generateUrlList_spec, seqZ_nil by lia.
    apply chunkUrls_turns_nil.
  - intros Hp Hq.
    pose proof (generateUrlList_nonempty totalPages Hp) as Hurls.
    split; intros n Hn.
    + apply chunkUrls_turns_grow; [done|lia|done].
    + apply chunkUrls_turns_fail; [done|lia|done].
Qed.

(** No page: the empty list of chunks.  15000 pages and a quota of 0, in
    an engine that lets the array grow to 1000 elements: still looping
    after 1000 turns, with 1000 chunks, and failed after one more. *)
Lemma partition_unchecked_witness :
  partition 1 0 50 = Some [] ∧
  (∃ chunks, chunkUrls_turns 1000 1000 (generateUrlList 15000) 0
             = Looping (Z.of_nat 1000 * 0) chunks ∧
             length chunks = 1000%nat) ∧
  chunkUrls_turns 1000 1001 (generateUrlList 15000) 0 = EngineFailure.
Proof.
  split; [|split].
  - apply (proj1 (partition_unchecked 0 50 0 0)). lia.
  - apply (proj2 (partition_unchecked 15000 0 0 1000)); lia.
  - apply (proj2 (partition_unchecked 15000 0 0 1000)); lia.
Defined.

End Partitioner.

(** ** Chunk files: written by the Partitioner, read by the Chunk Runner *)

Section ChunkFiles.

Import url_generator.

Lemma length_chunkFileName (chunkNum : Z) :
  (14 ≤ String.length (chunkFileName chunkNum))%nat.
Proof.
  unfold chunkFileName.
  rewrite !length_append, length_padStart. simpl. lia.
Qed.

(** The file names of two chunks differ. *)
Lemma chunkFileName_inj (a b : Z) :
  0 ≤ a → 0 ≤ b → chunkFileName a = chunkFileName b → a = b.
Proof.
  intros Ha Hb Heq. unfold chunkFileName in Heq.
  apply (inj (String.app "chunk_")) in Heq. apply append_inj_r in Heq.
  apply (f_equal numberOf) in Heq.
  rewrite !numberOf_padStart in Heq by done. by injection Heq.
Qed.

(** [writeChunks] only touches the names of the chunks it writes. *)
Lemma lookup_writeChunks_later (index : Z) (chunks : list (list string))
    (dir : directory) (file : string) :
  (∀ n, index < n → file ≠ chunkFileName n) →
  writeChunks index chunks dir !! file = dir !! file.
Proof.
  revert index dir.
  induction chunks as [|chunk chunks IH]; intros index dir Hfile; [done|].
  cbn [writeChunks]. rewrite IH.
  - rewrite lookup_insert_ne; [done|]. intros Heq.
    by apply (Hfile (index + 1)); [lia|].
  - intros n Hn. apply Hfile. lia.
Qed.

Lemma lookup_writeChunks_other (index : Z) (chunks : list (list string))
    (dir : directory) (file : string) :
  (∀ n, file ≠ chunkFileName n) →
  writeChunks index chunks dir !! file = dir !! file.
Proof. intros Hfile. apply lookup_writeChunks_later. auto. Qed.

(** Chunk [k] (counting from 0) goes to the file of number [k + 1]. *)
Lemma lookup_writeChunks (index : Z) (chunks : list (list string))
    (dir : directory) (k : nat) (chunk : list string) :
  0 ≤ index → chunks !! k = Some chunk →
  writeChunks index chunks dir !! chunkFileName (index + Z.of_nat k + 1)
  = Some (JS.join (String "010" EmptyString) chunk).
Proof.
  revert index dir k.
  induction chunks as [|first chunks IH]; intros index dir k Hindex Hk;
    [done|].
  cbn [writeChunks]. destruct k as [|k]; simpl in Hk.
  - injection Hk as ->.
    replace (index + Z.of_nat 0 + 1) with (index + 1) by lia.
    rewrite lookup_writeChunks_later; [apply lookup_insert_eq|].
    intros n Hn Heq. apply chunkFileName_inj in Heq; lia.
  - replace (index + Z.of_nat (S k) + 1) with (index + 1 + Z.of_nat k + 1)
      by lia.
    apply IH; [lia|done].
Qed.

Lemma lookup_saveChunks (chunks : list (list string)) (manifest : string)
    (dir : directory) (k : nat) (chunk : list string) :
  chunks !! k = Some chunk →
  saveChunks chunks manifest dir !! chunkFileName (Z.of_nat k + 1)
  = Some (JS.join (String "010" EmptyString) chunk).
Proof.
  intros Hk. unfold saveChunks. rewrite lookup_insert_ne.
  - by apply (lookup_writeChunks 0).
  - intros Heq. apply (f_equal String.length) in Heq.
    pose proof (length_chunkFileName (Z.of_nat k + 1)) as Hlong.
    rewrite <- Heq in Hlong. simpl in Hlong. lia.
Qed.

(** After [saveChunks], the only chunk files are the ones it wrote: a
    name with fewer than four characters between [chunk_] and [.txt] is
    not there, whatever the directory held before. *)
Lemma lookup_saveChunks_short (chunks : list (list string))
    (manifest : string) (dir : directory) (file : string) :
  isChunkFile file = true → (String.length file < 14)%nat →
  saveChunks chunks manifest dir !! file = None.
Proof.
  intros Hchunk Hshort. unfold saveChunks.
  rewrite lookup_insert_ne.
  2:{ intros <-. by vm_compute in Hchunk. }
  rewrite lookup_writeChunks_other.
  2:{ intros n ->. pose proof (length_chunkFileName n). lia. }
  apply map_lookup_filter_None. right. intros content _. simpl.
  by rewrite Hchunk.
Qed.

(** C9, at the identifier ["1"]: whatever the Partitioner wrote, and
    whatever the directory held before, the Chunk Runner started with
    chunk number 1 looks for [chunk_1.txt], which the Partitioner never
    writes (it writes [chunk_0001.txt]), and stops with an error. *)
Theorem loadUrlsFromChunk_unpadded (chunks : list (list string))
    (manifest : string) (dir : directory) :
  chunkFileName 1 = "chunk_0001.txt" ∧
  worker_script.loadUrlsFromChunk (saveChunks chunks manifest dir) "1"
  = Throw "Chunk file not found: chunks/chunk_1.txt".
Proof.
  split; [reflexivity|].
  unfold worker_script.loadUrlsFromChunk.
  replace ("chunk_" +:+ "1" +:+ ".txt") with "chunk_1.txt" by reflexivity.
  rewrite lookup_saveChunks_short; [done|reflexivity|simpl; lia].
Qed.

(** With the number padded as the Partitioner pads it, the Chunk Runner
    reads back the chunk that was written, provided the chunk is not
    empty and its URLs are lines. *)
Lemma loadUrlsFromChunk_padded (chunks : list (list string))
    (manifest : string) (dir : directory) (k : nat) (chunk : list string) :
  chunks !! k = Some chunk → chunk ≠ [] → Forall isLine chunk →
  worker_script.loadUrlsFromChunk (saveChunks chunks manifest dir)
    (JS.padStart 4 "0" (JS.toString (Z.of_nat k + 1)))
  = Ok chunk.
Proof.
  intros Hk Hne Hlines. unfold worker_script.loadUrlsFromChunk.
  change ("chunk_" +:+ JS.padStart 4 "0" (JS.toString (Z.of_nat k + 1))
          +:+ ".txt") with (chunkFileName (Z.of_nat k + 1)).
  rewrite (lookup_saveChunks chunks manifest dir k chunk Hk).
  rewrite split_join; [|done|].
  2:{ eapply Forall_impl; [exact Hlines|]. by intros url [??]. }
  assert (Hkeep : filter (λ url, JS.trim url ≠ EmptyString) chunk = chunk).
  { clear Hk Hne. induction Hlines as [|url chunk [_ Hurl] _ IH]; [done|].
    by rewrite filter_cons_True, IH. }
  rewrite Hkeep. by destruct chunk.
Qed.

(** The URLs the Partitioner generates are lines. *)
Lemma hasChar_digits (d : Decimal.uint) :
  hasChar "010" (NilEmpty.string_of_uint d) = false.
Proof. induction d; simpl; done. Qed.

Lemma hasChar_toString (n : Z) : hasChar "010" (JS.toString n) = false.
Proof.
  unfold JS.toString, NilZero.string_of_int, NilZero.string_of_uint.
  destruct (Z.to_int n) as [d|d]; destruct d; try done;
    simpl; apply hasChar_digits.
Qed.

Lemma pageUrl_isLine (page : Z) : isLine (pageUrl page).
Proof.
  assert (Hurl : pageUrl page
                 = "https://myip.ms/browse/sites/" +:+ JS.toString page +:+
                   "/rankii/15000000/ipID/23.227.38.0/ipIDii/23.227.38.255")
    by reflexivity.
  split.
  - rewrite Hurl, !hasChar_append, hasChar_toString. reflexivity.
  - rewrite Hurl. done.
Qed.

Lemma chunkUrls_loop_more_fuel (fuel fuel' : nat) (urls : list string)
    (chunkSize i : Z) (chunks result : list (list string)) :
  (fuel ≤ fuel')%nat →
  chunkUrls_loop fuel urls chunkSize i chunks = Some result →
  chunkUrls_loop fuel' urls chunkSize i chunks = Some result.
Proof.
  revert fuel' i chunks.
  induction fuel as [|fuel IH]; intros fuel' i chunks Hfuel; [done|].
  destruct fuel' as [|fuel']; [lia|]. cbn [chunkUrls_loop].
  destruct (i <? Z.of_nat (length urls)); [|done].
  apply IH. lia.
Qed.

(** The chunks of the Partitioner are not empty, and hold lines. *)
Lemma partition_lines (fuel : nat) (totalPages quota : Z)
    (chunks : list (list string)) (k : nat) (chunk : list string) :
  partition fuel totalPages quota = Some chunks → chunks !! k = Some chunk →
  chunk ≠ [] ∧ Forall isLine chunk.
Proof.
  intros Hrun Hk.
  destruct (Z.le_gt_cases 1 totalPages) as [Hp|Hp].
  2:{ destruct fuel as [|fuel]; [done|].
      rewrite partition_no_pages in Hrun by lia. by injection Hrun as <-. }
  destruct (Z.le_gt_cases 1 quota) as [Hq|Hq].
  2:{ by rewrite partition_no_quota in Hrun by lia. }
  set (urls := generateUrlList totalPages).
  assert (Hlen : length urls = Z.to_nat totalPages)
    by apply length_generateUrlList.
  apply (chunkUrls_loop_more_fuel _ (fuel + S (length urls))) in Hrun;
    [|lia].
  unfold partition, chunkUrls in Hrun. fold urls in Hrun.
  replace quota with (Z.of_nat (Z.to_nat quota)) in Hrun by lia.
  change 0 with (Z.of_nat 0) in Hrun.
  rewrite chunkUrls_loop_spec in Hrun by lia.
  rewrite drop_0, Nat.sub_0_r in Hrun. injection Hrun as <-.
  apply lookup_chunksOf in Hk as [-> Hlt]; [|lia..].
  split.
  - intros Hnil. apply (f_equal length) in Hnil.
    rewrite length_take, length_drop in Hnil. simpl in Hnil. lia.
  - apply Forall_take, Forall_drop. unfold urls.
    rewrite generateUrlList_spec. apply Forall_fmap, Forall_forall.
    intros page _. apply pageUrl_isLine.
Qed.

(** The round trip of a chunk, when the Chunk Runner is given the number
    padded to four digits. *)
Lemma chunk_round_trip_padded (fuel : nat) (totalPages quota : Z)
    (chunks : list (list string)) (manifest : string) (dir : directory)
    (k : nat) (chunk : list string) :
  partition fuel totalPages quota = Some chunks → chunks !! k = Some chunk →
  worker_script.loadUrlsFromChunk (saveChunks chunks manifest dir)
    (JS.padStart 4 "0" (JS.toString (Z.of_nat k + 1)))
  = Ok chunk.
Proof.
  intros Hrun Hk.
  destruct (partition_lines _ _ _ _ _ _ Hrun Hk).
  by apply loadUrlsFromChunk_padded.
Qed.

(** Without the padding, every chunk number below 1000 is looked up under
    a name that the Partitioner does not write. *)
Lemma length_toString_below_1000 (n : Z) :
  0 ≤ n < 1000 → (String.length (JS.toString n) ≤ 3)%nat.
Proof.
  intros Hn.
  assert (Hall : forallb (λ n, (String.length (JS.toString n) <=? 3)%nat)
                   (seqZ 0 1000) = true) by (vm_compute; reflexivity).
  rewrite forallb_forall in Hall.
  apply Nat.leb_le, Hall, list_elem_of_In, elem_of_seqZ. lia.
Qed.

Lemma loadUrlsFromChunk_unpadded_below_1000 (chunks : list (list string))
    (manifest : string) (dir : directory) (n : Z) :
  0 ≤ n < 1000 →
  worker_script.loadUrlsFromChunk (saveChunks chunks manifest dir)
    (JS.toString n)
  = Throw ("Chunk file not found: chunks/chunk_" +:+ JS.toString n +:+ ".txt").
Proof.
  intros Hn. unfold worker_script.loadUrlsFromChunk.
  rewrite lookup_saveChunks_short; [done| |].
  - unfold isChunkFile. apply andb_true_iff. split; [apply prefix_append|].
    change ("chunk_" +:+ JS.toString n +:+ ".txt")
      with (("chunk_" +:+ JS.toString n) +:+ ".txt").
    apply endsWith_append.
  - rewrite !length_append. pose proof (length_toString_below_1000 n Hn).
    simpl. lia.
Qed.

End ChunkFiles.

(** ** Extraction of the rows of a page *)

Section Extraction.

Import worker_script.

(** Induction on a node, with the property for all children. *)
Lemma node_ind_nested (P : node → Prop) :
  (∀ data, P (Text data)) →
  (∀ tag id h children,
      Forall P children → P (Element tag id h children)) →
  ∀ n, P n.
Proof.
  intros HText HElement. fix IH 1. intros [data|tag id h children].
  - apply HText.
  - apply HElement.
    induction children as [|k children IHchildren]; constructor.
    + apply IH.
    + apply IHchildren.
Qed.

(** Where a node holds only white space, so does everything below it. *)
Lemma allSpace_subtree (n d : node) :
  d ∈ subtree n → allSpace (textContent n) = true →
  allSpace (textContent d) = true.
Proof.
  revert d. induction n as [data|tag id h children IH] using node_ind_nested;
    intros d Hd Hall.
  - apply list_elem_of_singleton in Hd. by subst.
  - cbn [subtree] in Hd. apply elem_of_cons in Hd as [->|Hd]; [done|].
    cbn [textContent] in Hall. revert Hd Hall.
    induction IH as [|k children Hk _ IHchildren]; intros Hd Hall.
    + by apply elem_of_nil in Hd.
    + rewrite allSpace_append in Hall. apply andb_true_iff in Hall as [??].
      apply elem_of_app in Hd as [Hd|Hd]; [by apply Hk|by apply IHchildren].
Qed.

Lemma querySelector_subtree (sel : node → bool) (n d : node) :
  querySelector sel n = Some d → d ∈ subtree n.
Proof.
  unfold querySelector, querySelectorAll, descendants. intros Hd.
  assert (d ∈ filter (λ d, sel d = true) (drop 1 (subtree n))) as Hin.
  { destruct (filter _ _); [done|]. injection Hd as ->. by left. }
  apply list_elem_of_filter in Hin as [_ Hin].
  destruct n; cbn [subtree drop] in Hin |- *; by right.
Qed.

(** The fallback to the text of the link never finds anything: the text
    of the link is part of the text of its cell. *)
Lemma link_fallback_empty (cell : option node) :
  JS.orElse (trimmedText cell)
    (JS.orElse (trimmedText (cell ≫= querySelector (hasTag "a")))
       EmptyString)
  = JS.orElse (trimmedText cell) EmptyString.
Proof.
  destruct cell as [cell|]; [|done]. simpl. unfold JS.or_else.
  destruct (JS.truthy (JS.trim (textContent cell))) eqn:Hcell; [done|].
  apply truthy_false, trim_empty in Hcell.
  destruct (querySelector (hasTag "a") cell) as [link|] eqn:Hlink; [|done].
  simpl. apply querySelector_subtree in Hlink.
  pose proof (allSpace_subtree _ _ Hlink Hcell) as Hspace.
  apply trim_empty in Hspace. by rewrite Hspace.
Qed.

Lemma domain_spec (locationHref now : string) (index : nat) (row : node) :
  domain (extractRow locationHref now index row)
  = JS.orElse (trimmedText (querySelectorAll isCell row !! 1%nat))
      EmptyString.
Proof. apply link_fallback_empty. Qed.

Lemma ipAddress_spec (locationHref now : string) (index : nat) (row : node) :
  ipAddress (extractRow locationHref now index row)
  = JS.orElse (trimmedText (querySelectorAll isCell row !! 2%nat))
      EmptyString.
Proof. apply link_fallback_empty. Qed.

(** A rank is never empty and does not start with white space; a domain
    does not end with white space. *)
Lemma rank_clean (locationHref now : string) (index : nat) (row : node) :
  rank (extractRow locationHref now index row) ≠ EmptyString ∧
  startsClean (rank (extractRow locationHref now index row)) = true.
Proof.
  cbn [extractRow rank].
  destruct (querySelectorAll isCell row !! 0%nat) as [cell|]; [|done].
  simpl. unfold JS.or_else.
  destruct (JS.truthy (JS.trim (textContent cell))) eqn:Hcell; [|done].
  split; [by apply truthy_true|apply startsClean_trim].
Qed.

Lemma domain_clean (locationHref now : string) (index : nat) (row : node) :
  endsClean (domain (extractRow locationHref now index row)) = true.
Proof.
  rewrite domain_spec.
  destruct (querySelectorAll isCell row !! 1%nat) as [cell|]; [|done].
  simpl. unfold JS.or_else.
  destruct (JS.truthy (JS.trim (textContent cell))); [|done].
  apply endsClean_trim.
Qed.

Lemma uniqueId_spec (locationHref now : string) (index : nat) (row : node) :
  let r := extractRow locationHref now index row in
  uniqueId r = JS.replaceSpaceRuns (rank r +:+ "-" +:+ domain r).
Proof. intros r. unfold r at 3. rewrite domain_spec. reflexivity. Qed.

(** C4. The identity of an extracted row is computed from its rank and its
    domain: it is [rank + "-" + domain] with every run of white space
    replaced by one hyphen, that is the words of [rank-domain] joined by
    single hyphens; it holds no white space; and for the rank ["12"] and
    the domain ["example.com"] it is ["12-example.com"]. *)
Theorem uniqueId_from_rank_and_domain (locationHref now : string)
    (index : nat) (row : node) :
  let r := extractRow locationHref now index row in
  uniqueId r = JS.replaceSpaceRuns (rank r +:+ "-" +:+ domain r) ∧
  uniqueId r = hyphenated (rank r +:+ "-" +:+ domain r) ∧
  hasSpace (uniqueId r) = false ∧
  (rank r = "12" → domain r = "example.com" → uniqueId r = "12-example.com").
Proof.
  intros r.
  pose proof (uniqueId_spec locationHref now index row) as Hcode.
  cbv zeta in Hcode. fold r in Hcode.
  split; [done|]. split; [|split].
  - rewrite Hcode. apply replaceSpaceRuns_hyphenated.
    + destruct (rank_clean locationHref now index row) as [Hne Hstart].
      fold r in Hne, Hstart. by rewrite startsClean_append.
    + rewrite endsClean_append by done.
      pose proof (domain_clean locationHref now index row) as Hends.
      fold r in Hends. destruct (domain r) as [|c d] eqn:Hd; [done|].
      by rewrite endsClean_append.
  - rewrite Hcode. apply hasSpace_replaceSpaceRuns_from.
  - intros Hrank Hdomain. by rewrite Hcode, Hrank, Hdomain.
Qed.

Lemma uniqueId_from_rank_and_domain_witness :
  uniqueId (extractRow "https://myip.ms/browse/sites/1"
              "2024-01-01T00:00:00.000Z" 0 exampleRow)
  = "12-example.com".
Proof.
  destruct (uniqueId_from_rank_and_domain "https://myip.ms/browse/sites/1"
              "2024-01-01T00:00:00.000Z" 0 exampleRow) as (_ & _ & _ & Hid).
  apply Hid; reflexivity.
Defined.

End Extraction.

(** ** The Chunk Runner *)

Section ChunkRunner.

Import worker_script.

(** [scrapePage] catches everything. *)
Lemma scrapePage_never_throws (v : pageVisit) :
  scrapePage v = Ok (fetched v).
Proof.
  unfold fetched, scrapePage, try_catch.
  by destruct (_ ≫= _).
Qed.

(** A challenge page, a login page, a missing table and a throwing driver
    call all end in [null]. *)
Lemma fetched_challenge (v : pageVisit) (t u : string) :
  title v = Ok t → pageUrl v = Ok u → isChallenge t u = true →
  fetched v = None.
Proof.
  intros Ht Hu Hchallenge. unfold fetched, scrapePage, try_catch.
  rewrite Ht, Hu.
  destruct (goto v), (mouseMove v), (scrollTo v); simpl; try done.
  by rewrite Hchallenge.
Qed.

Lemma fetched_login (v : pageVisit) (t u : string) :
  title v = Ok t → pageUrl v = Ok u → isLogin t u = true →
  fetched v = None.
Proof.
  intros Ht Hu Hlogin. unfold fetched, scrapePage, try_catch.
  rewrite Ht, Hu.
  destruct (goto v), (mouseMove v), (scrollTo v); simpl; try done.
  rewrite Hlogin. by destruct (isChallenge t u).
Qed.

Lemma fetched_throws (v : pageVisit) :
  driverThrows v = true → fetched v = None.
Proof.
  unfold driverThrows, fetched, scrapePage, try_catch.
  destruct (goto v), (mouseMove v), (scrollTo v), (title v) as [t|],
    (pageUrl v) as [u|], (waitForSelector v), (document v);
    simpl; try done; intros _;
    by destruct (isChallenge t u), (isLogin t u).
Qed.

(** The rows a fetch brings back come out of [extractTable]. *)
Lemma fetched_rows (v : pageVisit) (rows : list Row) :
  fetched v = Some rows →
  ∃ doc, document v = Ok doc ∧
         rows = extractTable (locationHref v) (clock v) doc.
Proof.
  unfold fetched, scrapePage, try_catch.
  destruct (goto v), (mouseMove v), (scrollTo v), (title v) as [t|],
    (pageUrl v) as [u|]; simpl; try done.
  destruct (isChallenge t u); [done|]. destruct (isLogin t u); [done|].
  destruct (waitForSelector v); [|done].
  destruct (document v) as [doc|]; simpl; [|done].
  intros [= <-]. by exists doc.
Qed.

(** The loop of [main] never throws: it counts what each fetch returns. *)
Lemma scrapeAll_spec (visit : nat → string → pageVisit) (i : nat)
    (urls : list string) (st : runState) :
  scrapeAll visit i urls st = Ok (tally st (outcomes visit i urls)).
Proof.
  revert i st. induction urls as [|url urls IH]; intros i st; [done|].
  cbn [scrapeAll outcomes foldl].
  rewrite scrapePage_never_throws. apply IH.
Qed.

Section Tally.

Variable visit : nat → string → pageVisit.

Lemma count_broughtRows (data : option (list Row)) (st : runState) :
  count data st
  = if broughtRows data
    then {| allData := allData st ++ default [] data;
            successCount := S (successCount st);
            failCount := failCount st |}
    else {| allData := allData st;
            successCount := successCount st;
            failCount := S (failCount st) |}.
Proof. by destruct data as [[|row rows]|]. Qed.

Lemma allData_count (data : option (list Row)) (st : runState) :
  allData (count data st) = allData st ++ default [] data.
Proof. destruct data as [[|row rows]|]; simpl; by rewrite ?app_nil_r. Qed.

Lemma allData_tally (os : list (option (list Row))) (st : runState) :
  allData (tally st os) = allData st ++ concat (default [] <$> os).
Proof.
  revert st. induction os as [|data os IH]; intros st; simpl.
  - by rewrite app_nil_r.
  - unfold tally in IH. rewrite IH, allData_count. by rewrite <- app_assoc.
Qed.

Lemma successCount_tally (os : list (option (list Row))) (st : runState) :
  successCount (tally st os)
  = (successCount st + length (filter (λ o, broughtRows o = true) os))%nat.
Proof.
  revert st. induction os as [|data os IH]; intros st; simpl; [lia|].
  unfold tally in IH. rewrite IH, count_broughtRows, filter_cons.
  destruct (broughtRows data); simpl; lia.
Qed.

Lemma failCount_tally (os : list (option (list Row))) (st : runState) :
  failCount (tally st os)
  = (failCount st + length (filter (λ o, broughtRows o = false) os))%nat.
Proof.
  revert st. induction os as [|data os IH]; intros st; simpl; [lia|].
  unfold tally in IH. rewrite IH, count_broughtRows, filter_cons.
  destruct (broughtRows data); simpl; lia.
Qed.

Lemma counts_tally (os : list (option (list Row))) (st : runState) :
  (successCount (tally st os) + failCount (tally st os)
   = successCount st + failCount st + length os)%nat.
Proof.
  revert st. induction os as [|data os IH]; intros st; simpl; [lia|].
  unfold tally in IH. rewrite IH, count_broughtRows.
  destruct (broughtRows data); simpl; lia.
Qed.

Lemma length_outcomes (i : nat) (urls : list string) :
  length (outcomes visit i urls) = length urls.
Proof.
  revert i. induction urls as [|url urls IH]; intros i; simpl; [done|].
  by rewrite IH.
Qed.

Lemma lookup_outcomes (i j : nat) (urls : list string) (url : string) :
  urls !! j = Some url →
  outcomes visit i urls !! j = Some (fetched (visit (i + j)%nat url)).
Proof.
  revert i j. induction urls as [|u urls IH]; intros i j Hj; [done|].
  destruct j as [|j]; simpl in *.
  - injection Hj as ->. by rewrite Nat.add_0_r.
  - rewrite (IH (S i) j Hj). do 3 f_equal. lia.
Qed.

Lemma length_failedUrls (i : nat) (urls : list string) :
  length (failedUrls visit i urls)
  = length (filter (λ o, broughtRows o = false) (outcomes visit i urls)).
Proof.
  revert i. induction urls as [|url urls IH]; intros i; [done|].
  cbn [failedUrls outcomes]. rewrite filter_cons.
  destruct (broughtRows (fetched (visit i url))); simpl; by rewrite IH.
Qed.

Lemma elem_of_failedUrls (i j : nat) (urls : list string) (url : string) :
  urls !! j = Some url →
  broughtRows (fetched (visit (i + j)%nat url)) = false →
  url ∈ failedUrls visit i urls.
Proof.
  revert i j. induction urls as [|u urls IH]; intros i j Hj Hfail; [done|].
  cbn [failedUrls]. destruct j as [|j]; simpl in Hj.
  - injection Hj as ->. rewrite Nat.add_0_r in Hfail. rewrite Hfail. by left.
  - assert (url ∈ failedUrls visit (S i) urls).
    { apply (IH (S i) j Hj).
      by replace (S i + j)%nat with (i + S j)%nat by lia. }
    destruct (broughtRows (fetched (visit i u))); [done|by right].
Qed.

End Tally.

(** C5. A failure of a page never leaves the Chunk Runner as an
    exception: [scrapePage] never throws, it returns [null] on a challenge
    page and whenever a call of the page driver throws; the loop of [main]
    goes through all the URLs of the chunk and returns, the two counters
    add up to the number of URLs, and the failure counter is the number of
    URLs whose fetch brought nothing, every URL whose fetch returned
    [null] being one of them; and once the setup has succeeded, the run
    ends with exit status 0 whatever the pages do (provided the write and
    the closing of the browser succeed). *)
Theorem page_failures_stay_inside {session : Type}
    (visit : nat → string → pageVisit) (urls : list string)
    (argv2 env : option string) (parse : string → result (option session))
    (chunks : directory) (launch : session → result unit)
    (timestamp : string) (data : dataDirectory) :
  (∀ v msg, scrapePage v ≠ Throw msg) ∧
  (∀ v t u, title v = Ok t → pageUrl v = Ok u → isChallenge t u = true →
            scrapePage v = Ok None) ∧
  (∀ v, driverThrows v = true → scrapePage v = Ok None) ∧
  (∃ st, scrapeAll visit 0 urls initialState = Ok st ∧
         (successCount st + failCount st = length urls)%nat ∧
         failCount st = length (failedUrls visit 0 urls) ∧
         (∀ i url, urls !! i = Some url →
                   scrapePage (visit i url) = Ok None →
                   url ∈ failedUrls visit 0 urls)) ∧
  (∀ chunkNumber cookies,
     argv2 = Some chunkNumber → JS.truthy chunkNumber = true →
     loadCookiesFromEnv env parse = Ok (Some cookies) →
     loadUrlsFromChunk chunks chunkNumber = Ok urls →
     launch cookies = Ok () →
     exitCode (main argv2 env parse chunks launch visit timestamp (Ok ())
                 (Ok ()) data) = 0).
Proof.
  split; [|split; [|split; [|split]]].
  - intros v msg. by rewrite scrapePage_never_throws.
  - intros v t u Ht Hu Hchallenge.
    by rewrite scrapePage_never_throws, (fetched_challenge v t u).
  - intros v Hthrows. by rewrite scrapePage_never_throws, fetched_throws.
  - eexists. split; [apply scrapeAll_spec|]. split; [|split].
    + by rewrite counts_tally, length_outcomes.
    + by rewrite failCount_tally, length_failedUrls.
    + intros i url Hi Hnull. apply (elem_of_failedUrls visit 0 i); [done|].
      rewrite scrapePage_never_throws in Hnull.
      injection Hnull as Hnull. simpl. by rewrite Hnull.
  - intros c cookies -> Htruthy Hcookies Hurls Hlaunch.
    unfold main. rewrite Htruthy, Hcookies. simpl.
    rewrite Hurls. simpl. rewrite Hlaunch. simpl.
    rewrite scrapeAll_spec. simpl. unfold saveBlock.
    by destruct (0 <? _)%nat.
Qed.

(** The two URLs of the sample chunk both answer with a challenge page:
    the run returns, both are counted as failures, the exit status
    is 0. *)
Lemma page_failures_stay_inside_witness :
  scrapePage challengeVisit = Ok None ∧
  (∃ st, scrapeAll (λ _ _, challengeVisit) 0
           ["https://myip.ms/browse/sites/1"; "https://myip.ms/browse/sites/2"]
           initialState = Ok st ∧
         failCount st = 2%nat ∧
         "https://myip.ms/browse/sites/2"
         ∈ failedUrls (λ _ _, challengeVisit) 0
             ["https://myip.ms/browse/sites/1";
              "https://myip.ms/browse/sites/2"]) ∧
  exitCode (main (session := list unit) (Some "0001") (Some "W10=") (λ _, Ok (Some []))
              sampleChunks (λ _, Ok ()) (λ _ _, challengeVisit)
              "2024-01-01T00-00-00-000Z" (Ok ()) (Ok ()) ∅) = 0.
Proof.
  destruct (page_failures_stay_inside (session := list unit)
              (λ _ _, challengeVisit)
              ["https://myip.ms/browse/sites/1";
               "https://myip.ms/browse/sites/2"]
              (Some "0001") (Some "W10=") (λ _, Ok (Some [])) sampleChunks
              (λ _, Ok ()) "2024-01-01T00-00-00-000Z" ∅)
    as (_ & Hchallenge & _ & (st & Hrun & _ & Hfail & Hurl) & Hexit).
  split; [|split].
  - by apply (Hchallenge challengeVisit "Security Check"
                "https://myip.ms/verify").
  - exists st. split; [done|]. split; [by rewrite Hfail|].
    by apply (Hurl 1%nat).
  - by apply (Hexit "0001" []).
Defined.

(** C8, as the specification states it, does not hold for a fetch that
    succeeds with no rows: on a page whose table holds only its header
    [scrapePage] returns the empty list of rows, and [main] counts the URL
    as a failure, not as a success. *)
Lemma empty_fetch_counts_as_failure :
  scrapePage emptyTableVisit = Ok (Some []) ∧
  scrapeAll (λ _ _, emptyTableVisit) 0 ["https://myip.ms/browse/sites/1"]
    initialState
  = Ok {| allData := []; successCount := 0; failCount := 1 |}.
Proof. split; reflexivity. Qed.

(** C8, amended. For every URL of the chunk, in order: when the fetch
    returns at least one row, the rows are appended to the accumulator
    and the success counter goes up by one; when it returns [null] or an
    empty list of rows, the failure counter goes up by one and the
    accumulator is unchanged.  So the accumulator holds all the rows
    returned, the success counter is the number of fetches that brought
    rows, the failure counter the number of the others, and the two add
    up to the number of URLs. *)
Theorem counts_follow_rows (visit : nat → string → pageVisit)
    (urls : list string) :
  (∀ st row rows,
     count (Some (row :: rows)) st
     = {| allData := allData st ++ row :: rows;
          successCount := S (successCount st);
          failCount := failCount st |}) ∧
  (∀ st data, data = None ∨ data = Some [] →
     count data st
     = {| allData := allData st;
          successCount := successCount st;
          failCount := S (failCount st) |}) ∧
  ∃ st, scrapeAll visit 0 urls initialState = Ok st ∧
        allData st = concat (default [] <$> outcomes visit 0 urls) ∧
        successCount st
        = length (filter (λ o, broughtRows o = true) (outcomes visit 0 urls)) ∧
        failCount st
        = length (filter (λ o, broughtRows o = false) (outcomes visit 0 urls)) ∧
        (successCount st + failCount st = length urls)%nat.
Proof.
  split; [done|]. split; [by intros st data [->| ->]|].
  eexists. split; [apply scrapeAll_spec|]. repeat split.
  - by rewrite allData_tally.
  - by rewrite successCount_tally.
  - by rewrite failCount_tally.
  - by rewrite counts_tally, length_outcomes.
Qed.

Lemma counts_follow_rows_witness :
  count (Some []) initialState
  = {| allData := []; successCount := 0; failCount := 1 |}.
Proof.
  destruct (counts_follow_rows (λ _ _, emptyTableVisit) []) as (_ & Hfail & _).
  apply (Hfail initialState (Some [])). by right.
Defined.

(** *** What the run persists *)

Lemma extractTable_keepRow (locationHref : string) (clock : nat → string)
    (doc : node) (row : Row) :
  row ∈ extractTable locationHref clock doc → keepRow row = true.
Proof.
  unfold extractTable.
  destruct (querySelector (hasId "sites_tbl") doc); [|by intros ?%elem_of_nil].
  by intros [? _]%list_elem_of_filter.
Qed.

Lemma keepRow_spec (row : Row) :
  keepRow row = true ↔ ¬ (domain row = EmptyString ∧ ipAddress row = EmptyString).
Proof.
  unfold keepRow. rewrite orb_true_iff, !truthy_true. split.
  - intros [?|?] [??]; done.
  - intros Hnot. destruct (domain row); [|by left].
    destruct (ipAddress row); [|by right]. by destruct Hnot.
Qed.

Lemma outcomes_keepRow (visit : nat → string → pageVisit) (i : nat)
    (urls : list string) (row : Row) :
  row ∈ concat (default [] <$> outcomes visit i urls) → keepRow row = true.
Proof.
  revert i. induction urls as [|url urls IH]; intros i.
  - by intros ?%elem_of_nil.
  - cbn [outcomes fmap list_fmap concat].
    intros [Hrow|Hrow]%elem_of_app; [|by apply (IH (S i))].
    destruct (fetched (visit i url)) as [rows|] eqn:Hfetched.
    + apply fetched_rows in Hfetched as (doc & _ & ->).
      by apply extractTable_keepRow in Hrow.
    + by apply elem_of_nil in Hrow.
Qed.


(** [main] leaves the [data] directory as it was, or adds one file that
    holds the rows collected, of which there is at least one. *)
Lemma main_dataDir {session : Type} (argv2 env : option string)
    (parse : string → result (option session)) (chunks : directory)
    (launch : session → result unit)
    (visit : nat → string → pageVisit) (timestamp : string)
    (write close : result unit) (data : dataDirectory) :
  let r := main argv2 env parse chunks launch visit timestamp write close
             data in
  dataDir r = data ∨
  ∃ chunkNumber urls st,
    argv2 = Some chunkNumber ∧
    loadUrlsFromChunk chunks chunkNumber = Ok urls ∧
    scrapeAll visit 0 urls initialState = Ok st ∧
    allData st ≠ [] ∧
    dataDir r
    = <[outputFileName chunkNumber timestamp := toRecord <$> allData st]> data.
Proof.
  unfold main. destruct argv2 as [c|]; [|by left].
  destruct (negb (JS.truthy c)); [by left|].
  destruct (loadCookiesFromEnv env parse) as [cookies|]; simpl; [|by left].
  destruct (loadUrlsFromChunk chunks c) as [urls|] eqn:Hurls; simpl;
    [|by left].
  destruct cookies as [cookies|]; simpl; [|by left].
  destruct (launch cookies); simpl; [|by left].
  rewrite scrapeAll_spec. simpl.
  set (st := tally _ _). unfold saveBlock.
  destruct (0 <? length (allData st))%nat eqn:Hrows; simpl.
  - destruct write; simpl; [|by left].
    right. exists c, urls, st.
    split; [done|]. split; [done|]. split; [apply scrapeAll_spec|].
    split; [|by destruct close].
    intros Hnil. by rewrite Hnil in Hrows.
  - left. by destruct close.
Qed.




(** C3. Among the rows of a page, the extraction keeps the row whose
    domain is empty and whose IP address is not, and drops the row whose
    domain and IP address are both empty; so no row of the extraction
    output has both fields empty, no such row reaches the accumulator of
    the Chunk Runner, and no such row is in a file that the run writes. *)
Theorem empty_rows_are_dropped (locationHref : string) (clock : nat → string)
    (doc : node) :
  (∀ table index tr,
     querySelector (hasId "sites_tbl") doc = Some table →
     drop 1 (querySelectorAll (hasTag "tr") table) !! index = Some tr →
     let row := extractRow locationHref (clock index) index tr in
     (domain row = EmptyString → ipAddress row ≠ EmptyString →
      row ∈ extractTable locationHref clock doc) ∧
     (domain row = EmptyString → ipAddress row = EmptyString →
      row ∉ extractTable locationHref clock doc)) ∧
  (∀ row, row ∈ extractTable locationHref clock doc →
          ¬ (domain row = EmptyString ∧ ipAddress row = EmptyString)) ∧
  (∀ visit urls st row,
     scrapeAll visit 0 urls initialState = Ok st → row ∈ allData st →
     ¬ (domain row = EmptyString ∧ ipAddress row = EmptyString)) ∧
  (∀ argv2 env (parse : string → result (option (list unit))) chunks launch visit
     timestamp write close data file rows record,
     dataDir (main argv2 env parse chunks launch visit timestamp write close
                data) !! file = Some rows →
     data !! file ≠ Some rows → record ∈ rows →
     ¬ (record !! "Domain" = Some EmptyString ∧
        record !! "IP_Address" = Some EmptyString)).
Proof.
  split; [|split; [|split]].
  - intros table index tr Htable Htr row. unfold extractTable.
    rewrite Htable. split.
    + intros Hdomain Hip. apply list_elem_of_filter. split.
      * apply keepRow_spec. by intros [_ ?].
      * by apply (elem_of_lookup_imap_2
                    (λ index row,
                       extractRow locationHref (clock index) index row)).
    + intros Hdomain Hip [Hkeep _]%list_elem_of_filter.
      apply keepRow_spec in Hkeep. by apply Hkeep.
  - intros row Hrow.
    by apply keepRow_spec, (extractTable_keepRow locationHref clock doc).
  - intros visit urls st row Hrun Hrow.
    rewrite scrapeAll_spec in Hrun. injection Hrun as <-.
    rewrite allData_tally in Hrow. apply keepRow_spec.
    by apply outcomes_keepRow in Hrow.
  - intros argv2 env parse chunks launch visit timestamp write close data
      file rows record Hfile Hnew Hrecord.
    destruct (main_dataDir argv2 env parse chunks launch visit timestamp
                write close data)
      as [Hsame|(c & urls & st & _ & _ & Hrun & _ & Hdir)].
    { by rewrite Hsame in Hfile. }
    rewrite Hdir in Hfile.
    destruct (decide (file = outputFileName c timestamp)) as [->|Hother];
      [|by rewrite lookup_insert_ne in Hfile].
    rewrite lookup_insert_eq in Hfile. injection Hfile as <-.
    apply list_elem_of_fmap in Hrecord as (row & -> & Hrow).
    rewrite scrapeAll_spec in Hrun. injection Hrun as <-.
    rewrite allData_tally in Hrow. apply outcomes_keepRow in Hrow.
    apply keepRow_spec in Hrow.
    replace (toRecord row !! "Domain") with (Some (domain row)) by done.
    replace (toRecord row !! "IP_Address") with (Some (ipAddress row)) by done.
    intros [[= ?] [= ?]]. by apply Hrow.
Qed.

(** On the sample page: the row with only an IP address is kept, the row
    with neither domain nor IP address is dropped. *)
Lemma empty_rows_are_dropped_witness :
  extractRow "https://myip.ms/browse/sites/1" "2024-01-01T00:00:00.000Z" 1
    ipOnlyRow
  ∈ extractTable (locationHref goodVisit) (clock goodVisit)
      (page [exampleRow; ipOnlyRow; blankRow]) ∧
  extractRow "https://myip.ms/browse/sites/1" "2024-01-01T00:00:00.000Z" 2
    blankRow
  ∉ extractTable (locationHref goodVisit) (clock goodVisit)
      (page [exampleRow; ipOnlyRow; blankRow]).
Proof.
  destruct (empty_rows_are_dropped (locationHref goodVisit) (clock goodVisit)
              (page [exampleRow; ipOnlyRow; blankRow])) as (Hrows & _).
  split.
  - by apply (Hrows (Element "table" "sites_tbl" EmptyString
                       [headerRow; exampleRow; ipOnlyRow; blankRow])
                1%nat ipOnlyRow).
  - by apply (Hrows (Element "table" "sites_tbl" EmptyString
                       [headerRow; exampleRow; ipOnlyRow; blankRow])
                2%nat blankRow).
Defined.

End ChunkRunner.

(** ** The Consolidator *)

Section Consolidator.

Import consolidate_data.

Implicit Types (k : string) (r : record) (m : list (string * record)).

Lemma mapGet_mapSet_eq k r m : mapGet k (mapSet k r m) = Some r.
Proof.
  induction m as [|[k' r'] m IH]; simpl.
  - by rewrite String.eqb_refl.
  - destruct (String.eqb_spec k' k) as [->|]; simpl.
    + by rewrite String.eqb_refl.
    + by destruct (String.eqb_spec k' k).
Qed.

Lemma mapGet_mapSet_ne k k' r m :
  k ≠ k' → mapGet k' (mapSet k r m) = mapGet k' m.
Proof.
  intros Hne. induction m as [|[k0 r0] m IH]; simpl.
  - by destruct (String.eqb_spec k k').
  - destruct (String.eqb_spec k0 k) as [->|]; simpl.
    + by destruct (String.eqb_spec k k').
    + by destruct (String.eqb_spec k0 k').
Qed.

Lemma mapGet_None k m : k ∉ m.*1 → mapGet k m = None.
Proof.
  induction m as [|[k' r'] m IH]; [done|]. simpl.
  intros [Hne Hnotin]%not_elem_of_cons.
  destruct (String.eqb_spec k' k); [done|by apply IH].
Qed.

Lemma elem_of_mapSet_keys k k' r m :
  k' ∈ (mapSet k r m).*1 → k' = k ∨ k' ∈ m.*1.
Proof.
  induction m as [|[k0 r0] m IH]; simpl.
  - intros ?%list_elem_of_singleton. by left.
  - destruct (String.eqb_spec k0 k) as [->|]; simpl.
    + intros [->|?]%elem_of_cons; [by left|right; by right].
    + intros [->|Hin]%elem_of_cons; [right; by left|].
      destruct (IH Hin); [by left|right; by right].
Qed.

Lemma keyed_mapSet r m : keyed m → keyed (mapSet (keyOf r) r m).
Proof.
  intros [Hkeys Hrecords]. split.
  - clear Hrecords. induction m as [|[k0 r0] m IH]; simpl.
    + apply NoDup_singleton.
    + apply NoDup_cons in Hkeys as [Hnotin Hkeys].
      destruct (String.eqb_spec k0 (keyOf r)) as [<-|Hne]; simpl.
      * by apply NoDup_cons.
      * apply NoDup_cons. split; [|by apply IH].
        intros [->|?]%elem_of_mapSet_keys; done.
  - clear Hkeys. induction Hrecords as [|[k0 r0] m Hk0 Hm IH]; simpl.
    + by constructor.
    + destruct (String.eqb_spec k0 (keyOf r)); by constructor.
Qed.

Lemma keyed_dedupStep r m : keyed m → keyed (dedupStep m r).
Proof.
  intros Hm. unfold dedupStep.
  destruct (replaces r _); [by apply keyed_mapSet|done].
Qed.

Lemma keyed_fold (data : list record) m :
  keyed m → keyed (fold_left dedupStep data m).
Proof.
  revert m. induction data as [|r data IH]; intros m Hm; [done|].
  simpl. by apply IH, keyed_dedupStep.
Qed.

(** The values of the [Map] that have the key [k]: the one stored under
    [k], if any. *)
Lemma filter_keyed k m :
  keyed m → filter (λ r, keyOf r = k) m.*2 = option_list (mapGet k m).
Proof.
  induction m as [|[k0 r0] m IH]; intros [Hkeys Hrecords]; [done|].
  apply NoDup_cons in Hkeys as [Hnotin Hkeys].
  apply Forall_cons in Hrecords as [Hk0 Hrecords]. simpl in Hk0.
  cbn [fmap list_fmap snd mapGet]. rewrite filter_cons, Hk0.
  rewrite IH by done.
  destruct (String.eqb_spec k0 k) as [->|Hne].
  - rewrite decide_True by done. by rewrite mapGet_None.
  - by rewrite decide_False.
Qed.

Lemma mapGet_dedupStep k r m :
  mapGet k (dedupStep m r) = pick k (mapGet k m) r.
Proof.
  unfold dedupStep, pick.
  destruct (decide (keyOf r = k)) as [<-|Hne].
  - destruct (replaces r _); [apply mapGet_mapSet_eq|done].
  - destruct (replaces r _); [by apply mapGet_mapSet_ne|done].
Qed.

Lemma mapGet_fold k (data : list record) m :
  mapGet k (fold_left dedupStep data m)
  = fold_left (pick k) data (mapGet k m).
Proof.
  revert m. induction data as [|r data IH]; intros m; [done|].
  simpl. by rewrite IH, mapGet_dedupStep.
Qed.

Lemma filter_columns k (records : list record) :
  filter (λ cols, columnsKey cols = k) (columns <$> records)
  = columns <$> filter (λ r, keyOf r = k) records.
Proof.
  induction records as [|r records IH]; [done|].
  cbn [fmap list_fmap]. rewrite !filter_cons.
  change (columnsKey (columns r)) with (keyOf r).
  rewrite IH. by destruct (decide (keyOf r = k)).
Qed.

(** The output holds at most one row for a key: the row that the fold
    over the records picks for it. *)
Lemma deduplicateData_key k (data : list record) :
  filter (λ cols, columnsKey cols = k) (columns <$> deduplicateData data)
  = option_list (columns <$> fold_left (pick k) data None).
Proof.
  unfold deduplicateData.
  rewrite filter_columns, filter_keyed.
  - rewrite mapGet_fold. simpl. by destruct (fold_left _ _ _).
  - apply keyed_fold. split; [apply NoDup_nil_2|constructor].
Qed.

Lemma keyed_values m : keyed m → keyOf <$> m.*2 = m.*1.
Proof.
  intros [_ Hrecords].
  induction Hrecords as [|[k r] m Hk _ IH]; [done|].
  rewrite !fmap_cons, IH. simpl in *. by rewrite Hk.
Qed.

Lemma elem_of_mapSet_values k r r' m :
  r' ∈ (mapSet k r m).*2 → r' = r ∨ r' ∈ m.*2.
Proof.
  induction m as [|[k0 r0] m IH]; simpl.
  - intros ?%list_elem_of_singleton. by left.
  - destruct (String.eqb_spec k0 k) as [->|]; simpl.
    + intros [->|?]%elem_of_cons; [by left|right; by right].
    + intros [->|Hin]%elem_of_cons; [right; by left|].
      destruct (IH Hin); [by left|right; by right].
Qed.

Lemma length_mapSet k r m : (length (mapSet k r m) ≤ S (length m))%nat.
Proof.
  induction m as [|[k0 r0] m IH]; simpl; [lia|].
  destruct (String.eqb k0 k); simpl; lia.
Qed.

Lemma fold_dedupStep_values (data : list record) m r :
  r ∈ (fold_left dedupStep data m).*2 → r ∈ m.*2 ∨ r ∈ data.
Proof.
  revert m. induction data as [|x data IH]; intros m; [by left|].
  simpl. intros [Hin|Hin]%IH; [|right; by right].
  unfold dedupStep in Hin. destruct (replaces x _); [|by left].
  apply elem_of_mapSet_values in Hin as [->|Hin]; [right; by left|by left].
Qed.

Lemma length_fold_dedupStep (data : list record) m :
  (length (fold_left dedupStep data m) ≤ length m + length data)%nat.
Proof.
  revert m. induction data as [|x data IH]; intros m; simpl; [lia|].
  etrans; [apply IH|]. unfold dedupStep.
  destruct (replaces x _); [|lia].
  pose proof (length_mapSet (keyOf x) x m). lia.
Qed.

Lemma keyed_deduplicateData (data : list record) :
  keyed (fold_left dedupStep data []).
Proof. apply keyed_fold. split; [apply NoDup_nil_2|constructor]. Qed.

Lemma NoDup_deduplicateData (data : list record) :
  NoDup (keyOf <$> deduplicateData data).
Proof.
  unfold deduplicateData.
  rewrite keyed_values by apply keyed_deduplicateData.
  apply keyed_deduplicateData.
Qed.

Lemma elem_of_deduplicateData_input (data : list record) r :
  r ∈ deduplicateData data → r ∈ data.
Proof.
  intros [Hin|Hin]%fold_dedupStep_values; [|done].
  by apply elem_of_nil in Hin.
Qed.


(** The records kept for the key [k]. *)
Lemma deduplicateData_kept k (data : list record) :
  filter (λ r, keyOf r = k) (deduplicateData data)
  = option_list (fold_left (pick k) data None).
Proof.
  unfold deduplicateData.
  rewrite filter_keyed by apply keyed_deduplicateData.
  by rewrite mapGet_fold.
Qed.

Lemma columns_readFile (file : string) (rows : list (gmap string string)) :
  columns <$> readFile file rows = rows.
Proof.
  unfold readFile. rewrite <- list_fmap_compose. apply list_fmap_id.
Qed.


(** *** The master file *)

Lemma lookup_writeRecord (header : gset string) r (h : string) :
  writeRecord header r !! h
  = if decide (h ∈ header) then Some (default EmptyString (columns r !! h))
    else None.
Proof.
  unfold writeRecord. destruct (decide (h ∈ header)) as [Hin|Hout].
  - apply lookup_set_to_map; [naive_solver|]. by exists h.
  - apply eq_None_not_Some. intros [v Hv].
    apply lookup_set_to_map in Hv as (y & Hy & [= -> _]); naive_solver.
Qed.

Lemma elem_of_allHeaders (data : list record) (h : string) :
  h ∈ allHeaders data ↔
  JS.startsWith h "_" = false ∧ ∃ r, r ∈ data ∧ is_Some (columns r !! h).
Proof.
  unfold allHeaders. rewrite elem_of_union_list. split.
  - intros (X & HX & Hh). apply list_elem_of_fmap in HX as (r & -> & Hr).
    apply elem_of_filter in Hh as [Hplain Hdom].
    split; [done|]. exists r. split; [done|]. by apply elem_of_dom.
  - intros (Hplain & r & Hr & Hcol). eexists. split.
    + apply list_elem_of_fmap. by exists r.
    + apply elem_of_filter. split; [done|]. by apply elem_of_dom.
Qed.

(** Records that all have the columns of one header, none of them
    starting with [_], are written as they are. *)
Lemma saveToCSV_same_columns (header : gset string) (data : list record) :
  (∀ r, r ∈ data → dom (columns r) = header) →
  (∀ h, h ∈ header → JS.startsWith h "_" = false) →
  saveToCSV data = columns <$> data.
Proof.
  intros Hdom Hplain. unfold saveToCSV.
  apply list_fmap_ext. intros i r Hr%list_elem_of_lookup_2.
  apply map_eq. intros h. rewrite lookup_writeRecord.
  destruct (decide (h ∈ allHeaders data)) as [Hin|Hout].
  - apply elem_of_allHeaders in Hin as (_ & r' & Hr' & Hcol).
    apply elem_of_dom in Hcol. rewrite (Hdom r' Hr'), <- (Hdom r Hr) in Hcol.
    apply elem_of_dom in Hcol as [v ->]. done.
  - symmetry. apply not_elem_of_dom. intros Hcol. apply Hout.
    apply elem_of_allHeaders. split.
    + apply Hplain. by rewrite <- (Hdom r Hr).
    + exists r. split; [done|]. by apply elem_of_dom.
Qed.

(** The record kept for a key, as it is written. *)
Lemma kept_record_written k (kept : list record) r :
  filter (λ r, keyOf r = k) kept = [r] →
  (∀ h v, columns r !! h = Some v → JS.startsWith h "_" = false →
          writeRecord (allHeaders kept) r !! h = Some v) ∧
  (∀ header : gset string,
     (∀ r', r' ∈ kept → dom (columns r') = header) →
     (∀ h, h ∈ header → JS.startsWith h "_" = false) →
     filter (λ cols, columnsKey cols = k) (saveToCSV kept) = [columns r]).
Proof.
  intros Hfilter.
  assert (Hr : r ∈ kept).
  { assert (Hin : r ∈ filter (λ r, keyOf r = k) kept)
      by (rewrite Hfilter; by left).
    by apply list_elem_of_filter in Hin as [_ ?]. }
  split.
  - intros h v Hv Hplain. rewrite lookup_writeRecord, decide_True.
    + by rewrite Hv.
    + apply elem_of_allHeaders. split; [done|]. exists r. by rewrite Hv.
  - intros header Hdom Hplain.
    rewrite (saveToCSV_same_columns header) by done.
    by rewrite filter_columns, Hfilter.
Qed.

(** *** Stamps *)

Lemma matchHere_truthy (a : atom) (pat : list atom) (s t : string) :
  matchHere (a :: pat) s = Some t → JS.truthy t = true.
Proof.
  simpl. destruct s as [|c s]; [done|].
  destruct (accepts a c); [|done].
  destruct (matchHere pat s); simpl; [|done]. by intros [= <-].
Qed.

Lemma firstMatch_truthy (a : atom) (pat : list atom) (s t : string) :
  firstMatch (a :: pat) s = Some t → JS.truthy t = true.
Proof.
  induction s as [|c s IH]; cbn [firstMatch].
  - done.
  - destruct (matchHere (a :: pat) (String c s)) eqn:Hhere; [|done].
    intros [= <-]. by apply matchHere_truthy in Hhere.
Qed.

Lemma extractTimestamp_truthy (file t : string) :
  extractTimestamp file = Some t → JS.truthy t = true.
Proof. apply firstMatch_truthy. Qed.

Lemma gt_irrefl (t : string) : JS.gt t t = false.
Proof.
  unfold JS.gt. pose proof (String.compare_antisym t t) as Hsym.
  by destruct (String.compare t t).
Qed.

Lemma gt_asym (a b : string) : JS.gt a b = true → JS.gt b a = false.
Proof.
  unfold JS.gt. rewrite (String.compare_antisym a b).
  by destruct (String.compare b a).
Qed.

Lemma replaces_stamp r r' (present : option record) :
  _source_timestamp r = _source_timestamp r' →
  replaces r present = replaces r' present.
Proof. intros Hstamp. destruct present; [|done]. simpl. by rewrite Hstamp. Qed.

(** The fold over the records of one file: only the first record with
    the key can be stored, the others carry the same stamp. *)
Lemma fold_pick_readFile k (file t : string)
    (rows : list (gmap string string)) (present : option record) :
  extractTimestamp file = Some t →
  fold_left (pick k) (readFile file rows) present
  = match firstWith k rows with
    | None => present
    | Some cols =>
        let r := {| columns := cols;
                    _source_file := Some file;
                    _source_timestamp := Some t |} in
        if replaces r present then Some r else present
    end.
Proof.
  intros Hstamp. pose proof (extractTimestamp_truthy _ _ Hstamp) as Htruthy.
  revert present. induction rows as [|row rows IH]; intros present; [done|].
  unfold readFile, firstWith in *. cbn [fmap list_fmap fold_left].
  rewrite filter_cons, Hstamp in *. unfold pick at 2.
  change (keyOf {| columns := row; _source_file := Some file;
                   _source_timestamp := Some t |})
    with (columnsKey row).
  destruct (decide (columnsKey row = k)) as [Hkey|Hkey]; [|apply IH].
  cbn [head]. cbv zeta.
  set (r := {| columns := row; _source_file := Some file;
               _source_timestamp := Some t |}).
  rewrite IH.
  destruct (head (filter _ rows)) as [cols|]; [|done]. cbv zeta.
  set (r' := {| columns := cols; _source_file := Some file;
                _source_timestamp := Some t |}).
  rewrite (replaces_stamp r' r) by done.
  destruct (replaces r present) eqn:Hreplaces.
  - simpl. by rewrite Htruthy, gt_irrefl.
  - by rewrite Hreplaces.
Qed.

Lemma main_two_files (file1 file2 : string)
    (rows1 rows2 : list (gmap string string)) :
  JS.endsWith file1 ".csv" = true → JS.endsWith file2 ".csv" = true →
  main [(file1, rows1); (file2, rows2)]
  = Some (saveToCSV
            (deduplicateData (readFile file1 rows1 ++ readFile file2 rows2))).
Proof.
  intros Hfile1 Hfile2. unfold main.
  rewrite !filter_cons, filter_nil. cbn [fst snd].
  rewrite !decide_True by done. cbn [length Nat.eqb flat_map fst snd].
  by rewrite app_nil_r.
Qed.

Lemma firstWith_elem_of k (rows : list (gmap string string))
    (cols : gmap string string) :
  firstWith k rows = Some cols → cols ∈ rows ∧ columnsKey cols = k.
Proof.
  unfold firstWith. intros Hhead%head_Some_elem_of.
  by apply list_elem_of_filter in Hhead as [??].
Qed.

(** C2, as the specification states it, does not hold for two result sets
    stamped in the same second.  Chunk 1 is run at 00:00:00.100 and again
    at 00:00:00.900; both output files hold a row with the key
    [5-foo.com]; the Consolidator extracts the same stamp, without the
    milliseconds, from both names, and keeps the row of the file it reads
    first, here the earlier one. *)
Lemma same_second_keeps_first_read :
  earlier earlyRun lateRun ∧
  outputOf earlyRun = "data_chunk_0001_2024-01-01T00-00-00-100Z.csv" ∧
  outputOf lateRun = "data_chunk_0001_2024-01-01T00-00-00-900Z.csv" ∧
  extractTimestamp (outputOf earlyRun) = Some "2024-01-01T00-00-00" ∧
  extractTimestamp (outputOf lateRun) = Some "2024-01-01T00-00-00" ∧
  columnsKey (fooRow "Earlier owner") = "5-foo.com" ∧
  columnsKey (fooRow "Later owner") = "5-foo.com" ∧
  main [(outputOf earlyRun, [fooRow "Earlier owner"]);
        (outputOf lateRun, [fooRow "Later owner"])]
  = Some [fooRow "Earlier owner"].
Proof. repeat split; vm_compute; reflexivity. Qed.

(** C2, amended. Take two result sets whose file names carry stamps that
    the Consolidator tells apart, that is stamps that differ once their
    milliseconds are dropped, and let the later set hold a row with the
    key [k].  Whatever the order in which the two files are read, the
    consolidation keeps exactly one record with the key [k], and it is a
    row of the later set (the first one with this key).  The master file
    holds this record under its header: every column of the row that does
    not start with [_] has the value of the row.  And when all the rows of
    the two files have the columns of one header, none of them starting
    with [_] (so for two files of the worker), the master file holds
    exactly one row with the key [k], and it is this row as it is. *)
Theorem later_stamp_wins (file1 file2 t1 t2 k : string)
    (rows1 rows2 : list (gmap string string)) (winner : gmap string string)
    (listing : list (string * list (gmap string string))) :
  JS.endsWith file1 ".csv" = true → JS.endsWith file2 ".csv" = true →
  extractTimestamp file1 = Some t1 → extractTimestamp file2 = Some t2 →
  JS.gt t2 t1 = true →
  firstWith k rows2 = Some winner →
  listing = [(file1, rows1); (file2, rows2)] ∨
  listing = [(file2, rows2); (file1, rows1)] →
  let later := {| columns := winner;
                  _source_file := Some file2;
                  _source_timestamp := Some t2 |} in
  ∃ kept,
    main listing = Some (saveToCSV kept) ∧
    filter (λ r, keyOf r = k) kept = [later] ∧
    winner ∈ rows2 ∧
    (∀ h v, winner !! h = Some v → JS.startsWith h "_" = false →
            writeRecord (allHeaders kept) later !! h = Some v) ∧
    (∀ header : gset string,
       (∀ cols, cols ∈ rows1 ++ rows2 → dom cols = header) →
       (∀ h, h ∈ header → JS.startsWith h "_" = false) →
       filter (λ cols, columnsKey cols = k) (saveToCSV kept) = [winner]).
Proof.
  intros Hfile1 Hfile2 Ht1 Ht2 Hlater Hwinner Hlisting later.
  pose proof (extractTimestamp_truthy _ _ Ht1) as Htruthy1.
  pose proof (extractTimestamp_truthy _ _ Ht2) as Htruthy2.
  assert (Hrows : ∀ r, r ∈ readFile file1 rows1 ++ readFile file2 rows2 →
                       columns r ∈ rows1 ++ rows2).
  { intros r Hr. rewrite <- (columns_readFile file1 rows1),
      <- (columns_readFile file2 rows2), <- fmap_app.
    by apply list_elem_of_fmap_2. }
  assert (Hkept : ∀ data,
            (∀ r, r ∈ data → r ∈ readFile file1 rows1 ++ readFile file2 rows2) →
            filter (λ r, keyOf r = k) (deduplicateData data) = [later] →
            filter (λ r, keyOf r = k) (deduplicateData data) = [later] ∧
            winner ∈ rows2 ∧
            (∀ h v, winner !! h = Some v → JS.startsWith h "_" = false →
                    writeRecord (allHeaders (deduplicateData data)) later !! h
                    = Some v) ∧
            (∀ header : gset string,
               (∀ cols, cols ∈ rows1 ++ rows2 → dom cols = header) →
               (∀ h, h ∈ header → JS.startsWith h "_" = false) →
               filter (λ cols, columnsKey cols = k)
                 (saveToCSV (deduplicateData data)) = [winner])).
  { intros data Hdata Hfilter.
    destruct (kept_record_written k _ later Hfilter) as [Hwritten Hsame].
    split; [done|]. split; [by apply (firstWith_elem_of k)|].
    split; [exact Hwritten|].
    intros header Hdom Hplain. apply (Hsame header); [|done].
    intros r Hr. by apply Hdom, Hrows, Hdata, elem_of_deduplicateData_input. }
  destruct Hlisting as [-> | ->]; eexists;
    (split; [by apply main_two_files|]); apply Hkept.
  - done.
  - rewrite deduplicateData_kept, fold_left_app,
      (fold_pick_readFile k file1 t1), (fold_pick_readFile k file2 t2),
      ?Hwinner by done; cbv zeta.
    destruct (firstWith k rows1) as [cols1|]; [|done].
    simpl. by rewrite Htruthy1, Htruthy2, Hlater, orb_true_r.
  - intros r Hr. apply elem_of_app. apply elem_of_app in Hr. tauto.
  - rewrite deduplicateData_kept, fold_left_app,
      (fold_pick_readFile k file1 t1), (fold_pick_readFile k file2 t2),
      ?Hwinner by done; cbv zeta.
    simpl. destruct (firstWith k rows1) as [cols1|]; [|done].
    simpl. by rewrite Htruthy1, Htruthy2, (gt_asym t2 t1).
Qed.

(** The run of 00:00:01.000 against the run of 00:00:00.100. *)
Lemma later_stamp_wins_witness :
  ∃ kept,
    main [(outputOf nextSecondRun, [fooRow "Later owner"]);
          (outputOf earlyRun, [fooRow "Earlier owner"])]
    = Some (saveToCSV kept) ∧
    filter (λ r, keyOf r = "5-foo.com") kept
    = [{| columns := fooRow "Later owner";
          _source_file := Some (outputOf nextSecondRun);
          _source_timestamp := Some "2024-01-01T00-00-01" |}] ∧
    filter (λ cols, columnsKey cols = "5-foo.com") (saveToCSV kept)
    = [fooRow "Later owner"].
Proof.
  destruct (later_stamp_wins (outputOf earlyRun) (outputOf nextSecondRun)
              "2024-01-01T00-00-00" "2024-01-01T00-00-01" "5-foo.com"
              [fooRow "Earlier owner"] [fooRow "Later owner"]
              (fooRow "Later owner")
              [(outputOf nextSecondRun, [fooRow "Later owner"]);
               (outputOf earlyRun, [fooRow "Earlier owner"])])
    as (kept & Hmain & Hkept & _ & _ & Hsame); try reflexivity.
  { by right. }
  exists kept. split; [done|]. split; [done|].
  apply (Hsame (dom (fooRow "Later owner"))).
  - intros cols [->|[->|[]%elem_of_nil]%elem_of_cons]%elem_of_cons;
      reflexivity.
  - intros h Hh. apply elem_of_dom in Hh as [v Hv].
    unfold fooRow, worker_script.toRecord in Hv.
    apply elem_of_list_to_map_2 in Hv.
    repeat (apply elem_of_cons in Hv as [[= -> _]|Hv]; [reflexivity|]).
    by apply elem_of_nil in Hv.
Defined.

(** C10. The key under which the Consolidator stores a record is its
    [UniqueID] column when the record has one that is not empty, and
    otherwise [Rank + "-" + Domain] as they are (a missing column reads
    [undefined]), with no replacement of white space.  The files of [worker_script.js] have no [UniqueID]
    column (theirs is [Unique_ID]): for a row extracted by the worker the
    key is [rank-domain], and it differs from the identity computed at
    extraction exactly when the rank or the domain holds white space. *)
Theorem keyOf_column_or_plain (r : record) :
  (∀ u, columns r !! "UniqueID" = Some u → u ≠ EmptyString → keyOf r = u) ∧
  (columns r !! "UniqueID" = None ∨
   columns r !! "UniqueID" = Some EmptyString →
   keyOf r = JS.template (columns r !! "Rank") +:+ "-" +:+
             JS.template (columns r !! "Domain")) ∧
  (∀ locationHref now index tr,
     let row := worker_script.extractRow locationHref now index tr in
     columns r = worker_script.toRecord row →
     keyOf r = worker_script.rank row +:+ "-" +:+ worker_script.domain row ∧
     (keyOf r ≠ worker_script.uniqueId row ↔
      hasSpace (worker_script.rank row) = true ∨
      hasSpace (worker_script.domain row) = true)).
Proof.
  split; [|split].
  - intros u Hu Hne. unfold keyOf. rewrite Hu. simpl.
    by destruct u.
  - intros [Hu|Hu]; unfold keyOf; by rewrite Hu.
  - intros locationHref now index tr row Hcolumns.
    assert (Hkey : keyOf r = worker_script.rank row +:+ "-" +:+
                             worker_script.domain row).
    { unfold keyOf. rewrite Hcolumns.
      replace (worker_script.toRecord row !! "UniqueID")
        with (@None string) by done.
      replace (worker_script.toRecord row !! "Rank")
        with (Some (worker_script.rank row)) by done.
      by replace (worker_script.toRecord row !! "Domain")
        with (Some (worker_script.domain row)) by done. }
    split; [done|]. rewrite Hkey.
    pose proof (uniqueId_spec locationHref now index tr) as Hid.
    cbv zeta in Hid. fold row in Hid. rewrite Hid.
    set (s := worker_script.rank row +:+ "-" +:+ worker_script.domain row).
    assert (Hspace : hasSpace s
                     = hasSpace (worker_script.rank row)
                       || hasSpace (worker_script.domain row)).
    { unfold s. rewrite !hasSpace_append. simpl. done. }
    rewrite <- orb_true_iff, <- Hspace. unfold JS.replaceSpaceRuns. split.
    + intros Hne. destruct (hasSpace s) eqn:Hs; [done|].
      by rewrite replaceSpaceRuns_from_clean in Hne.
    + intros Hs Heq.
      pose proof (hasSpace_replaceSpaceRuns_from false s) as Hnone.
      rewrite <- Heq in Hnone. congruence.
Qed.

(** A row whose domain cell reads [foo  bar.com]: the key of its record
    keeps the two spaces, its identity has one hyphen for them. *)
Lemma keyOf_column_or_plain_witness :
  let row := worker_script.extractRow "https://myip.ms/browse/sites/1"
               "2024-01-01T00:00:00.000Z" 0 spacedRow in
  let r := {| columns := worker_script.toRecord row;
              _source_file := None;
              _source_timestamp := None |} in
  keyOf r = "5-foo  bar.com" ∧ worker_script.uniqueId row = "5-foo-bar.com" ∧
  keyOf r ≠ worker_script.uniqueId row.
Proof.
  intros row r.
  destruct (keyOf_column_or_plain r) as (_ & _ & Hrow).
  destruct (Hrow "https://myip.ms/browse/sites/1" "2024-01-01T00:00:00.000Z"
              0%nat spacedRow eq_refl) as [Hkey Hdiffers].
  split; [by rewrite Hkey|]. split; [reflexivity|].
  apply Hdiffers. by right.
Defined.

End Consolidator.

(** ** More on the Partitioner *)

Section PartitionerMore.

Import url_generator.

(** Whenever the Partitioner returns with a quota of at least 1, it
    returns the chunks of its URL list. *)
Lemma partition_chunksOf (fuel : nat) (totalPages quota : Z)
    (chunks : list (list string)) :
  1 ≤ quota → partition fuel totalPages quota = Some chunks →
  chunks = chunksOf (Z.to_nat totalPages) (Z.to_nat quota)
             (generateUrlList totalPages).
Proof.
  intros Hq Hrun.
  set (urls := generateUrlList totalPages).
  assert (Hlen : length urls = Z.to_nat totalPages)
    by apply length_generateUrlList.
  apply (chunkUrls_loop_more_fuel _ (fuel + S (length urls))) in Hrun;
    [|lia].
  unfold partition, chunkUrls in Hrun. fold urls in Hrun.
  replace quota with (Z.of_nat (Z.to_nat quota)) in Hrun by lia.
  change 0 with (Z.of_nat 0) in Hrun.
  rewrite chunkUrls_loop_spec in Hrun by lia.
  rewrite drop_0, Nat.sub_0_r, Hlen in Hrun. by injection Hrun as <-.
Qed.

Lemma lookup_chunksOf_lt {A} (fuel q : nat) (l : list A) (k : nat) :
  (1 ≤ q)%nat → (length l ≤ fuel)%nat → (k * q < length l)%nat →
  chunksOf fuel q l !! k = Some (take q (drop (k * q) l)).
Proof.
  intros Hq. revert l k.
  induction fuel as [|fuel IH]; intros l k Hl Hk; [lia|].
  destruct l as [|x l]; [simpl in Hk; lia|].
  change (chunksOf (S fuel) q (x :: l))
    with (take q (x :: l) :: chunksOf fuel q (drop q (x :: l))).
  destruct k as [|k]; [done|].
  cbn [lookup list_lookup]. rewrite IH.
  - by rewrite drop_drop.
  - rewrite length_drop. simpl in *. lia.
  - rewrite length_drop. simpl in *. lia.
Qed.

(** The text of a page URL: the page number between two fixed parts. *)
Lemma pageUrl_text (page : Z) :
  pageUrl page
  = "https://myip.ms/browse/sites/" +:+ JS.toString page +:+
    "/rankii/15000000/ipID/23.227.38.0/ipIDii/23.227.38.255".
Proof. reflexivity. Qed.

Lemma pageUrl_inj (a b : Z) : 0 ≤ a → 0 ≤ b → pageUrl a = pageUrl b → a = b.
Proof.
  intros Ha Hb. rewrite !pageUrl_text. intros Heq.
  apply (inj (String.app _)) in Heq. apply append_inj_r in Heq.
  apply (f_equal numberOf) in Heq.
  rewrite !numberOf_toString in Heq by done. by injection Heq.
Qed.

(** With a quota of at least 1 and fuel above the number of pages, the
    Partitioner returns. *)
Lemma partition_returns (fuel : nat) (totalPages quota : Z) :
  1 ≤ quota → (Z.to_nat totalPages < fuel)%nat →
  partition fuel totalPages quota
  = Some (chunksOf (Z.to_nat totalPages) (Z.to_nat quota)
            (generateUrlList totalPages)).
Proof.
  intros Hq Hfuel. unfold partition, chunkUrls.
  set (urls := generateUrlList totalPages).
  assert (Hlen : length urls = Z.to_nat totalPages)
    by apply length_generateUrlList.
  replace quota with (Z.of_nat (Z.to_nat quota)) at 1 by lia.
  change 0 with (Z.of_nat 0).
  rewrite chunkUrls_loop_spec by lia.
  by rewrite drop_0, Nat.sub_0_r, Hlen.
Qed.

(** X3. Where a page goes: with a quota of at least 1, the Partitioner
    returns (for any fuel above the number of pages, the same chunks);
    the URL of page [i] (from 1 to [totalPages]) is at position
    [(i-1) mod quota] of chunk number [(i-1) / quota + 1], and there are
    [ceil (totalPages / quota)] chunks. *)
Theorem url_position (totalPages quota i : Z) :
  1 ≤ quota → 1 ≤ i ≤ totalPages →
  ∃ chunks,
    (∀ fuel, (Z.to_nat totalPages < fuel)%nat →
             partition fuel totalPages quota = Some chunks) ∧
    (∃ chunk, chunks !! Z.to_nat ((i - 1) / quota) = Some chunk ∧
              chunk !! Z.to_nat ((i - 1) mod quota) = Some (pageUrl i)) ∧
    Z.of_nat (length chunks) = (totalPages + quota - 1) / quota.
Proof.
  intros Hq Hi.
  set (n := Z.to_nat totalPages). set (q := Z.to_nat quota).
  set (urls := generateUrlList totalPages).
  exists (chunksOf n q urls).
  split; [intros fuel Hfuel; by apply partition_returns|].
  assert (Hlen : length urls = n) by apply length_generateUrlList.
  assert (Hq' : (1 ≤ q)%nat) by (unfold q; lia).
  pose proof (Z.div_mod (i - 1) quota ltac:(lia)) as Hdiv.
  pose proof (Z.mod_pos_bound (i - 1) quota ltac:(lia)) as Hmod.
  pose proof (Z.div_pos (i - 1) quota ltac:(lia) ltac:(lia)) as Hquot.
  set (k := Z.to_nat ((i - 1) / quota)) in *.
  set (j := Z.to_nat ((i - 1) mod quota)) in *.
  assert (Hkj : (k * q + j = Z.to_nat (i - 1))%nat) by (unfold k, j, q; nia).
  split.
  - exists (take q (drop (k * q) urls)). split.
    + apply lookup_chunksOf_lt; [done|lia|]. rewrite Hlen. unfold n. lia.
    + rewrite lookup_take_lt by (unfold j, q; lia).
      rewrite lookup_drop, Hkj. unfold urls.
      rewrite generateUrlList_spec, list_lookup_fmap.
      rewrite lookup_seqZ_lt by lia.
      cbn [fmap option_fmap option_map].
      by replace (1 + Z.of_nat (Z.to_nat (i - 1))) with i by lia.
  - pose proof (length_chunksOf n q urls Hq' ltac:(lia)) as [Hup Hlow].
    rewrite Hlen in Hup, Hlow.
    apply (Z.div_unique_pos _ _ _
      (totalPages + quota - 1 - Z.of_nat (length (chunksOf n q urls)) * quota));
      unfold n, q in *; nia.
Qed.

(** Page 120 of 120, with a quota of 50: position 19 of the third chunk. *)
Lemma url_position_witness :
  ∃ chunks chunk,
    partition 200 120 50 = Some chunks ∧
    chunks !! 2%nat = Some chunk ∧ chunk !! 19%nat = Some (pageUrl 120) ∧
    Z.of_nat (length chunks) = 3.
Proof.
  destruct (url_position 120 50 120)
    as (chunks & Hrun & (chunk & Hk & Hj) & Hcount); [lia|lia|].
  exists chunks, chunk. split; [apply Hrun; lia|]. by split.
Defined.

(** X4. No page is assigned twice: whenever the Partitioner returns, the
    URLs of all its chunks, taken together, are pairwise different. *)
Theorem no_page_assigned_twice (fuel : nat) (totalPages quota : Z)
    (chunks : list (list string)) :
  partition fuel totalPages quota = Some chunks → NoDup (concat chunks).
Proof.
  intros Hrun.
  destruct (Z.le_gt_cases 1 quota) as [Hq|Hq].
  - apply partition_chunksOf in Hrun; [|done]. subst chunks.
    rewrite concat_chunksOf; [|lia|by rewrite length_generateUrlList].
    rewrite generateUrlList_spec.
    apply NoDup_fmap_2_strong; [|apply NoDup_seqZ].
    intros a b [Ha _]%elem_of_seqZ [Hb _]%elem_of_seqZ.
    apply pageUrl_inj; lia.
  - destruct (Z.le_gt_cases 1 totalPages) as [Hp|Hp].
    + by rewrite partition_no_quota in Hrun by lia.
    + destruct fuel as [|fuel]; [done|].
      rewrite partition_no_pages in Hrun by lia. injection Hrun as <-.
      apply NoDup_nil_2.
Qed.

Lemma no_page_assigned_twice_witness :
  ∃ chunks, partition 20 7 3 = Some chunks ∧ NoDup (concat chunks).
Proof.
  destruct (partition 20 7 3) as [chunks|] eqn:Hrun; [|by vm_compute in Hrun].
  exists chunks. split; [done|].
  by apply (no_page_assigned_twice 20 7 3).
Defined.

(** X5. [chunkUrls] on any list.  The empty list gives no chunk, whatever
    the chunk size (even 0 or negative).  With a chunk size of at least 1
    the loop ends within [length urls] turns; the chunks put end to end
    are the list; no chunk is empty or longer than the chunk size; and a
    list that fits in one chunk comes back as that one chunk. *)
Theorem chunkUrls_any_list (urls : list string) (chunkSize : Z) :
  (∀ fuel, chunkUrls (S fuel) [] chunkSize = Some []) ∧
  (1 ≤ chunkSize →
   ∃ chunks,
     (∀ fuel, (length urls < fuel)%nat →
              chunkUrls fuel urls chunkSize = Some chunks) ∧
     concat chunks = urls ∧
     Forall (λ chunk, (1 ≤ length chunk ≤ Z.to_nat chunkSize)%nat) chunks ∧
     (urls ≠ [] → Z.of_nat (length urls) ≤ chunkSize → chunks = [urls])).
Proof.
  split; [done|]. intros Hsize.
  set (q := Z.to_nat chunkSize).
  assert (Hq : (1 ≤ q)%nat) by (unfold q; lia).
  exists (chunksOf (length urls) q urls). repeat split.
  - intros fuel Hfuel. unfold chunkUrls.
    replace chunkSize with (Z.of_nat q) by (unfold q; lia).
    change 0 with (Z.of_nat 0).
    rewrite chunkUrls_loop_spec by lia.
    by rewrite drop_0, Nat.sub_0_r.
  - by apply concat_chunksOf.
  - apply Forall_lookup. intros k chunk Hk.
    apply lookup_chunksOf in Hk as [-> Hlt]; [|done..].
    rewrite length_take, length_drop. lia.
  - intros Hne Hfits. destruct urls as [|url urls]; [done|].
    change (chunksOf (length (url :: urls)) q (url :: urls))
      with (take q (url :: urls)
              :: chunksOf (length urls) q (drop q (url :: urls))).
    rewrite take_ge, drop_ge by (simpl in *; lia).
    by destruct (length urls).
Qed.

Lemma chunkUrls_any_list_witness :
  ∃ chunks, chunkUrls 3 ["a"; "b"] 50 = Some chunks ∧ chunks = [["a"; "b"]].
Proof.
  destruct (chunkUrls_any_list ["a"; "b"] 50) as [_ Hchunks].
  destruct (Hchunks ltac:(lia)) as (chunks & Hrun & _ & _ & Hone).
  exists chunks. split; [by apply Hrun; simpl; lia|].
  apply Hone; [done|simpl; lia].
Defined.

End PartitionerMore.

(** ** More on the chunk files *)

Section ChunkFilesMore.

Import url_generator.

Lemma isChunkFile_chunkFileName (chunkNum : Z) :
  isChunkFile (chunkFileName chunkNum) = true.
Proof.
  unfold isChunkFile, chunkFileName. apply andb_true_iff. split.
  - apply prefix_append.
  - change ("chunk_" +:+ ?x +:+ ".txt") with (("chunk_" +:+ x) +:+ ".txt").
    apply endsWith_append.
Qed.

(** A file found after [writeChunks] was there before, or is one of the
    chunks written. *)
Lemma lookup_writeChunks_Some (index : Z) (chunks : list (list string))
    (dir : directory) (file content : string) :
  writeChunks index chunks dir !! file = Some content →
  dir !! file = Some content ∨
  ∃ k chunk, chunks !! k = Some chunk ∧
             file = chunkFileName (index + Z.of_nat k + 1) ∧
             content = JS.join (String "010" EmptyString) chunk.
Proof.
  revert index dir.
  induction chunks as [|first chunks IH]; intros index dir Hfile;
    [by left|].
  cbn [writeChunks] in Hfile. apply IH in Hfile as [Hfile|Hfile].
  - destruct (decide (file = chunkFileName (index + 1))) as [->|Hne].
    + rewrite lookup_insert_eq in Hfile. injection Hfile as <-.
      right. exists 0%nat, first. split; [done|]. split; [|done].
      f_equal. lia.
    + rewrite lookup_insert_ne in Hfile by done. by left.
  - destruct Hfile as (k & chunk & Hk & -> & ->).
    right. exists (S k), chunk. split; [done|]. split; [|done].
    f_equal. lia.
Qed.

(** X2. What [saveChunks] leaves in the [chunks] directory: the manifest;
    under the name of chunk [k+1] the lines of chunk [k]; no other chunk
    file, so that the chunk files of an earlier, longer run are gone; and
    every other file as it was. *)
Theorem saveChunks_files (chunks : list (list string)) (manifest : string)
    (dir : directory) :
  saveChunks chunks manifest dir !! "manifest.json" = Some manifest ∧
  (∀ k chunk, chunks !! k = Some chunk →
     saveChunks chunks manifest dir !! chunkFileName (Z.of_nat k + 1)
     = Some (JS.join (String "010" EmptyString) chunk)) ∧
  (∀ file content,
     isChunkFile file = true →
     saveChunks chunks manifest dir !! file = Some content →
     ∃ k chunk, chunks !! k = Some chunk ∧
                file = chunkFileName (Z.of_nat k + 1) ∧
                content = JS.join (String "010" EmptyString) chunk) ∧
  (∀ file, isChunkFile file = false → file ≠ "manifest.json" →
     saveChunks chunks manifest dir !! file = dir !! file).
Proof.
  split; [apply lookup_insert_eq|]. split; [apply lookup_saveChunks|]. split.
  - intros file content Hchunk Hfile. unfold saveChunks in Hfile.
    rewrite lookup_insert_ne in Hfile by (by intros <-).
    apply lookup_writeChunks_Some in Hfile as [Hfile|Hfile]; [|done].
    apply map_lookup_filter_Some in Hfile as [_ Hnot]. simpl in Hnot.
    congruence.
  - intros file Hchunk Hne. unfold saveChunks.
    rewrite lookup_insert_ne by done.
    rewrite lookup_writeChunks_other.
    + destruct (dir !! file) as [content|] eqn:Hfile.
      * by apply map_lookup_filter_Some.
      * apply map_lookup_filter_None. by left.
    + intros n ->. by rewrite isChunkFile_chunkFileName in Hchunk.
Qed.

(** A directory that still holds chunk 7 of an earlier run and a note:
    after saving one chunk, chunk 7 is gone and the note is still there. *)
Lemma saveChunks_files_witness :
  saveChunks [["u1"; "u2"]] "{}"
    {[ "chunk_0007.txt" := "old"; "notes.md" := "keep" ]} !! "chunk_0007.txt"
  = None ∧
  saveChunks [["u1"; "u2"]] "{}"
    {[ "chunk_0007.txt" := "old"; "notes.md" := "keep" ]} !! "notes.md"
  = Some "keep".
Proof.
  destruct (saveChunks_files [["u1"; "u2"]] "{}"
              {[ "chunk_0007.txt" := "old"; "notes.md" := "keep" ]})
    as (_ & _ & Hchunks & Hother).
  split.
  - destruct (saveChunks _ _ _ !! "chunk_0007.txt") as [content|] eqn:Hfile;
      [|done].
    destruct (Hchunks "chunk_0007.txt" content eq_refl Hfile)
      as (k & chunk & Hk & Hname & _).
    destruct k as [|k]; [by vm_compute in Hname|by destruct k].
  - by rewrite Hother.
Defined.

(** X1. The round trip of a chunk: what the Partitioner writes for chunk
    [k+1] is what the Chunk Runner loads when it is given the number
    padded to four digits, as in the file name. *)
Theorem round_trip_with_padded_number (fuel : nat) (totalPages quota : Z)
    (chunks : list (list string)) (manifest : string) (dir : directory)
    (k : nat) (chunk : list string) :
  partition fuel totalPages quota = Some chunks → chunks !! k = Some chunk →
  worker_script.loadUrlsFromChunk (saveChunks chunks manifest dir)
    (JS.padStart 4 "0" (JS.toString (Z.of_nat k + 1)))
  = Ok chunk.
Proof. apply chunk_round_trip_padded. Qed.

Lemma round_trip_with_padded_number_witness :
  worker_script.loadUrlsFromChunk
    (saveChunks [[pageUrl 1; pageUrl 2; pageUrl 3]; [pageUrl 4]] "{}" ∅)
    "0002"
  = Ok [pageUrl 4].
Proof.
  apply (round_trip_with_padded_number 10 4 3
           [[pageUrl 1; pageUrl 2; pageUrl 3]; [pageUrl 4]] "{}" ∅ 1);
    reflexivity.
Defined.

Lemma split_lines (sep : ascii) (s : string) :
  Forall (λ line, hasChar sep line = false) (JS.split sep s).
Proof.
  induction s as [|c s IH]; cbn [JS.split]; [by repeat constructor|].
  destruct (Ascii.eqb c sep) eqn:Hc; [by constructor|].
  destruct (JS.split sep s) as [|w ws]; [by repeat constructor; simpl; rewrite Hc|].
  apply Forall_cons in IH as [Hw Hws].
  constructor; [|done]. simpl. by rewrite Hc, Hw.
Qed.

(** X6. What [loadUrlsFromChunk] returns.  A result is never empty, and
    its URLs are the lines of the file that are not blank, in order and
    as written (white space around a URL is kept).  So for a file that
    holds the given lines, blank lines and a final line feed do not
    count, and a file of blank lines only is an error. *)
Theorem loadUrlsFromChunk_lines (chunks : directory) (chunkNumber : string) :
  (∀ urls, worker_script.loadUrlsFromChunk chunks chunkNumber = Ok urls →
           urls ≠ [] ∧ Forall isLine urls) ∧
  (∀ lines,
     lines ≠ [] → Forall (λ line, hasChar "010" line = false) lines →
     chunks !! ("chunk_" +:+ chunkNumber +:+ ".txt")
     = Some (JS.join (String "010" EmptyString) lines) →
     worker_script.loadUrlsFromChunk chunks chunkNumber
     = match filter (λ line, JS.trim line ≠ EmptyString) lines with
       | [] => Throw ("No URLs found in chunk file: chunks/chunk_" +:+
                      chunkNumber +:+ ".txt")
       | url :: urls => Ok (url :: urls)
       end).
Proof.
  split.
  - intros urls. unfold worker_script.loadUrlsFromChunk.
    destruct (chunks !! _) as [content|]; [|done].
    destruct (filter _ _) as [|url rest] eqn:Hfilter; [done|].
    simpl. intros [= <-]. split; [done|].
    rewrite <- Hfilter. apply Forall_forall.
    intros line [Hline Hin]%list_elem_of_filter. split; [|done].
    pose proof (split_lines "010" content) as Hlines.
    by eapply Forall_forall in Hlines.
  - intros lines Hne Hlines Hfile.
    unfold worker_script.loadUrlsFromChunk. rewrite Hfile.
    rewrite split_join by done. by destruct (filter _ lines).
Qed.

(** A file with a blank line, a padded URL and a final line feed. *)
Lemma loadUrlsFromChunk_lines_witness :
  worker_script.loadUrlsFromChunk
    {[ "chunk_0001.txt" :=
         JS.join (String "010" EmptyString) ["u1"; "  "; " u2 "; ""] ]}
    "0001"
  = Ok ["u1"; " u2 "].
Proof.
  destruct (loadUrlsFromChunk_lines
              {[ "chunk_0001.txt" :=
                   JS.join (String "010" EmptyString)
                     ["u1"; "  "; " u2 "; ""] ]} "0001") as [_ Hlines].
  rewrite (Hlines ["u1"; "  "; " u2 "; ""]); [reflexivity|done| |].
  - repeat constructor.
  - reflexivity.
Defined.

End ChunkFilesMore.

(** ** More on the Fetch Engine and the Chunk Runner *)

Section WorkerMore.

Import worker_script.

Lemma hasSpace_digits (d : Decimal.uint) :
  hasSpace (NilEmpty.string_of_uint d) = false.
Proof. induction d; simpl; done. Qed.

Lemma hasSpace_toString (n : Z) : hasSpace (JS.toString n) = false.
Proof.
  unfold JS.toString, NilZero.string_of_int, NilZero.string_of_uint.
  destruct (Z.to_int n) as [d|d]; destruct d; try done;
    simpl; apply hasSpace_digits.
Qed.

Lemma clean_without_space (s : string) :
  hasSpace s = false → startsClean s = true ∧ endsClean s = true.
Proof.
  intros Hs. split.
  - destruct s as [|c s]; [done|]. simpl in *.
    by destruct (JS.isSpace c).
  - induction s as [|c s IH]; [done|]. simpl in Hs.
    apply orb_false_iff in Hs as [Hc Hs].
    cbn [endsClean]. destruct s; [by rewrite Hc|by apply IH].
Qed.

Lemma clean_trimmedText (o : option node) :
  startsClean (JS.orElse (trimmedText o) EmptyString) = true ∧
  endsClean (JS.orElse (trimmedText o) EmptyString) = true.
Proof.
  destruct o as [n|]; [|done]. simpl. unfold JS.or_else.
  destruct (JS.truthy _); [|done].
  split; [apply startsClean_trim|apply endsClean_trim].
Qed.

Lemma owner_spec (locationHref now : string) (index : nat) (row : node) :
  owner (extractRow locationHref now index row)
  = JS.orElse (trimmedText (querySelectorAll isCell row !! 4%nat))
      EmptyString.
Proof. apply link_fallback_empty. Qed.

(** X9. The text fields of an extracted row carry no white space at
    either end, and the rank is never empty; a table row without cells
    gives the placeholder rank [row-N], its number among the data rows,
    and empty fields. *)
Theorem extracted_fields_are_trimmed (locationHref now : string)
    (index : nat) (row : node) :
  let r := extractRow locationHref now index row in
  rank r ≠ EmptyString ∧
  Forall (λ s, startsClean s = true ∧ endsClean s = true)
    [rank r; domain r; ipAddress r; location r; owner r; lastUpdate r] ∧
  (querySelectorAll isCell row = [] →
   r = {| rank := "row-" +:+ JS.toString (Z.of_nat index + 1);
          domain := EmptyString; domainUrl := EmptyString;
          ipAddress := EmptyString; ipAddressUrl := EmptyString;
          location := EmptyString; owner := EmptyString;
          ownerUrl := EmptyString; lastUpdate := EmptyString;
          sourceUrl := locationHref; scrapedAt := now;
          uniqueId := "row-" +:+ JS.toString (Z.of_nat index + 1) +:+ "-" |}).
Proof.
  intros r. split; [apply rank_clean|]. split.
  - repeat apply Forall_cons_2; [| | | | | |apply Forall_nil_2].
    + unfold r. cbn [extractRow rank].
      set (fallback := "row-" +:+ JS.toString (Z.of_nat index + 1)).
      assert (Hfallback : startsClean fallback = true ∧
                          endsClean fallback = true).
      { apply clean_without_space. unfold fallback.
        by rewrite hasSpace_append, hasSpace_toString. }
      destruct (querySelectorAll isCell row !! 0%nat) as [c|];
        [|exact Hfallback].
      cbn [trimmedText fmap option_fmap option_map JS.orElse].
      unfold JS.or_else. destruct (JS.truthy _); [|exact Hfallback].
      split; [apply startsClean_trim|apply endsClean_trim].
    + unfold r. rewrite domain_spec. apply clean_trimmedText.
    + unfold r. rewrite ipAddress_spec. apply clean_trimmedText.
    + apply clean_trimmedText.
    + unfold r. rewrite owner_spec. apply clean_trimmedText.
    + apply clean_trimmedText.
  - intros Hcells. unfold r, extractRow. rewrite Hcells. simpl.
    f_equal. unfold JS.replaceSpaceRuns.
    rewrite replaceSpaceRuns_from_clean; [done|].
    by rewrite !hasSpace_append, hasSpace_toString.
Qed.

Lemma extracted_fields_are_trimmed_witness :
  rank (extractRow "u" "t" 4 (tableRow [])) = "row-5" ∧
  uniqueId (extractRow "u" "t" 4 (tableRow [])) = "row-5-".
Proof.
  destruct (extracted_fields_are_trimmed "u" "t" 4 (tableRow []))
    as (_ & _ & Hempty).
  by rewrite Hempty.
Defined.

(** X8. When [scrapePage] returns rows: exactly when every call of the
    page driver succeeds, the title and the address show neither a
    challenge nor a login page, and then the rows are those of the table
    of the document. *)
Theorem scrapePage_returns_rows (v : pageVisit) (rows : list Row) :
  scrapePage v = Ok (Some rows) ↔
  ∃ t u doc,
    goto v = Ok () ∧ mouseMove v = Ok () ∧ scrollTo v = Ok () ∧
    title v = Ok t ∧ pageUrl v = Ok u ∧
    isChallenge t u = false ∧ isLogin t u = false ∧
    waitForSelector v = Ok () ∧ document v = Ok doc ∧
    rows = extractTable (locationHref v) (clock v) doc.
Proof.
  unfold scrapePage, try_catch. split.
  - destruct (goto v) as [[]|], (mouseMove v) as [[]|],
      (scrollTo v) as [[]|], (title v) as [t|], (pageUrl v) as [u|];
      simpl; try done.
    destruct (isChallenge t u) eqn:Hchallenge; [done|].
    destruct (isLogin t u) eqn:Hlogin; [done|].
    destruct (waitForSelector v) as [[]|]; [|done].
    destruct (document v) as [doc|]; simpl; [|done].
    intros [= <-]. by exists t, u, doc.
  - intros (t & u & doc & -> & -> & -> & -> & -> & Hchallenge & Hlogin &
            -> & -> & ->).
    simpl. by rewrite Hchallenge, Hlogin.
Qed.

(** X7. The exit status of a run of the worker is 0 or 1, and it is 0
    exactly when a chunk number is given, the session (not [null]) and the
    chunk file load, the browser starts, the rows (if there are any) are
    written and the browser closes.  What the pages answer plays no part.
    The summary is logged exactly when the setup succeeds, rows were
    collected and the write succeeds: it is logged before the browser is
    closed, so also by a run that then ends with status 1. *)
Theorem main_exit_status {session : Type} (argv2 env : option string)
    (parse : string → result (option session)) (chunks : directory)
    (launch : session → result unit)
    (visit : nat → string → pageVisit) (timestamp : string)
    (write close : result unit) (data : dataDirectory) :
  let r := main argv2 env parse chunks launch visit timestamp write close
             data in
  (exitCode r = 0 ∨ exitCode r = 1) ∧
  (exitCode r = 0 ↔
   ∃ chunkNumber cookies urls st,
     argv2 = Some chunkNumber ∧ JS.truthy chunkNumber = true ∧
     loadCookiesFromEnv env parse = Ok (Some cookies) ∧
     loadUrlsFromChunk chunks chunkNumber = Ok urls ∧
     launch cookies = Ok () ∧
     scrapeAll visit 0 urls initialState = Ok st ∧
     (allData st = [] ∨ write = Ok ()) ∧ close = Ok ()) ∧
  (∀ st,
     summary r = Some st ↔
     ∃ chunkNumber cookies urls,
       argv2 = Some chunkNumber ∧ JS.truthy chunkNumber = true ∧
       loadCookiesFromEnv env parse = Ok (Some cookies) ∧
       loadUrlsFromChunk chunks chunkNumber = Ok urls ∧
       launch cookies = Ok () ∧
       scrapeAll visit 0 urls initialState = Ok st ∧
       allData st ≠ [] ∧ write = Ok ()).
Proof.
  unfold main.
  assert (Hfailed : ∀ (P : Prop) (Q : runState → Prop),
            (P → False) → (∀ st, Q st → False) →
            (1 = 0 ∨ 1 = 1) ∧ (1 = 0 ↔ P) ∧
            (∀ st, @None runState = Some st ↔ Q st)).
  { intros P Q HP HQ. split; [by right|]. split; [done|].
    intros st. split; [done|]. intros HQst. destruct (HQ st HQst). }
  destruct argv2 as [c|]; simpl.
  2:{ apply Hfailed; [by intros (?&?&?&?&?&?)|by intros ? (?&?&?&?&?)]. }
  destruct (JS.truthy c) eqn:Htruthy; simpl.
  2:{ apply Hfailed.
      - intros (?&?&?&?&?&?&?). simplify_eq. congruence.
      - intros ? (?&?&?&?&?&?). simplify_eq. congruence. }
  destruct (loadCookiesFromEnv env parse) as [cookies|] eqn:Hcookies; simpl.
  2:{ apply Hfailed.
      - intros (?&?&?&?&?&?&?&?). simplify_eq.
      - intros ? (?&?&?&?&?&?&?). simplify_eq. }
  destruct (loadUrlsFromChunk chunks c) as [urls|] eqn:Hurls; simpl.
  2:{ apply Hfailed.
      - intros (?&?&?&?&?&?&?&?&?). simplify_eq. congruence.
      - intros ? (?&?&?&?&?&?&?&?). simplify_eq. congruence. }
  destruct cookies as [cookies|]; simpl.
  2:{ apply Hfailed.
      - intros (?&?&?&?&?&?&?&?). simplify_eq.
      - intros ? (?&?&?&?&?&?&?). simplify_eq. }
  destruct (launch cookies) as [[]|] eqn:Hlaunch; simpl.
  2:{ apply Hfailed.
      - intros (?&?&?&?&?&?&?&?&?&?). simplify_eq. congruence.
      - intros ? (?&?&?&?&?&?&?&?&?). simplify_eq. congruence. }
  rewrite scrapeAll_spec. simpl. set (st := tally _ _). unfold saveBlock.
  assert (Hst : scrapeAll visit 0 urls initialState = Ok st)
    by apply scrapeAll_spec.
  destruct (allData st) as [|row rows] eqn:Hrows; simpl.
  - assert (Hsummary : ∀ st',
              @None runState = Some st' ↔
              ∃ chunkNumber cookies' urls',
                Some c = Some chunkNumber ∧ JS.truthy chunkNumber = true ∧
                @Ok (option session) (Some cookies) = Ok (Some cookies') ∧
                loadUrlsFromChunk chunks chunkNumber = Ok urls' ∧
                launch cookies' = Ok () ∧
                scrapeAll visit 0 urls' initialState = Ok st' ∧
                allData st' ≠ [] ∧ write = Ok ()).
    { intros st'. split; [done|].
      intros (?&?&urls'&?&?&?&Hurls'&?&Hst'&Hne&?). simplify_eq.
      rewrite Hurls in Hurls'. injection Hurls' as <-.
      rewrite Hst in Hst'. injection Hst' as <-. done. }
    destruct close as [[]|]; simpl; rewrite ?Hrows; simpl.
    + split; [by left|]. split; [|exact Hsummary]. split; [|done]. intros _.
      exists c, cookies, urls, st. repeat split; try done. by left.
    + split; [by right|]. split; [|exact Hsummary]. split; [done|].
      by intros (?&?&?&?&?&?&?&?&?&?&?&?).
  - destruct write as [[]|]; simpl.
    + assert (Hsummary : ∀ st',
                Some st = Some st' ↔
                ∃ chunkNumber cookies' urls',
                  Some c = Some chunkNumber ∧ JS.truthy chunkNumber = true ∧
                  @Ok (option session) (Some cookies) = Ok (Some cookies') ∧
                  loadUrlsFromChunk chunks chunkNumber = Ok urls' ∧
                  launch cookies' = Ok () ∧
                  scrapeAll visit 0 urls' initialState = Ok st' ∧
                  allData st' ≠ [] ∧ @Ok unit () = Ok ()).
      { intros st'. split.
        - intros [= <-]. exists c, cookies, urls.
          repeat split; try done. by rewrite Hrows.
        - intros (?&?&urls'&?&?&?&Hurls'&?&Hst'&?&?). simplify_eq.
          rewrite Hurls in Hurls'. injection Hurls' as <-.
          rewrite Hst in Hst'. by injection Hst' as <-. }
      destruct close as [[]|]; simpl; rewrite ?Hrows; simpl.
      * split; [by left|]. split; [|exact Hsummary]. split; [|done]. intros _.
        exists c, cookies, urls, st. repeat split; try done.
        rewrite Hrows. by right.
      * split; [by right|]. split; [|exact Hsummary]. split; [done|].
        by intros (?&?&?&?&?&?&?&?&?&?&?&?).
    + apply Hfailed.
      * intros (?&?&urls'&st'&?&?&?&Hurls'&?&Hst'&Hwrite&?). simplify_eq.
        rewrite Hurls in Hurls'. injection Hurls' as <-.
        rewrite Hst in Hst'. injection Hst' as <-.
        rewrite Hrows in Hwrite. by destruct Hwrite.
      * by intros ? (?&?&?&?&?&?&?&?&?&?&?).
Qed.

(** The sample chunk, every page a challenge: status 0; a page with rows,
    the write succeeds and the closing of the browser fails: status 1,
    and the summary is logged. *)
Lemma main_exit_status_witness :
  exitCode (main (session := list unit) (Some "0001") (Some "W10=")
              (λ _, Ok (Some []))
              sampleChunks (λ _, Ok ()) (λ _ _, challengeVisit)
              "2024-01-01T00-00-00-000Z" (Ok ()) (Ok ()) ∅) = 0 ∧
  (let r := main (session := list unit) (Some "0001") (Some "W10=")
              (λ _, Ok (Some []))
              sampleChunks (λ _, Ok ()) (λ _ _, goodVisit)
              "2024-01-01T00-00-00-000Z" (Ok ()) (Throw "closed") ∅ in
   exitCode r = 1 ∧ ∃ st, summary r = Some st).
Proof.
  split.
  - apply (main_exit_status (session := list unit)).
    exists "0001", [],
      ["https://myip.ms/browse/sites/1"; "https://myip.ms/browse/sites/2"],
      {| allData := []; successCount := 0; failCount := 2 |}.
    repeat split; try reflexivity. by left.
  - split; [reflexivity|]. eexists.
    apply (main_exit_status (session := list unit)).
    exists "0001", [],
      ["https://myip.ms/browse/sites/1"; "https://myip.ms/browse/sites/2"].
    repeat split; try reflexivity. vm_compute. discriminate.
Defined.

End WorkerMore.

(** ** More on the Consolidator *)

Section ConsolidatorMore.

Import consolidate_data.

Implicit Types (k : string) (r : record) (m : list (string * record)).

Lemma fold_pick_is_Some k (data : list record)
    (present : option record) :
  is_Some present ∨ (∃ r, r ∈ data ∧ keyOf r = k) →
  is_Some (fold_left (pick k) data present).
Proof.
  revert present. induction data as [|x data IH]; intros present Hsome.
  - destruct Hsome as [?|(r & Hin & _)]; [done|by apply elem_of_nil in Hin].
  - simpl. apply IH. unfold pick.
    destruct (decide (keyOf x = k)) as [Hx|Hx].
    + left. destruct present as [old|]; [|by eexists].
      destruct (replaces x (Some old)); by eexists.
    + destruct Hsome as [?|(r & Hin & Hr)]; [by left|].
      apply elem_of_cons in Hin as [->|Hin]; [done|].
      right. by exists r.
Qed.

(** X10. The output of [deduplicateData] holds each key once; each of its
    records is a record of the input; every key of the input has its
    record in the output; and the output is no longer than the input. *)
Theorem deduplicateData_keys (data : list record) :
  NoDup (keyOf <$> deduplicateData data) ∧
  (∀ r, r ∈ deduplicateData data → r ∈ data) ∧
  (∀ r, r ∈ data →
        ∃ kept, kept ∈ deduplicateData data ∧ keyOf kept = keyOf r) ∧
  (length (deduplicateData data) ≤ length data)%nat.
Proof.
  unfold deduplicateData.
  assert (Hkeyed : keyed (fold_left dedupStep data []))
    by (apply keyed_fold; split; [apply NoDup_nil_2|constructor]).
  split; [|split; [|split]].
  - rewrite keyed_values by done. apply Hkeyed.
  - intros r [Hin|Hin]%fold_dedupStep_values; [|done].
    by apply elem_of_nil in Hin.
  - intros r Hr.
    destruct (fold_pick_is_Some (keyOf r) data None) as [kept Hkept].
    { right. by exists r. }
    change (@None record) with (mapGet (keyOf r) []) in Hkept.
    rewrite <- mapGet_fold in Hkept.
    pose proof (filter_keyed (keyOf r) _ Hkeyed) as Hfilter.
    rewrite Hkept in Hfilter. simpl in Hfilter.
    assert (Hin : kept ∈ filter (λ r', keyOf r' = keyOf r)
                           (fold_left dedupStep data []).*2)
      by (rewrite Hfilter; by left).
    apply list_elem_of_filter in Hin as [??]. by exists kept.
  - rewrite length_fmap. apply (length_fold_dedupStep data []).
Qed.

Lemma deduplicateData_keys_witness :
  ∃ kept, kept ∈ deduplicateData
                   [{| columns := fooRow "A"; _source_file := None;
                       _source_timestamp := None |}] ∧
          keyOf kept = "5-foo.com".
Proof.
  destruct (deduplicateData_keys
              [{| columns := fooRow "A"; _source_file := None;
                  _source_timestamp := None |}]) as (_ & _ & Hcover & _).
  apply (Hcover {| columns := fooRow "A"; _source_file := None;
                   _source_timestamp := None |}).
  by left.
Defined.

Lemma mapSet_fresh k r m : k ∉ m.*1 → mapSet k r m = m ++ [(k, r)].
Proof.
  induction m as [|[k0 r0] m IH]; [done|]. simpl.
  intros [Hne Hnotin]%not_elem_of_cons.
  destruct (String.eqb_spec k0 k); [done|]. by rewrite IH.
Qed.

Lemma fold_dedupStep_fresh (l : list record) m :
  NoDup (m.*1 ++ (keyOf <$> l)) →
  fold_left dedupStep l m = m ++ ((λ r, (keyOf r, r)) <$> l).
Proof.
  revert m. induction l as [|r l IH]; intros m Hkeys.
  - by rewrite app_nil_r.
  - cbn [fold_left fmap list_fmap] in *.
    assert (Hfresh : keyOf r ∉ m.*1).
    { apply NoDup_app in Hkeys as (_ & Hdisjoint & _).
      intros Hin. apply (Hdisjoint _ Hin). by left. }
    unfold dedupStep. rewrite mapGet_None by done. simpl.
    rewrite mapSet_fresh by done. rewrite IH.
    + by rewrite <- app_assoc.
    + rewrite fmap_app. simpl. by rewrite <- app_assoc.
Qed.

(** X11. A list of records in which no key comes twice is returned as it
    is, in the same order; so deduplicating twice gives what
    deduplicating once gives. *)
Theorem deduplicateData_idempotent (data : list record) :
  (NoDup (keyOf <$> data) → deduplicateData data = data) ∧
  deduplicateData (deduplicateData data) = deduplicateData data.
Proof.
  assert (Hfixed : ∀ l, NoDup (keyOf <$> l) → deduplicateData l = l).
  { intros l Hl. unfold deduplicateData.
    rewrite fold_dedupStep_fresh by done. simpl.
    rewrite <- list_fmap_compose. apply list_fmap_id. }
  split; [apply Hfixed|].
  apply Hfixed, NoDup_deduplicateData.
Qed.

Lemma deduplicateData_idempotent_witness :
  deduplicateData
    [{| columns := fooRow "A"; _source_file := None;
        _source_timestamp := None |}]
  = [{| columns := fooRow "A"; _source_file := None;
        _source_timestamp := None |}].
Proof.
  apply deduplicateData_idempotent. apply NoDup_singleton.
Defined.

End ConsolidatorMore.

(** ** More on the Consolidator: which record is kept, which files are read *)

Section ConsolidatorKept.

Import consolidate_data.

Implicit Types (k : string) (r : record) (m : list (string * record)).

Lemma gt_le (a b : string) : JS.gt a b = false ↔ String.le a b.
Proof.
  unfold JS.gt, String.le, String.leb.
  destruct (String.compare a b); simpl; naive_solver.
Qed.

Lemma gt_trans_le (a b c : string) :
  JS.gt a b = true → JS.gt c b = false → JS.gt c a = false.
Proof.
  intros Hab Hcb%gt_le. apply gt_le. etrans; [exact Hcb|].
  destruct (total String.le b a) as [?|Hle]; [done|].
  apply gt_le in Hle. congruence.
Qed.

Lemma replaces_self r : replaces r (Some r) = false.
Proof.
  unfold replaces, stamped, newer.
  destruct (_source_timestamp r) as [t|]; [|done].
  rewrite gt_irrefl. by destruct (JS.truthy t).
Qed.

Lemma replaces_trans r s old :
  replaces r (Some old) = true → replaces s (Some old) = false →
  replaces s (Some r) = false.
Proof.
  unfold replaces, stamped, newer.
  destruct (_source_timestamp r) as [tr|]; [|done].
  destruct (_source_timestamp s) as [ts|]; [|done].
  destruct (JS.truthy tr); [|done]. destruct (JS.truthy ts); [|done].
  destruct (_source_timestamp old) as [told|]; [|done].
  destruct (JS.truthy told); [|done]. simpl.
  apply gt_trans_le.
Qed.

Lemma fold_pick_latest k (data : list record) :
  ∀ (seen : list record) (present : option record),
    (∀ s, s ∈ seen → keyOf s = k →
          ∃ old, present = Some old ∧ replaces s (Some old) = false) →
    ∀ s, s ∈ seen ++ data → keyOf s = k →
         ∃ kept, fold_left (pick k) data present = Some kept ∧
                 replaces s (Some kept) = false.
Proof.
  induction data as [|x data IH]; intros seen present Hseen s Hs Hkey.
  - rewrite app_nil_r in Hs. by apply Hseen.
  - simpl. apply (IH (seen ++ [x])); [|by rewrite <- app_assoc|done].
    clear s Hs Hkey. intros s [Hs|Hs%list_elem_of_singleton]%elem_of_app Hkey.
    + destruct (Hseen s Hs Hkey) as (old & -> & Hold).
      unfold pick. destruct (decide (keyOf x = k)); [|by exists old].
      destruct (replaces x (Some old)) eqn:Hx; [|by exists old].
      exists x. split; [done|]. by apply (replaces_trans x s old).
    + subst s. unfold pick. rewrite decide_True by done.
      destruct (replaces x present) eqn:Hx.
      * exists x. split; [done|apply replaces_self].
      * destruct present as [old|]; [by exists old|done].
Qed.

Lemma elem_of_deduplicateData kept (data : list record) :
  kept ∈ deduplicateData data →
  fold_left (pick (keyOf kept)) data None = Some kept.
Proof.
  intros Hkept. unfold deduplicateData in Hkept.
  assert (Hkeyed : keyed (fold_left dedupStep data []))
    by (apply keyed_fold; split; [apply NoDup_nil_2|constructor]).
  assert (Hin : kept ∈ filter (λ r, keyOf r = keyOf kept)
                         (fold_left dedupStep data []).*2)
    by by apply list_elem_of_filter.
  rewrite (filter_keyed _ _ Hkeyed), mapGet_fold in Hin. simpl in Hin.
  destruct (fold_left _ data None) as [r|]; simpl in Hin.
  - by apply list_elem_of_singleton in Hin as ->.
  - by apply elem_of_nil in Hin.
Qed.

(** X12. No record of the input beats the record that [deduplicateData]
    keeps for its key: when a record of the input with this key carries a
    time stamp, the kept record carries one too, and the stamp of the
    former is not greater than the stamp of the kept one. *)
Theorem kept_record_has_latest_stamp (data : list record) kept r (t : string) :
  kept ∈ deduplicateData data →
  r ∈ data → keyOf r = keyOf kept →
  _source_timestamp r = Some t → JS.truthy t = true →
  ∃ t', _source_timestamp kept = Some t' ∧ JS.truthy t' = true ∧
        JS.gt t t' = false.
Proof.
  intros Hkept%elem_of_deduplicateData Hr Hkey Ht Htruthy.
  destruct (fold_pick_latest (keyOf kept) data [] None) with (s := r)
    as (kept' & Hkept' & Hreplaces); [by intros ? ?%elem_of_nil|done..|].
  rewrite Hkept in Hkept'. injection Hkept' as <-.
  unfold replaces, stamped, newer in Hreplaces.
  rewrite Ht, Htruthy in Hreplaces. simpl in Hreplaces.
  destruct (_source_timestamp kept) as [t'|]; [|done].
  destruct (JS.truthy t') eqn:Ht'; [|done].
  by exists t'.
Qed.

Lemma kept_record_has_latest_stamp_witness :
  ∃ t', Some "2024-01-01T00-00-01" = Some t' ∧ JS.truthy t' = true ∧
        JS.gt "2024-01-01T00-00-00" t' = false.
Proof.
  apply (kept_record_has_latest_stamp
           [{| columns := fooRow "A"; _source_file := None;
               _source_timestamp := Some "2024-01-01T00-00-00" |};
            {| columns := fooRow "B"; _source_file := None;
               _source_timestamp := Some "2024-01-01T00-00-01" |}]
           {| columns := fooRow "B"; _source_file := None;
              _source_timestamp := Some "2024-01-01T00-00-01" |}
           {| columns := fooRow "A"; _source_file := None;
              _source_timestamp := Some "2024-01-01T00-00-00" |}
           "2024-01-01T00-00-00").
  - vm_compute. by left.
  - by left.
  - reflexivity.
  - reflexivity.
  - reflexivity.
Defined.

Lemma fold_pick_same_stamp k (stamp : option string) (data : list record) old :
  (∀ r, r ∈ data → keyOf r = k → _source_timestamp r = stamp) →
  _source_timestamp old = stamp →
  fold_left (pick k) data (Some old) = Some old.
Proof.
  intros Hdata Hold. induction data as [|x data IH]; [done|].
  simpl. rewrite <- IH at 2 by (intros; apply Hdata; [by right|done]).
  f_equal. unfold pick. destruct (decide (keyOf x = k)) as [Hx|]; [|done].
  rewrite (replaces_stamp x old) by (rewrite Hold; apply Hdata; [by left|done]).
  by rewrite replaces_self.
Qed.

(** X13. When all the records of a key carry the same time stamp, or none
    carries one, [deduplicateData] keeps the one that comes first in the
    input. *)
Theorem first_record_kept_on_equal_stamps (data : list record) k
    (stamp : option string) :
  (∀ r, r ∈ data → keyOf r = k → _source_timestamp r = stamp) →
  filter (λ r, keyOf r = k) (deduplicateData data)
  = option_list (head (filter (λ r, keyOf r = k) data)).
Proof.
  intros Hdata. unfold deduplicateData.
  rewrite filter_keyed
    by (apply keyed_fold; split; [apply NoDup_nil_2|constructor]).
  rewrite mapGet_fold. simpl. f_equal.
  induction data as [|x data IH]; [done|].
  simpl. rewrite filter_cons. unfold pick at 2.
  destruct (decide (keyOf x = k)) as [Hx|Hx].
  - simpl. apply (fold_pick_same_stamp k stamp).
    + intros; apply Hdata; [by right|done].
    + apply Hdata; [by left|done].
  - apply IH. intros; apply Hdata; [by right|done].
Qed.

Lemma first_record_kept_on_equal_stamps_witness :
  filter (λ r, keyOf r = "5-foo.com")
    (deduplicateData
       [{| columns := fooRow "A"; _source_file := Some "a.csv";
           _source_timestamp := None |};
        {| columns := fooRow "B"; _source_file := Some "b.csv";
           _source_timestamp := None |}])
  = option_list
      (head (filter (λ r, keyOf r = "5-foo.com")
         [{| columns := fooRow "A"; _source_file := Some "a.csv";
             _source_timestamp := None |};
          {| columns := fooRow "B"; _source_file := Some "b.csv";
             _source_timestamp := None |}])).
Proof.
  apply (first_record_kept_on_equal_stamps _ _ None).
  intros r [->|[->|[]%elem_of_nil]%elem_of_cons]%elem_of_cons _; reflexivity.
Defined.

(** *** The files [main] reads *)



(** *** The stamp of a file name *)

Lemma matchHere_shaped (pat : list atom) (s t : string) :
  matchHere pat s = Some t ↔
  shapedLike pat t ∧ ∃ rest, s = t +:+ rest.
Proof.
  unfold shapedLike. revert s t.
  induction pat as [|a pat IH]; intros s t; simpl.
  - split.
    + intros [= <-]. split; [constructor|by exists s].
    + intros [Hshape _]. destruct t; [done|inversion Hshape].
  - destruct s as [|c s].
    + split; [done|]. intros [Hshape [rest Hrest]].
      destruct t; [inversion Hshape|done].
    + split.
      * destruct (accepts a c) eqn:Hc; [|done].
        destruct (matchHere pat s) as [t'|] eqn:Ht'; [|done].
        intros [= <-]. apply IH in Ht' as [Hshape [rest ->]].
        split; [by constructor|by exists rest].
      * intros [Hshape [rest Hrest]].
        destruct t as [|c' t]; [inversion Hshape|].
        simpl in Hshape, Hrest. injection Hrest as <- ->.
        apply Forall2_cons in Hshape as [-> Hshape].
        assert (Ht : matchHere pat (t +:+ rest) = Some t)
          by (apply IH; by eauto).
        by rewrite Ht.
Qed.

Lemma firstMatch_leftmost (pat : list atom) (s : string) :
  match firstMatch pat s with
  | Some t =>
      shapedLike pat t ∧
      ∃ before after,
        s = before +:+ t +:+ after ∧
        ∀ before' t' after',
          s = before' +:+ t' +:+ after' →
          (String.length before' < String.length before)%nat →
          ¬ shapedLike pat t'
  | None =>
      ∀ before t after, s = before +:+ t +:+ after → ¬ shapedLike pat t
  end.
Proof.
  induction s as [|c s IH]; cbn [firstMatch].
  - destruct (matchHere pat "") as [t|] eqn:Ht.
    + apply matchHere_shaped in Ht as [Hshape [rest Hrest]].
      split; [done|]. exists "", rest. split; [done|].
      simpl. intros; lia.
    + intros before t after Hs Hshape.
      destruct before; [|done]. simpl in Hs.
      assert (matchHere pat "" = Some t)
        by (apply matchHere_shaped; by eauto).
      congruence.
  - destruct (matchHere pat (String c s)) as [t|] eqn:Ht.
    + apply matchHere_shaped in Ht as [Hshape [rest Hrest]].
      split; [done|]. exists "", rest. split; [done|].
      simpl. intros; lia.
    + assert (Hhere : ∀ t after, String c s = t +:+ after →
                                 ¬ shapedLike pat t).
      { intros t after Hs Hshape.
        assert (matchHere pat (String c s) = Some t)
          by (apply matchHere_shaped; by eauto).
        congruence. }
      destruct (firstMatch pat s) as [t|].
      * destruct IH as [Hshape (before & after & -> & Hleft)].
        split; [done|]. exists (String c before), after. split; [done|].
        intros [|c' before'] t' after' Hs Hlen; [by apply (Hhere t' after')|].
        simpl in Hs, Hlen. injection Hs as <- Hs.
        apply (Hleft before' t' after' Hs). lia.
      * intros [|c' before] t after Hs; [by apply (Hhere t after)|].
        simpl in Hs. injection Hs as <- Hs. by apply (IH before t after).
Qed.

(** X15. The stamp [extractTimestamp] reads from a file name is the
    leftmost piece of the name that has the shape
    [dddd-dd-ddTdd-dd-dd] (19 characters, [d] a digit); it reads none
    exactly when no piece of the name has this shape. *)
Theorem extractTimestamp_leftmost (filename : string) :
  match extractTimestamp filename with
  | Some t =>
      String.length t = 19%nat ∧
      shapedLike timestampPattern t ∧
      ∃ before after,
        filename = before +:+ t +:+ after ∧
        ∀ before' t' after',
          filename = before' +:+ t' +:+ after' →
          (String.length before' < String.length before)%nat →
          ¬ shapedLike timestampPattern t'
  | None =>
      ∀ before t after,
        filename = before +:+ t +:+ after → ¬ shapedLike timestampPattern t
  end.
Proof.
  unfold extractTimestamp.
  pose proof (firstMatch_leftmost timestampPattern filename) as Hfirst.
  destruct (firstMatch timestampPattern filename) as [t|]; [|done].
  destruct Hfirst as [Hshape Hrest]. split; [|done].
  apply Forall2_length in Hshape.
  transitivity (length (list_ascii_of_string t)); [|by rewrite <- Hshape].
  clear. induction t as [|c t IH]; simpl; by f_equal.
Qed.

End ConsolidatorKept.

(** ** From the name the worker gives a file to the stamp the Consolidator
    reads *)

Section Stamps.

Import worker_script consolidate_data.

Lemma append_cons (x : ascii) (a b : string) :
  String x a +:+ b = String x (a +:+ b).
Proof. reflexivity. Qed.

Lemma append_assoc (a b c : string) : (a +:+ b) +:+ c = a +:+ (b +:+ c).
Proof.
  induction a as [|x a IH]; [done|]. by rewrite !append_cons, IH.
Qed.

Lemma replaceColonDot_append (a b : string) :
  replaceColonDot (a +:+ b) = replaceColonDot a +:+ replaceColonDot b.
Proof.
  induction a as [|c a IH]; [done|]. rewrite append_cons. simpl.
  by rewrite IH.
Qed.

Lemma replaceColonDot_digits (s : string) :
  allDigits s = true → replaceColonDot s = s.
Proof.
  induction s as [|c s IH]; simpl; [done|].
  intros [Hc Hs]%andb_true_iff. rewrite IH by done.
  destruct (Ascii.eqb_spec c ":") as [->|]; [done|].
  destruct (Ascii.eqb_spec c ".") as [->|]; done.
Qed.

(** A number below [10^w], printed on [w] places, is [w] digits. *)
Lemma digits_field (w : nat) (bound n : Z) :
  (w, bound) = (2%nat, 100) ∨ (w, bound) = (3%nat, 1000) ∨
  (w, bound) = (4%nat, 10000) →
  0 ≤ n < bound →
  String.length (digits w n) = w ∧ allDigits (digits w n) = true.
Proof.
  intros Hw Hn.
  assert (Hall : forallb (λ n, (String.length (digits w n) =? w)%nat &&
                               allDigits (digits w n))
                   (seqZ 0 bound) = true)
    by (destruct Hw as [[= -> ->]|[[= -> ->]|[= -> ->]]];
        vm_compute; reflexivity).
  rewrite forallb_forall in Hall.
  assert (Hin : In n (seqZ 0 bound))
    by (apply list_elem_of_In, elem_of_seqZ; lia).
  by apply Hall, andb_true_iff in Hin as [Hlen%Nat.eqb_eq Hdigits].
Qed.

Lemma shapedLike_app (p1 p2 : list atom) (s1 s2 : string) :
  shapedLike p1 s1 → shapedLike p2 s2 → shapedLike (p1 ++ p2) (s1 +:+ s2).
Proof.
  unfold shapedLike. intros H1 H2.
  replace (list_ascii_of_string (s1 +:+ s2))
    with (list_ascii_of_string s1 ++ list_ascii_of_string s2)
    by (clear; induction s1 as [|c s1 IH];
        [done|rewrite append_cons; simpl; by rewrite IH]).
  by apply Forall2_app.
Qed.

Lemma shapedLike_digits (s : string) :
  allDigits s = true → shapedLike (repeat Digit (String.length s)) s.
Proof.
  unfold shapedLike. induction s as [|c s IH]; simpl; [constructor|].
  intros [Hc Hs]%andb_true_iff. constructor; [done|by apply IH].
Qed.

Lemma shapedLike_field (w : nat) (bound n : Z) :
  (w, bound) = (2%nat, 100) ∨ (w, bound) = (3%nat, 1000) ∨
  (w, bound) = (4%nat, 10000) →
  0 ≤ n < bound → shapedLike (repeat Digit w) (digits w n).
Proof.
  intros Hw Hn. destruct (digits_field w bound n Hw Hn) as [Hlen Hdigits].
  rewrite <- Hlen at 1. by apply shapedLike_digits.
Qed.

Lemma shapedLike_secondStamp (d : date) :
  inRange d → shapedLike timestampPattern (secondStamp d).
Proof.
  intros (Hy & Hmo & Hd & Hh & Hmi & Hs & _). unfold secondStamp.
  change timestampPattern
    with (repeat Digit 4 ++ [Lit "-"] ++ repeat Digit 2 ++ [Lit "-"] ++
          repeat Digit 2 ++ [Lit "T"] ++ repeat Digit 2 ++ [Lit "-"] ++
          repeat Digit 2 ++ [Lit "-"] ++ repeat Digit 2).
  repeat first
    [ apply shapedLike_app
    | apply (shapedLike_field 4 10000); [by auto|lia]
    | apply (shapedLike_field 2 100); [by auto|lia]
    | by repeat constructor ].
Qed.

Lemma fileStamp_secondStamp (d : date) :
  inRange d →
  fileStamp d = secondStamp d +:+ "-" +:+ digits 3 (milliseconds d) +:+ "Z".
Proof.
  intros (Hy & Hmo & Hd & Hh & Hmi & Hs & Hms).
  unfold fileStamp, toISOString, secondStamp.
  rewrite !replaceColonDot_append.
  repeat rewrite (replaceColonDot_digits (digits _ _))
    by first [ apply (digits_field 4 10000); [by auto|lia]
             | apply (digits_field 2 100); [by auto|lia]
             | apply (digits_field 3 1000); [by auto|lia] ].
  change (replaceColonDot "-") with "-".
  change (replaceColonDot "T") with "T".
  change (replaceColonDot ":") with "-".
  change (replaceColonDot ".") with "-".
  change (replaceColonDot "Z") with "Z".
  by rewrite !append_assoc.
Qed.

Lemma no_match_in_digits (ds rest : string) :
  allDigits ds = true →
  matchHere timestampPattern (ds +:+ String "_" rest) = None.
Proof.
  intros Hds.
  destruct ds as [|c1 [|c2 [|c3 [|c4 [|c5 ds]]]]]; simpl in *;
    repeat match goal with
           | |- context [JS.isDigit ?c] =>
               destruct (JS.isDigit c) eqn:?; simpl in *; try done
           end; try done.
  destruct (Ascii.eqb_spec c5 "-") as [->|]; [|done].
  simpl in *. congruence.
Qed.

Lemma firstMatch_skip_digits (ds rest : string) :
  allDigits ds = true →
  firstMatch timestampPattern (ds +:+ String "_" rest)
  = firstMatch timestampPattern rest.
Proof.
  induction ds as [|c ds IH]; intros Hds.
  - done.
  - rewrite append_cons. cbn [firstMatch]. rewrite <- append_cons.
    rewrite no_match_in_digits by done.
    apply IH. simpl in Hds. by apply andb_true_iff in Hds as [_ ?].
Qed.

Lemma firstMatch_here (pat : list atom) (s t : string) :
  matchHere pat s = Some t → firstMatch pat s = Some t.
Proof. intros Hhere. destruct s; cbn [firstMatch]; by rewrite Hhere. Qed.

Lemma extractTimestamp_outputFileName (chunkNumber : string) (d : date) :
  inRange d → allDigits chunkNumber = true →
  extractTimestamp (outputFileName chunkNumber (fileStamp d))
  = Some (secondStamp d).
Proof.
  intros Hd Hchunk. unfold extractTimestamp, outputFileName.
  rewrite fileStamp_secondStamp by done.
  pose proof (shapedLike_secondStamp d Hd) as Hshape.
  set (stamp := secondStamp d) in *.
  set (ms := digits 3 (milliseconds d)).
  rewrite !append_cons. repeat change ("" +:+ ?x) with x. simpl.
  rewrite firstMatch_skip_digits by done.
  apply firstMatch_here, matchHere_shaped. split; [done|].
  rewrite append_assoc. by eexists.
Qed.


(** *** The order of two stamps *)

Lemma compare_append (f1 f2 r1 r2 : string) :
  String.length f1 = String.length f2 →
  String.compare (f1 +:+ r1) (f2 +:+ r2)
  = match String.compare f1 f2 with
    | Eq => String.compare r1 r2
    | o => o
    end.
Proof.
  revert f2. induction f1 as [|c1 f1 IH]; intros [|c2 f2] Hlen;
    [done|done|done|].
  rewrite !append_cons. simpl.
  destruct (Ascii.compare c1 c2); [|done..].
  apply IH. simpl in Hlen. lia.
Qed.

Lemma compare_digits (a b : Z) :
  0 ≤ a < 100 → 0 ≤ b < 100 →
  String.compare (digits 2 a) (digits 2 b) = Z.compare a b.
Proof.
  intros Ha Hb.
  assert (Hall :
    forallb (λ a, forallb (λ b,
      match String.compare (digits 2 a) (digits 2 b), Z.compare a b with
      | Eq, Eq | Lt, Lt | Gt, Gt => true
      | _, _ => false
      end) (seqZ 0 100)) (seqZ 0 100) = true) by (vm_compute; reflexivity).
  rewrite forallb_forall in Hall.
  assert (Hina : In a (seqZ 0 100))
    by (apply list_elem_of_In, elem_of_seqZ; lia).
  assert (Hinb : In b (seqZ 0 100))
    by (apply list_elem_of_In, elem_of_seqZ; lia).
  apply Hall in Hina. rewrite forallb_forall in Hina. apply Hina in Hinb.
  by destruct (String.compare _ _), (a ?= b).
Qed.

Lemma digits_year (y : Z) :
  0 ≤ y < 10000 → digits 4 y = digits 2 (y / 100) +:+ digits 2 (y mod 100).
Proof.
  intros Hy.
  assert (Hall :
    forallb (λ y, String.eqb (digits 4 y)
                    (digits 2 (y / 100) +:+ digits 2 (y mod 100)))
      (seqZ 0 10000) = true) by (vm_compute; reflexivity).
  rewrite forallb_forall in Hall. apply String.eqb_eq, Hall.
  apply list_elem_of_In, elem_of_seqZ. lia.
Qed.

Lemma length_digits2 (n : Z) :
  0 ≤ n < 100 → String.length (digits 2 n) = 2%nat.
Proof. intros Hn. by apply (digits_field 2 100); auto. Qed.

Lemma instant_seconds (d : date) :
  inRange d →
  instant d / 1000
  = ((((year d * 12 + month d) * 31 + day d) * 24 + hours d) * 60
     + minutes d) * 60 + seconds d.
Proof.
  intros (_ & _ & _ & _ & _ & _ & Hms). unfold instant.
  rewrite Z.div_add_l, Z.div_small by lia. lia.
Qed.

Lemma compare_secondStamp (d1 d2 : date) :
  inRange d1 → inRange d2 →
  String.compare (secondStamp d2) (secondStamp d1)
  = Z.compare (instant d2 / 1000) (instant d1 / 1000).
Proof.
  intros Hd1 Hd2. rewrite !instant_seconds by done.
  destruct Hd1 as (Hy1 & Hmo1 & Hday1 & Hh1 & Hmi1 & Hs1 & _).
  destruct Hd2 as (Hy2 & Hmo2 & Hday2 & Hh2 & Hmi2 & Hs2 & _).
  unfold secondStamp. rewrite !digits_year, !append_assoc by done.
  pose proof (Z.div_mod (year d1) 100).
  pose proof (Z.div_mod (year d2) 100).
  pose proof (Z.mod_pos_bound (year d1) 100).
  pose proof (Z.mod_pos_bound (year d2) 100).
  assert (0 ≤ year d1 / 100 < 100)
    by (split; [apply Z.div_pos|apply Z.div_lt_upper_bound]; lia).
  assert (0 ≤ year d2 / 100 < 100)
    by (split; [apply Z.div_pos|apply Z.div_lt_upper_bound]; lia).
  repeat first
    [ rewrite (compare_append (digits 2 _) (digits 2 _))
        by (rewrite !length_digits2; [done|lia..])
    | rewrite (compare_append "-" "-") by done
    | rewrite (compare_append "T" "T") by done ].
  rewrite !compare_digits by lia.
  change (String.compare "-" "-") with Eq.
  change (String.compare "T" "T") with Eq. cbv iota.
  set (a1 := year d1 / 100) in *. set (b1 := year d1 mod 100) in *.
  set (a2 := year d2 / 100) in *. set (b2 := year d2 mod 100) in *.
  repeat match goal with
         | |- context [Z.compare ?x ?y] =>
             lazymatch x with
             | context [Z.mul] => fail
             | _ => destruct (Z.compare_spec x y)
             end
         end; symmetry;
    first [apply Z.compare_eq_iff|apply Z.compare_lt_iff|apply Z.compare_gt_iff];
    lia.
Qed.

(** X16. On the stamps of two dates, the comparison of strings that
    [deduplicateData] makes agrees with the order of the dates in whole
    seconds. *)
Theorem stamps_compare_as_seconds (d1 d2 : date) :
  inRange d1 → inRange d2 →
  (JS.gt (secondStamp d2) (secondStamp d1) = true ↔
   instant d1 / 1000 < instant d2 / 1000).
Proof.
  intros Hd1 Hd2. unfold JS.gt. rewrite compare_secondStamp by done.
  destruct (Z.compare_spec (instant d2 / 1000) (instant d1 / 1000));
    split; intros; (done || lia).
Qed.

Lemma stamps_compare_as_seconds_witness :
  JS.gt (secondStamp nextSecondRun) (secondStamp earlyRun) = true ↔
  instant earlyRun / 1000 < instant nextSecondRun / 1000.
Proof.
  apply stamps_compare_as_seconds; unfold inRange; simpl; lia.
Defined.

(** X17. The worker names its output file after the chunk number and the
    instant of the save; from this name the Consolidator reads back the
    instant down to the second, and not its milliseconds. *)
Theorem worker_stamp_read_back (chunkNumber : string) (d : date) :
  inRange d → allDigits chunkNumber = true →
  fileStamp d = secondStamp d +:+ "-" +:+ digits 3 (milliseconds d) +:+ "Z" ∧
  extractTimestamp (outputFileName chunkNumber (fileStamp d))
  = Some (secondStamp d).
Proof.
  intros Hd Hchunk. split.
  - by apply fileStamp_secondStamp.
  - by apply extractTimestamp_outputFileName.
Qed.

Lemma worker_stamp_read_back_witness :
  fileStamp lateRun
  = secondStamp lateRun +:+ "-" +:+ digits 3 (milliseconds lateRun) +:+ "Z" ∧
  extractTimestamp (outputFileName "0001" (fileStamp lateRun))
  = Some (secondStamp lateRun).
Proof.
  apply worker_stamp_read_back; [unfold inRange; simpl; lia|reflexivity].
Defined.

Lemma endsWith_outputFileName (chunkNumber timestamp : string) :
  JS.endsWith (outputFileName chunkNumber timestamp) ".csv" = true.
Proof.
  unfold outputFileName. rewrite <- !append_assoc. apply endsWith_append.
Qed.

(** The rows the worker persists all have the columns of its header,
    none of them starting with [_]: the Consolidator writes them as they
    are. *)
Lemma saveToCSV_worker_rows (kept : list record) :
  (∀ r, r ∈ kept → ∃ row, columns r = toRecord row) →
  saveToCSV kept = columns <$> kept.
Proof.
  intros Hkept.
  apply (saveToCSV_same_columns
           (list_to_set ["Rank"; "Domain"; "Domain_URL"; "IP_Address";
                         "IP_Address_URL"; "Location"; "Owner"; "Owner_URL";
                         "Last_Update"; "Source_URL"; "Scraped_At";
                         "Unique_ID"])).
  - intros r [row ->]%Hkept. unfold toRecord.
    by rewrite dom_list_to_map_L.
  - intros h Hh%elem_of_list_to_set.
    repeat (apply elem_of_cons in Hh as [->|Hh]; [reflexivity|]).
    by apply elem_of_nil in Hh.
Qed.

(** X18. Two output files of the worker, read in this order.  For each
    key, the master file holds the first row with this key of the file
    that was saved in a later second; when both were saved in the same
    second, or the second file was saved earlier, it holds the first row
    with this key of the file read first. *)
Theorem two_runs_consolidated (c1 c2 : string) (d1 d2 : date) (k : string)
    (data1 data2 : list Row) :
  inRange d1 → inRange d2 →
  allDigits c1 = true → allDigits c2 = true →
  let rows1 := toRecord <$> data1 in
  let rows2 := toRecord <$> data2 in
  ∃ out,
    main [(outputFileName c1 (fileStamp d1), rows1);
          (outputFileName c2 (fileStamp d2), rows2)] = Some out ∧
    filter (λ cols, columnsKey cols = k) out
    = match firstWith k rows1, firstWith k rows2 with
      | Some first, Some second =>
          if instant d1 / 1000 <? instant d2 / 1000 then [second]
          else [first]
      | Some first, None => [first]
      | None, Some second => [second]
      | None, None => []
      end.
Proof.
  intros Hd1 Hd2 Hc1 Hc2 rows1 rows2.
  pose proof (extractTimestamp_outputFileName c1 d1 Hd1 Hc1) as Ht1.
  pose proof (extractTimestamp_outputFileName c2 d2 Hd2 Hc2) as Ht2.
  pose proof (extractTimestamp_truthy _ _ Ht1) as Htruthy1.
  pose proof (extractTimestamp_truthy _ _ Ht2) as Htruthy2.
  eexists. split; [apply main_two_files; apply endsWith_outputFileName|].
  rewrite saveToCSV_worker_rows.
  2:{ intros r Hr%elem_of_deduplicateData_input.
      apply (list_elem_of_fmap_2 columns) in Hr.
      rewrite fmap_app, !columns_readFile in Hr.
      apply elem_of_app in Hr as [Hr|Hr];
        apply list_elem_of_fmap in Hr as (row & Hrow & _); by exists row. }
  rewrite deduplicateData_key, fold_left_app,
    (fold_pick_readFile k _ _ _ _ Ht1), (fold_pick_readFile k _ _ _ _ Ht2).
  cbv zeta.
  destruct (firstWith k rows1) as [first|], (firstWith k rows2) as [second|];
    try done.
  simpl. rewrite Htruthy1, Htruthy2. simpl.
  unfold JS.gt. rewrite compare_secondStamp by done.
  destruct (Z.ltb_spec (instant d1 / 1000) (instant d2 / 1000)) as [Hlt|Hge].
  - apply Z.compare_gt_iff in Hlt. by rewrite Hlt.
  - destruct (Z.compare_spec (instant d2 / 1000) (instant d1 / 1000));
      [done|done|lia].
Qed.

(** Two runs of chunk 1 in the same second, each with one row of
    [foo.com]: the row of the file read first is kept. *)
Lemma two_runs_consolidated_witness :
  ∃ out,
    main [(outputFileName "0001" (fileStamp earlyRun),
           toRecord <$> [exampleData "A"]);
          (outputFileName "0001" (fileStamp lateRun),
           toRecord <$> [exampleData "B"])]
    = Some out ∧
    filter (λ cols, columnsKey cols = "5-foo.com") out = [fooRow "A"].
Proof.
  apply (two_runs_consolidated "0001" "0001" earlyRun lateRun "5-foo.com"
           [exampleData "A"] [exampleData "B"]);
    first [reflexivity|unfold inRange; simpl; lia].
Defined.

End Stamps.

(** ** The first worker script and the local scraper *)

Section FirstWorker.

Import first_worker.

Lemma first_scrapePage_never_throws (v : worker_script.pageVisit) :
  ∃ data, scrapePage v = Ok data.
Proof.
  unfold scrapePage.
  destruct (worker_script.goto v); simpl; [|by eexists].
  destruct (worker_script.title v) as [pageTitle|]; simpl; [|by eexists].
  destruct (_ || _); [by eexists|].
  destruct (worker_script.waitForSelector v); simpl; [|by eexists].
  destruct (worker_script.document v); simpl; by eexists.
Qed.

Lemma first_scrapeAll_spec (visit : nat → string → worker_script.pageVisit)
    (i : nat) (urls : list string) (st : runState) :
  scrapeAll visit i urls st
  = Ok (foldl (λ st data, count data st) st (firstOutcomes visit i urls)).
Proof.
  revert i st. induction urls as [|url urls IH]; intros i st; [done|].
  cbn [scrapeAll firstOutcomes foldl].
  destruct (first_scrapePage_never_throws (visit i url)) as [data ->].
  apply IH.
Qed.

Lemma first_tally (os : list (option (list Row))) (st : runState) :
  let st' := foldl (λ st data, count data st) st os in
  successCount st' = (successCount st + length (filter is_Some os))%nat ∧
  failCount st' = (failCount st + length (filter (λ o, o = None) os))%nat ∧
  allData st' = allData st ++ concat (default [] <$> os).
Proof.
  revert st. induction os as [|data os IH]; intros st; cbv zeta; simpl.
  - rewrite app_nil_r. repeat split; lia.
  - destruct (IH (count data st)) as (-> & -> & ->).
    rewrite !filter_cons. destruct data as [rows|]; simpl.
    + rewrite <- app_assoc. simpl. repeat split; lia.
    + repeat split; lia.
Qed.

Lemma length_firstOutcomes (visit : nat → string → worker_script.pageVisit)
    (i : nat) (urls : list string) :
  length (firstOutcomes visit i urls) = length urls.
Proof.
  revert i. induction urls as [|url urls IH]; intros i; simpl; [done|].
  by rewrite IH.
Qed.

(** X19. The loop of the first worker goes through all the URLs and
    returns.  It counts as a success every page whose fetch returned
    rows, also no rows at all, and as a failure every page whose fetch
    returned [null]; the two counters add up to the number of URLs, and
    the collected rows are the rows of the fetches, in the order of the
    URLs. *)
Theorem first_worker_counts (visit : nat → string → worker_script.pageVisit)
    (urls : list string) :
  let os := firstOutcomes visit 0 urls in
  ∃ st, scrapeAll visit 0 urls initialState = Ok st ∧
        successCount st = length (filter is_Some os) ∧
        failCount st = length (filter (λ o, o = None) os) ∧
        (successCount st + failCount st)%nat = length urls ∧
        allData st = concat (default [] <$> os).
Proof.
  intros os. eexists. split; [apply first_scrapeAll_spec|].
  destruct (first_tally os initialState) as (Hsuccess & Hfail & Hdata).
  fold os. cbv zeta in *. rewrite Hsuccess, Hfail, Hdata. simpl.
  repeat split.
  rewrite <- (length_firstOutcomes visit 0 urls). fold os. clearbody os.
  clear. induction os as [|[rows|] os IH]; simpl; [done|..].
  - rewrite !filter_cons. simpl. lia.
  - rewrite !filter_cons. simpl. lia.
Qed.

Lemma truthy_append_r (a b : string) :
  JS.truthy b = true → JS.truthy (a +:+ b) = true.
Proof. destruct a; [done|done]. Qed.

(** X20. A record the first worker persists has the column [UniqueID],
    never empty; so the key under which the Consolidator stores it is
    this column, and it is the rank and the domain of the row joined by a
    hyphen, the same text the key has without the column. *)
Theorem first_worker_key (tr : node) :
  let row := extractRow tr in
  toRecord row !! "UniqueID" = Some (uniqueId row) ∧
  uniqueId row ≠ EmptyString ∧
  columnsKey (toRecord row) = uniqueId row ∧
  uniqueId row = rank row +:+ "-" +:+ domain row ∧
  uniqueId row
  = JS.template (toRecord row !! "Rank") +:+ "-" +:+
    JS.template (toRecord row !! "Domain").
Proof.
  intros row.
  assert (Hcolumn : toRecord row !! "UniqueID" = Some (uniqueId row)) by done.
  assert (Hid : uniqueId row = rank row +:+ "-" +:+ domain row) by done.
  assert (Htruthy : JS.truthy (uniqueId row) = true)
    by (rewrite Hid; by apply truthy_append_r).
  split; [done|]. split; [by destruct (uniqueId row)|].
  split; [|split; [done|]].
  - unfold columnsKey, consolidate_data.keyOf. cbn [consolidate_data.columns].
    rewrite Hcolumn. cbn [JS.orElse]. unfold JS.or_else. by rewrite Htruthy.
  - replace (toRecord row !! "Rank") with (Some (rank row)) by done.
    by replace (toRecord row !! "Domain") with (Some (domain row)) by done.
Qed.

(** X21. Page for page, the local scraper asks for the URL the
    Partitioner generates. *)
Theorem local_scraper_same_urls (pageNum : Z) :
  local_scraper.pageUrl pageNum = url_generator.pageUrl pageNum.
Proof.
  unfold local_scraper.pageUrl, url_generator.pageUrl.
  generalize (JS.toString pageNum) as t. intros t.
  transitivity
    ("https://myip.ms/browse" +:+ ("/sites/" +:+ t +:+ "/") +:+
     "rankii/15000000/ipID/23.227.38.0/ipIDii/23.227.38.255").
  - vm_compute. reflexivity.
  - rewrite !append_assoc. vm_compute. reflexivity.
Qed.

End FirstWorker.
